(** * parquet-go: row shredding/assembly and column buffers

    A shallow embedding of [row.go] and [buffer_column.go].  Go slices are
    lists, Go integers are [Z] with their wrap-around written out, a method
    that can panic or not return yields [option], and a method that mutates
    its receiver returns the receiver's new state. *)

From Stdlib Require Import ZArith String Lia.
From Stdlib.Strings Require Import Byte.
From stdpp Require Import list.

Set Warnings "-register-all".

Local Open Scope Z_scope.

(* ===================================================================== *)
(** ** Machine integers and slices *)
(* ===================================================================== *)

(** Conversion to [int8]: two's complement wrap-around on 8 bits. *)
Definition int8 (z : Z) : Z := (z + 128) mod 256 - 128.

(** Go's [int] on a 64-bit platform. *)
Definition int (z : Z) : Z := (z + 2 ^ 63) mod 2 ^ 64 - 2 ^ 63.

(** Conversion to [uint32]. *)
Definition uint32 (z : Z) : Z := z mod 2 ^ 32.

Definition MaxRepetitionLevel : Z := 127.
Definition MaxDefinitionLevel : Z := 127.
Definition MaxColumnIndex : Z := 127.

(** [len(s)]. *)
Definition len {A} (s : list A) : Z := Z.of_nat (length s).

(** [s[i]]; [None] is the run-time panic of an index out of range. *)
Definition idx {A} (s : list A) (i : Z) : option A :=
  if decide (0 <= i) then s !! Z.to_nat i else None.

(** [s[lo:hi]]; capacity is not modelled, so [hi] is checked against
    [len(s)]. *)
Definition slice {A} (s : list A) (lo hi : Z) : option (list A) :=
  if decide (0 <= lo /\ lo <= hi /\ hi <= len s)
  then Some (take (Z.to_nat (hi - lo)) (drop (Z.to_nat lo) s))
  else None.

(** [s[i], s[j] = s[j], s[i]]: both operands are read, then [s[i]] and
    [s[j]] are written in that order. *)
Definition swap {A} (s : list A) (i j : Z) : option (list A) :=
  x ← idx s i;
  y ← idx s j;
  Some (<[Z.to_nat j := x]> (<[Z.to_nat i := y]> s)).

(** [s[i] = f(s[i])], used for field updates such as
    [row[n].definitionLevel = d]. *)
Definition update {A} (s : list A) (i : Z) (f : A -> A) : option (list A) :=
  x ← idx s i;
  Some (<[Z.to_nat i := f x]> s).

(* ===================================================================== *)
(** ** Values and rows *)
(* ===================================================================== *)

Inductive Kind :=
  Boolean | Int32 | Int64 | Int96 | Float | Double | ByteArray | FixedLenByteArray.

#[global] Instance byte_eq_dec : EqDecision Byte.byte := Byte.byte_eq_dec.

#[global] Instance Kind_eq_dec : EqDecision Kind.
Proof. solve_decision. Defined.

(** Modelled from the spec: the declaration of [Value] is not among the
    sources.  A value is "a primitive payload (tagged by physical kind) plus
    three bytes: column index (encoded as bitwise complement of the true
    index so zero-initialized values are invalid sentinels), repetition
    level, definition level".  Floating point payloads are kept as their bit
    patterns; the null value has no payload. *)
Inductive payload :=
| PBoolean (b : bool)
| PInt32 (x : Z)
| PInt64 (x : Z)
| PInt96 (x : Z)
| PFloat (bits : Z)
| PDouble (bits : Z)
| PByteArray (bytes : list Byte.byte)
| PFixedLenByteArray (bytes : list Byte.byte).

#[global] Instance payload_eq_dec : EqDecision payload.
Proof. solve_decision. Defined.

Record Value := mkValue {
  val : option payload;
  repetitionLevel : Z;
  definitionLevel : Z;
  columnIndex : Z
}.

#[global] Instance Value_eq_dec : EqDecision Value.
Proof. solve_decision. Defined.

(** [Value{}]. *)
Definition Value_zero : Value := mkValue None 0 0 0.

Definition with_repetitionLevel (r : Z) (v : Value) : Value :=
  mkValue (val v) r (definitionLevel v) (columnIndex v).
Definition with_definitionLevel (d : Z) (v : Value) : Value :=
  mkValue (val v) (repetitionLevel v) d (columnIndex v).
Definition with_columnIndex (c : Z) (v : Value) : Value :=
  mkValue (val v) (repetitionLevel v) (definitionLevel v) c.

(** Modelled from the spec: the accessors of [Value] are not among the
    sources.  The stored column index is the complement of the true one. *)
Definition ColumnIndex (v : Value) : Z := int8 (Z.lnot (columnIndex v)).
Definition RepetitionLevel (v : Value) : Z := repetitionLevel v.
Definition DefinitionLevel (v : Value) : Z := definitionLevel v.

(** Modelled from the spec: payload accessors of [Value], absent from the
    sources; each returns the payload of its own kind and the zero of the
    kind otherwise. *)
Definition Value_Boolean (v : Value) : bool :=
  match val v with Some (PBoolean b) => b | _ => false end.
Definition Value_Int32 (v : Value) : Z :=
  match val v with Some (PInt32 x) => x | _ => 0 end.
Definition Value_Int64 (v : Value) : Z :=
  match val v with Some (PInt64 x) => x | _ => 0 end.
Definition Value_Int96 (v : Value) : Z :=
  match val v with Some (PInt96 x) => x | _ => 0 end.
Definition Value_Float (v : Value) : Z :=
  match val v with Some (PFloat x) => x | _ => 0 end.
Definition Value_Double (v : Value) : Z :=
  match val v with Some (PDouble x) => x | _ => 0 end.
Definition Value_ByteArray (v : Value) : list Byte.byte :=
  match val v with
  | Some (PByteArray b) => b
  | Some (PFixedLenByteArray b) => b
  | _ => []
  end.

(** Modelled from the spec: the [makeValue...] constructors, absent from the
    sources; they build a value of the given kind with all three bytes
    zero. *)
Definition makeValueBoolean (b : bool) : Value := mkValue (Some (PBoolean b)) 0 0 0.
Definition makeValueInt32 (x : Z) : Value := mkValue (Some (PInt32 x)) 0 0 0.
Definition makeValueInt64 (x : Z) : Value := mkValue (Some (PInt64 x)) 0 0 0.
Definition makeValueInt96 (x : Z) : Value := mkValue (Some (PInt96 x)) 0 0 0.
Definition makeValueFloat (x : Z) : Value := mkValue (Some (PFloat x)) 0 0 0.
Definition makeValueDouble (x : Z) : Value := mkValue (Some (PDouble x)) 0 0 0.
Definition makeValueBytes (k : Kind) (b : list Byte.byte) : Value :=
  match k with
  | FixedLenByteArray => mkValue (Some (PFixedLenByteArray b)) 0 0 0
  | _ => mkValue (Some (PByteArray b)) 0 0 0
  end.

(** [type Row []Value]. *)
Definition Row := list Value.

Definition startsWith (row : Row) (columnIndex : Z) : bool :=
  match row with
  | [] => false
  | v :: _ => bool_decide (ColumnIndex v = columnIndex)
  end.

(** Errors.  [errRowIndexOutOfBounds] is the "index out of bounds" error and
    [io_EOF] the end-of-stream signal; [fmt_Errorf] keeps the format string
    and its integer arguments, [fmt_Errorf_wrap] is the error that wraps
    [err] under the name of a child. *)
Inductive error :=
| errRowIndexOutOfBounds (index length : Z)
| io_EOF
| fmt_Errorf (format : string) (args : list Z)
| fmt_Errorf_wrap (name : string) (err : error).

(* ===================================================================== *)
(** ** Column buffers ([buffer_column.go]) *)
(* ===================================================================== *)

(** The two functions of type [nullOrdering]. *)
Inductive nullOrdering := nullsGoFirst | nullsGoLast.

Module region.
Record t := mk { offset : Z; length : Z }.
End region.

#[global] Instance region_eq_dec : EqDecision region.t.
Proof. solve_decision. Defined.

(** *** Flat typed columns

    A flat column embeds its page, which holds the slice of values. *)
Definition booleanBufferColumn := list bool.
Definition int32BufferColumn := list Z.
Definition int64BufferColumn := list Z.
Definition int96BufferColumn := list Z.
Definition floatBufferColumn := list Z.
Definition doubleBufferColumn := list Z.
Definition byteArrayBufferColumn := list (list Byte.byte).

Module fixedLen.
Record t := mk { size : Z; data : list Byte.byte; tmp : list Byte.byte }.
End fixedLen.
Definition fixedLenByteArrayBufferColumn := fixedLen.t.

Section FlatColumn.
Context {A : Type}.
(** [v.Boolean()], [v.Int32()], ... and [makeValueBoolean], ... *)
Variable get : Value -> A.
Variable make : A -> Value.

(** [for _, v := range row { col.values = append(col.values, get(v)) };
  return nil] *)
Definition flat_WriteRow (values : list A) (row : Row) : list A * option error :=
(foldl (fun values v => values ++ [get v]) values row, None).

Definition flat_ReadRowAt (values : list A) (row : Row) (index : Z)
: option (Row * option error) :=
if decide (index < 0) then
  Some (row, Some (errRowIndexOutOfBounds index (len values)))
else if decide (index >= len values) then
  Some (row, Some io_EOF)
else
  x ← idx values index;
  Some (row ++ [make x], None).

Definition flat_Swap (values : list A) (i j : Z) : option (list A) :=
swap values i j.

Definition flat_Reset (values : list A) : list A := [].
Definition flat_Clone (values : list A) : list A := [] ++ values.
Definition flat_Len (values : list A) : Z := len values.
End FlatColumn.

Definition booleanBufferColumn_WriteRow := flat_WriteRow Value_Boolean.
Definition booleanBufferColumn_ReadRowAt := flat_ReadRowAt makeValueBoolean.
Definition int32BufferColumn_WriteRow := flat_WriteRow Value_Int32.
Definition int32BufferColumn_ReadRowAt := flat_ReadRowAt makeValueInt32.
Definition int32BufferColumn_Swap := @flat_Swap Z.
Definition int64BufferColumn_WriteRow := flat_WriteRow Value_Int64.
Definition int64BufferColumn_ReadRowAt := flat_ReadRowAt makeValueInt64.
Definition int96BufferColumn_WriteRow := flat_WriteRow Value_Int96.
Definition int96BufferColumn_ReadRowAt := flat_ReadRowAt makeValueInt96.
Definition floatBufferColumn_WriteRow := flat_WriteRow Value_Float.
Definition floatBufferColumn_ReadRowAt := flat_ReadRowAt makeValueFloat.
Definition doubleBufferColumn_WriteRow := flat_WriteRow Value_Double.
Definition doubleBufferColumn_ReadRowAt := flat_ReadRowAt makeValueDouble.
Definition byteArrayBufferColumn_WriteRow := flat_WriteRow Value_ByteArray.
Definition byteArrayBufferColumn_ReadRowAt :=
  flat_ReadRowAt (makeValueBytes ByteArray).

(** [len(col.data) / col.size]; the division panics when [size] is zero. *)
Definition fixedLenByteArrayBufferColumn_Len (col : fixedLen.t) : option Z :=
  if decide (fixedLen.size col = 0) then None
  else Some (Z.quot (len (fixedLen.data col)) (fixedLen.size col)).

Definition fixedLenByteArrayBufferColumn_WriteRow (col : fixedLen.t) (row : Row)
  : fixedLen.t * option error :=
  (fixedLen.mk (fixedLen.size col)
     (foldl (fun data v => data ++ Value_ByteArray v) (fixedLen.data col) row)
     (fixedLen.tmp col),
   None).

(** The two offsets are computed in [int] arithmetic before any test. *)
Definition fixedLenByteArrayBufferColumn_ReadRowAt
    (col : fixedLen.t) (row : Row) (index : Z) : option (Row * option error) :=
  let i := int (int (index + 0) * fixedLen.size col) in
  let j := int (int (index + 1) * fixedLen.size col) in
  if decide (i < 0) then
    n ← fixedLenByteArrayBufferColumn_Len col;
    Some (row, Some (errRowIndexOutOfBounds index n))
  else if decide (j > len (fixedLen.data col)) then
    Some (row, Some io_EOF)
  else
    b ← slice (fixedLen.data col) i j;
    Some (row ++ [makeValueBytes FixedLenByteArray b], None).

(** [col.index(i)]: the bounds of the [i]-th chunk of [col.data]. *)
Definition fixedLenByteArrayBufferColumn_index (col : fixedLen.t) (i : Z)
  : option (Z * Z * list Byte.byte) :=
  let j := int (int (i + 0) * fixedLen.size col) in
  let k := int (int (i + 1) * fixedLen.size col) in
  b ← slice (fixedLen.data col) j k;
  Some (j, k, b).

(** [copy(dst, src)] where [dst] is the window of [s] that starts at [off]
    and [src] has the length of the window. *)
Definition copy_at {A} (s : list A) (off : Z) (src : list A) : list A :=
  take (Z.to_nat off) s ++ src ++ drop (Z.to_nat off + length src) s.

Definition fixedLenByteArrayBufferColumn_Swap (col : fixedLen.t) (i j : Z)
  : option fixedLen.t :=
  _ ← slice (fixedLen.tmp col) 0 (fixedLen.size col);
  '(ui, _, u) ← fixedLenByteArrayBufferColumn_index col i;
  '(vi, _, _) ← fixedLenByteArrayBufferColumn_index col j;
  let t := u in                                            (* copy(t, u) *)
  let data1 := copy_at (fixedLen.data col) ui
                 (take (length u) (drop (Z.to_nat vi) (fixedLen.data col))) in
                                                           (* copy(u, v) *)
  let data2 := copy_at data1 vi t in                       (* copy(v, t) *)
  Some (fixedLen.mk (fixedLen.size col) data2
          (t ++ drop (length t) (fixedLen.tmp col))).

(** *** Optional and repeated columns

    Both wrap a [base] of interface type [BufferColumn]; the records are
    parametric in the type of the base and their methods in the methods of
    the base that they call. *)
Module optional.
Record t (B : Type) := mk {
base : B;
maxDefinitionLevel : Z;
definitionLevels : list Z;
ordering : nullOrdering
}.
Arguments mk {B}. Arguments base {B}. Arguments maxDefinitionLevel {B}.
Arguments definitionLevels {B}. Arguments ordering {B}.
End optional.

Module repeated.
Inductive t (B : Type) := mk {
base : B;
maxRepetitionLevel : Z;
maxDefinitionLevel : Z;
rows : list region.t;
repetitionLevels : list Z;
definitionLevels : list Z;
buffer : list Value;
reordering : option (t B);
ordering : nullOrdering
}.
Arguments mk {B}. Arguments base {B}. Arguments maxRepetitionLevel {B}.
Arguments maxDefinitionLevel {B}. Arguments rows {B}.
Arguments repetitionLevels {B}. Arguments definitionLevels {B}.
Arguments buffer {B}. Arguments reordering {B}. Arguments ordering {B}.
End repeated.

Definition isNull (i : Z) (maxDefinitionLevel : Z) (definitionLevels : list Z)
  : option bool :=
  d ← idx definitionLevels i;
  Some (bool_decide (d <> maxDefinitionLevel)).

(** Modelled from the spec: [newOptionalPage] is not among the sources; "the
    page wraps (compactedBase, maxDefinitionLevel, definitionLevels)". *)
Module optionalPage.
Record t (P : Type) := mk {
base : P;
maxDefinitionLevel : Z;
definitionLevels : list Z
}.
Arguments mk {P}. Arguments base {P}. Arguments maxDefinitionLevel {P}.
Arguments definitionLevels {P}.
End optionalPage.

(** A flat column's page is the page it embeds.  The page shares the
    column's memory; the model returns its contents at the time of the
    call. *)
Definition int32Page := list Z.
Definition int32BufferColumn_Page (col : int32BufferColumn) : int32Page := col.

(** Modelled from the spec: [Slice] is not among the sources; it "slices the
    base's page". *)
Definition int32Page_Slice (page : int32Page) (i j : Z) : int32Page :=
  take (Z.to_nat (j - i)) (drop (Z.to_nat i) page).

Section Wrappers.
(** The base column and the methods of [BufferColumn] called on it. *)
Context {B : Type}.
Variable base_WriteRow : B -> Row -> B * option error.
Variable base_ReadRowAt : B -> Row -> Z -> option (Row * option error).
Variable base_Swap : B -> Z -> Z -> option B.
Variable base_Reset : B -> B.
Variable base_Clone : B -> B.

(** **** Null compaction *)
Section Page.
Context {P : Type}.
Variable column_Page : B -> P.
Variable page_Slice : P -> Z -> Z -> P.
Variable maxDefinitionLevel : Z.
Variable definitionLevels : list Z.

(** [for j < len(definitionLevels) && isNull(j, ...) { j++ }] *)
Fixpoint skipNulls (fuel : nat) (j : Z) : option Z :=
if decide (j < len definitionLevels) then
null ← isNull j maxDefinitionLevel definitionLevels;
if null : bool then
  match fuel with
  | O => None
  | S fuel => skipNulls fuel (j + 1)
  end
else Some j
else Some j.

(** [for i := 0; i < len(definitionLevels); { ... }], from the state
[(column, i, n)]. *)
Fixpoint compactLoop (fuel : nat) (column : B) (i n : Z) : option (B * Z) :=
if decide (i < len definitionLevels) then
match fuel with
| O => None
| S fuel' =>
    j ← skipNulls fuel i;
    if decide (j < len definitionLevels) then
      column ← base_Swap column n j;
      compactLoop fuel' column (j + 1) (n + 1)
    else compactLoop fuel' column (j + 1) n
end
else Some (column, n).

(** Returns the page and the state in which the scan leaves [column]. *)
Definition rowGroupColumnPageWithoutNulls (column : B) : option (P * B) :=
'(column, n) ← compactLoop (S (length definitionLevels)) column 0 0;
Some (page_Slice (column_Page column) 0 n, column).
End Page.

(** **** [optionalBufferColumn] *)

Definition newOptionalBufferColumn (base : B) (maxDefinitionLevel : Z)
  (ordering : nullOrdering) : optional.t B :=
optional.mk base maxDefinitionLevel [] ordering.

Definition optionalBufferColumn_Clone (col : optional.t B) : optional.t B :=
optional.mk (base_Clone (optional.base col))
  (optional.maxDefinitionLevel col)
  ([] ++ optional.definitionLevels col)
  (optional.ordering col).

Definition optionalBufferColumn_Page {P} (column_Page : B -> P)
  (page_Slice : P -> Z -> Z -> P) (col : optional.t B)
: option (optionalPage.t P * optional.t B) :=
'(page, base) ← rowGroupColumnPageWithoutNulls column_Page page_Slice
                  (optional.maxDefinitionLevel col)
                  (optional.definitionLevels col) (optional.base col);
Some (optionalPage.mk page (optional.maxDefinitionLevel col)
        (optional.definitionLevels col),
      optional.mk base (optional.maxDefinitionLevel col)
        (optional.definitionLevels col) (optional.ordering col)).

Definition optionalBufferColumn_Reset (col : optional.t B) : optional.t B :=
optional.mk (base_Reset (optional.base col))
  (optional.maxDefinitionLevel col) [] (optional.ordering col).

Definition optionalBufferColumn_Len (col : optional.t B) : Z :=
len (optional.definitionLevels col).

Definition optionalBufferColumn_Swap (col : optional.t B) (i j : Z)
: option (optional.t B) :=
base ← base_Swap (optional.base col) i j;
definitionLevels ← swap (optional.definitionLevels col) i j;
Some (optional.mk base (optional.maxDefinitionLevel col) definitionLevels
        (optional.ordering col)).

Definition optionalBufferColumn_WriteRow (col : optional.t B) (row : Row)
: optional.t B * option error :=
let '(base, err) := base_WriteRow (optional.base col) row in
match err with
| Some e =>
    (optional.mk base (optional.maxDefinitionLevel col)
       (optional.definitionLevels col) (optional.ordering col), Some e)
| None =>
    (optional.mk base (optional.maxDefinitionLevel col)
       (foldl (fun levels v => levels ++ [DefinitionLevel v])
          (optional.definitionLevels col) row)
       (optional.ordering col), None)
end.

Definition optionalBufferColumn_ReadRowAt (col : optional.t B) (row : Row)
  (index : Z) : option (Row * option error) :=
if decide (index < 0) then
  Some (row, Some (errRowIndexOutOfBounds index
                     (len (optional.definitionLevels col))))
else if decide (index >= len (optional.definitionLevels col)) then
  Some (row, Some io_EOF)
else
  definitionLevel ← idx (optional.definitionLevels col) index;
  if decide (definitionLevel <> optional.maxDefinitionLevel col) then
    Some (row ++ [mkValue None 0 definitionLevel 0], None)
  else
    let n := len row in
    '(row, err) ← base_ReadRowAt (optional.base col) row index;
    match err with
    | Some e => Some (row, Some e)
    | None =>
        if decide (n = len row) then
          row ← slice row 0 n;
          Some (row, Some (fmt_Errorf
            "optional column has no value for row index %d" [index]))
        else if decide (n <> len row - 1) then
          row ← slice row 0 n;
          Some (row, Some (fmt_Errorf
            "optional column has more than one value for row index %d"
            [index]))
        else
          row ← update row n (with_definitionLevel definitionLevel);
          Some (row, None)
    end.

(** **** [repeatedBufferColumn] *)

Definition newRepeatedBufferColumn (base : B)
  (maxRepetitionLevel maxDefinitionLevel : Z) (ordering : nullOrdering)
: repeated.t B :=
repeated.mk base maxRepetitionLevel maxDefinitionLevel [] [] [] [] None
  ordering.

Definition rowsHaveBeenReordered (rows : list region.t) : bool :=
(fix loop (rows : list region.t) (offset : Z) : bool :=
   match rows with
   | [] => false
   | row :: rows =>
       if decide (region.offset row <> offset) then true
       else loop rows (uint32 (offset + region.length row))
   end) rows 0.

Definition maxRowLengthOf (rows : list region.t) : Z :=
foldl (fun maxLength row =>
         if decide (region.length row > maxLength) then region.length row
         else maxLength) 0 rows.

Definition repeatedBufferColumn_Clone (col : repeated.t B) : repeated.t B :=
repeated.mk (base_Clone (repeated.base col))
  (repeated.maxRepetitionLevel col)
  (repeated.maxDefinitionLevel col)
  ([] ++ repeated.rows col)
  ([] ++ repeated.repetitionLevels col)
  ([] ++ repeated.definitionLevels col)
  [] None
  (repeated.ordering col).

Definition repeatedBufferColumn_Reset (col : repeated.t B) : repeated.t B :=
repeated.mk (base_Reset (repeated.base col))
  (repeated.maxRepetitionLevel col)
  (repeated.maxDefinitionLevel col)
  [] [] []
  (repeated.buffer col) (repeated.reordering col)
  (repeated.ordering col).

Definition repeatedBufferColumn_Len (col : repeated.t B) : Z :=
len (repeated.rows col).

Definition repeatedBufferColumn_Swap (col : repeated.t B) (i j : Z)
: option (repeated.t B) :=
rows ← swap (repeated.rows col) i j;
Some (repeated.mk (repeated.base col)
        (repeated.maxRepetitionLevel col)
        (repeated.maxDefinitionLevel col)
        rows
        (repeated.repetitionLevels col)
        (repeated.definitionLevels col)
        (repeated.buffer col) (repeated.reordering col)
        (repeated.ordering col)).

(** [col.row(n)] *)
Definition repeatedBufferColumn_row (col : repeated.t B) (n : Z) : region.t :=
region.mk (uint32 (len (repeated.repetitionLevels col))) (uint32 n).

Definition repeatedBufferColumn_WriteRow (col : repeated.t B) (row : Row)
: repeated.t B * option error :=
let '(base, err) := base_WriteRow (repeated.base col) row in
match err with
| Some e =>
    (repeated.mk base
       (repeated.maxRepetitionLevel col) (repeated.maxDefinitionLevel col)
       (repeated.rows col)
       (repeated.repetitionLevels col) (repeated.definitionLevels col)
       (repeated.buffer col) (repeated.reordering col)
       (repeated.ordering col), Some e)
| None =>
    let rows := repeated.rows col ++ [repeatedBufferColumn_row col (len row)] in
    let '(repetitionLevels, definitionLevels) :=
      foldl (fun '(rl, dl) v =>
               (rl ++ [RepetitionLevel v], dl ++ [DefinitionLevel v]))
        (repeated.repetitionLevels col, repeated.definitionLevels col) row in
    (repeated.mk base
       (repeated.maxRepetitionLevel col) (repeated.maxDefinitionLevel col)
       rows repetitionLevels definitionLevels
       (repeated.buffer col) (repeated.reordering col)
       (repeated.ordering col), None)
end.

(** The body of [for i := range definitionLevels] in
  [repeatedBufferColumn.ReadRowAt], from position [i] on; [levels] are the
  definition levels not yet visited. *)
Fixpoint readRegion (col : repeated.t B) (region : region.t) (index reset : Z)
  (repetitionLevels : list Z) (levels : list Z) (i : Z) (row : Row)
: option (Row * option error) :=
match levels with
| [] => Some (row, None)
| definitionLevel :: levels =>
    repetitionLevel ← idx repetitionLevels i;
    if decide (definitionLevel <> repeated.maxDefinitionLevel col) then
      readRegion col region index reset repetitionLevels levels (i + 1)
        (row ++ [mkValue None repetitionLevel definitionLevel 0])
    else
      let n := len row in
      '(row, err) ← base_ReadRowAt (repeated.base col) row
                      (int (int (region.offset region) + i));
      match err with
      | Some e => row ← slice row 0 reset; Some (row, Some e)
      | None =>
          if decide (n = len row) then
            row ← slice row 0 reset;
            Some (row, Some (fmt_Errorf
              "repeated column has no values for element %d of row index %d"
              [i; index]))
          else if decide (n <> len row - 1) then
            row ← slice row 0 reset;
            Some (row, Some (fmt_Errorf
              "repeated column has more than one value for element %d of row index %d"
              [i; index]))
          else
            row ← update row n
                    (fun v => with_definitionLevel definitionLevel
                                (with_repetitionLevel repetitionLevel v));
            readRegion col region index reset repetitionLevels levels
              (i + 1) row
      end
end.

Definition repeatedBufferColumn_ReadRowAt (col : repeated.t B) (row : Row)
  (index : Z) : option (Row * option error) :=
if decide (index < 0) then
  Some (row, Some (errRowIndexOutOfBounds index (len (repeated.rows col))))
else if decide (index >= len (repeated.rows col)) then
  Some (row, Some io_EOF)
else
  let reset := len row in
  region ← idx (repeated.rows col) index;
  let lo := region.offset region in
  let hi := uint32 (region.offset region + region.length region) in
  repetitionLevels ← slice (repeated.repetitionLevels col) lo hi;
  definitionLevels ← slice (repeated.definitionLevels col) lo hi;
  readRegion col region index reset repetitionLevels definitionLevels 0 row.
End Wrappers.

(** *** The implementations of [BufferColumn]

    A value of interface type [BufferColumn] is one of the column types of
    [buffer_column.go]; a method call on it dispatches on that type.  The
    interface is open: the optional and the repeated column are defined
    above over any base and its methods, and [BufferColumn] lists the
    implementations of this file only. *)
Inductive BufferColumn :=
| ColBoolean (col : booleanBufferColumn)
| ColInt32 (col : int32BufferColumn)
| ColInt64 (col : int64BufferColumn)
| ColInt96 (col : int96BufferColumn)
| ColFloat (col : floatBufferColumn)
| ColDouble (col : doubleBufferColumn)
| ColByteArray (col : byteArrayBufferColumn)
| ColFixedLenByteArray (col : fixedLenByteArrayBufferColumn)
| ColUint32 (col : int32BufferColumn)
| ColUint64 (col : int64BufferColumn)
| ColReversed (col : BufferColumn)
| ColOptional (col : optional.t BufferColumn)
| ColRepeated (col : repeated.t BufferColumn).

Definition lift {A} (C : A -> BufferColumn) (r : A * option error)
  : BufferColumn * option error := (C r.1, r.2).

Fixpoint WriteRow (col : BufferColumn) (row : Row) : BufferColumn * option error :=
  match col with
  | ColBoolean c => lift ColBoolean (booleanBufferColumn_WriteRow c row)
  | ColInt32 c => lift ColInt32 (int32BufferColumn_WriteRow c row)
  | ColInt64 c => lift ColInt64 (int64BufferColumn_WriteRow c row)
  | ColInt96 c => lift ColInt96 (int96BufferColumn_WriteRow c row)
  | ColFloat c => lift ColFloat (floatBufferColumn_WriteRow c row)
  | ColDouble c => lift ColDouble (doubleBufferColumn_WriteRow c row)
  | ColByteArray c => lift ColByteArray (byteArrayBufferColumn_WriteRow c row)
  | ColFixedLenByteArray c =>
      lift ColFixedLenByteArray (fixedLenByteArrayBufferColumn_WriteRow c row)
  | ColUint32 c => lift ColUint32 (int32BufferColumn_WriteRow c row)
  | ColUint64 c => lift ColUint64 (int64BufferColumn_WriteRow c row)
  | ColReversed c => lift ColReversed (WriteRow c row)
  | ColOptional c => lift ColOptional (optionalBufferColumn_WriteRow WriteRow c row)
  | ColRepeated c => lift ColRepeated (repeatedBufferColumn_WriteRow WriteRow c row)
  end.

Fixpoint ReadRowAt (col : BufferColumn) (row : Row) (index : Z)
  : option (Row * option error) :=
  match col with
  | ColBoolean c => booleanBufferColumn_ReadRowAt c row index
  | ColInt32 c => int32BufferColumn_ReadRowAt c row index
  | ColInt64 c => int64BufferColumn_ReadRowAt c row index
  | ColInt96 c => int96BufferColumn_ReadRowAt c row index
  | ColFloat c => floatBufferColumn_ReadRowAt c row index
  | ColDouble c => doubleBufferColumn_ReadRowAt c row index
  | ColByteArray c => byteArrayBufferColumn_ReadRowAt c row index
  | ColFixedLenByteArray c => fixedLenByteArrayBufferColumn_ReadRowAt c row index
  | ColUint32 c => int32BufferColumn_ReadRowAt c row index
  | ColUint64 c => int64BufferColumn_ReadRowAt c row index
  | ColReversed c => ReadRowAt c row index
  | ColOptional c => optionalBufferColumn_ReadRowAt ReadRowAt c row index
  | ColRepeated c => repeatedBufferColumn_ReadRowAt ReadRowAt c row index
  end.

(** *** The order of the rows ([Less])

    [Less] indexes the values, and panics on an index out of range. *)

(** Conversion to [uint64]. *)
Definition uint64 (z : Z) : Z := z mod 2 ^ 64.

(** [col.values[i] != col.values[j] && !col.values[i]] *)
Definition booleanBufferColumn_Less (col : booleanBufferColumn) (i j : Z)
  : option bool :=
  x ← idx col i;
  y ← idx col j;
  Some (bool_decide (x <> y) && negb x).

(** [col.values[i] < col.values[j]] *)
Definition int32BufferColumn_Less (col : int32BufferColumn) (i j : Z)
  : option bool :=
  x ← idx col i;
  y ← idx col j;
  Some (bool_decide (x < y)).

(** [col.values[i] < col.values[j]], on [int64] values *)
Definition int64BufferColumn_Less (col : int64BufferColumn) (i j : Z)
  : option bool :=
  x ← idx col i;
  y ← idx col j;
  Some (bool_decide (x < y)).

(** [uint32(col.values[i]) < uint32(col.values[j])] *)
Definition uint32BufferColumn_Less (col : int32BufferColumn) (i j : Z)
  : option bool :=
  x ← idx col i;
  y ← idx col j;
  Some (bool_decide (uint32 x < uint32 y)).

(** [uint64(col.values[i]) < uint64(col.values[j])] *)
Definition uint64BufferColumn_Less (col : int64BufferColumn) (i j : Z)
  : option bool :=
  x ← idx col i;
  y ← idx col j;
  Some (bool_decide (uint64 x < uint64 y)).

Section Less.
Context {B : Type}.
(** [column.Less] of the base column. *)
Variable column_Less : B -> Z -> Z -> option bool.

(** [col.BufferColumn.Less(j, i)] *)
Definition reversedBufferColumn_Less (col : B) (i j : Z) : option bool :=
  column_Less col j i.

(** The function [nullsGoFirst]; the operator [&&] does not evaluate
    [column.Less(i, j)] when the row [j] is null. *)
Definition call_nullsGoFirst (column : B) (i j : Z) (maxDefinitionLevel : Z)
    (definitionLevels : list Z) : option bool :=
  null ← isNull i maxDefinitionLevel definitionLevels;
  if null : bool then
    null ← isNull j maxDefinitionLevel definitionLevels;
    Some (negb null)
  else
    null ← isNull j maxDefinitionLevel definitionLevels;
    if negb null then column_Less column i j else Some false.

(** The function [nullsGoLast]; the operator [||] does not evaluate
    [column.Less(i, j)] when the row [j] is null. *)
Definition call_nullsGoLast (column : B) (i j : Z) (maxDefinitionLevel : Z)
    (definitionLevels : list Z) : option bool :=
  null ← isNull i maxDefinitionLevel definitionLevels;
  if null : bool then Some false
  else
    null ← isNull j maxDefinitionLevel definitionLevels;
    if null : bool then Some true else column_Less column i j.

(** The call of a value of type [nullOrdering]. *)
Definition nullOrdering_call (ordering : nullOrdering) (column : B) (i j : Z)
    (maxDefinitionLevel : Z) (definitionLevels : list Z) : option bool :=
  match ordering with
  | nullsGoFirst =>
      call_nullsGoFirst column i j maxDefinitionLevel definitionLevels
  | nullsGoLast =>
      call_nullsGoLast column i j maxDefinitionLevel definitionLevels
  end.

(** [col.nullOrdering(col.base, i, j, col.maxDefinitionLevel,
    col.definitionLevels)] *)
Definition optionalBufferColumn_Less (col : optional.t B) (i j : Z)
  : option bool :=
  nullOrdering_call (optional.ordering col) (optional.base col) i j
    (optional.maxDefinitionLevel col) (optional.definitionLevels col).

(** [for k := uint32(0); k < row1.length && k < row2.length; k++ { ... }]
    and the [return] that follows it, from [k] on. *)
Fixpoint lessElements (fuel : nat) (col : repeated.t B)
    (row1 row2 : region.t) (k : Z) : option bool :=
  if bool_decide (k < region.length row1)
     && bool_decide (k < region.length row2)
  then
    match fuel with
    | O => None
    | S fuel =>
        let x := int (uint32 (region.offset row1 + k)) in
        let y := int (uint32 (region.offset row2 + k)) in
        lt ← nullOrdering_call (repeated.ordering col) (repeated.base col)
               x y (repeated.maxDefinitionLevel col)
               (repeated.definitionLevels col);
        if lt : bool then Some true
        else
          gt ← nullOrdering_call (repeated.ordering col) (repeated.base col)
                 y x (repeated.maxDefinitionLevel col)
                 (repeated.definitionLevels col);
          if gt : bool then Some false
          else lessElements fuel col row1 row2 (uint32 (k + 1))
    end
  else Some (bool_decide (region.length row1 < region.length row2)).

(** The loop runs at most [row1.length] times. *)
Definition repeatedBufferColumn_Less (col : repeated.t B) (i j : Z)
  : option bool :=
  row1 ← idx (repeated.rows col) i;
  row2 ← idx (repeated.rows col) j;
  lessElements (S (Z.to_nat (region.length row1))) col row1 row2 0.
End Less.

(** *** The level invariant of a repeated column *)

Definition sumLengths (rows : list region.t) : Z :=
  foldr (fun row sum => region.length row + sum) 0 rows.

(** [sum(region.length for region in rows) == len(repetitionLevels)
     == len(definitionLevels)] *)
Definition repeatedInvariant {B} (col : repeated.t B) : Prop :=
  sumLengths (repeated.rows col) = len (repeated.repetitionLevels col) /\
  len (repeated.repetitionLevels col) = len (repeated.definitionLevels col).

(** [extends row r] says of the result [r] of a read into [row] that a
    failed read returns [row] itself and a successful one returns [row]
    followed by the values read. *)
Definition extends (row : Row) (r : Row * option error) : Prop :=
  match r.2 with
  | Some _ => r.1 = row
  | None => exists vs, r.1 = row ++ vs
  end.

(** Every read of the column [b] through [ReadRowAt] extends its row. *)
Definition readsExtend {B}
    (ReadRowAt : B -> Row -> Z -> option (Row * option error)) (b : B) : Prop :=
  forall row index r, ReadRowAt b row index = Some r -> extends row r.

(** *** What the columns over a flat base are shown to do *)

(** The bytes of the [k]-th value of a fixed-length column: [size] bytes
    from the offset [k * size]. *)
Definition fixedLenValue (col : fixedLen.t) (k : Z) : list Byte.byte :=
  take (Z.to_nat (fixedLen.size col))
    (drop (Z.to_nat (k * fixedLen.size col)) (fixedLen.data col)).

(** The value that the optional and the repeated column return for a stored
    value [x] at the levels [r] and [d]: a null at these levels when [d] is
    not the maximum definition level, and else the value that the base
    makes of [x], at these levels. *)
Definition readValue {A} (make : A -> Value) (maxDefinitionLevel r d : Z)
    (x : A) : Value :=
  if decide (d <> maxDefinitionLevel) then mkValue None r d 0
  else with_definitionLevel d (with_repetitionLevel r (make x)).

(** An optional column over a flat base holds one definition level per
    value of the base. *)
Definition optionalInStep {A} (col : optional.t (list A)) : Prop :=
  len (optional.base col) = len (optional.definitionLevels col).

(** A repeated column over a flat base is well formed when the base and the
    two arrays of levels have one entry per value, fewer than [2^32] of
    them, and every region lies within them. *)
Definition repeatedWellFormed {A} (col : repeated.t (list A)) : Prop :=
  len (repeated.base col) = len (repeated.repetitionLevels col) /\
  len (repeated.repetitionLevels col) = len (repeated.definitionLevels col) /\
  len (repeated.repetitionLevels col) < 2 ^ 32 /\
  Forall (fun region =>
            0 <= region.offset region /\ 0 <= region.length region /\
            region.offset region + region.length region
            <= len (repeated.repetitionLevels col))
    (repeated.rows col).

(** The values of a region of a repeated column over a flat base, as
    [ReadRowAt] returns them. *)
Definition regionValues {A} (make : A -> Value) (col : repeated.t (list A))
    (region : region.t) : Row :=
  let lo := Z.to_nat (region.offset region) in
  let n := Z.to_nat (region.length region) in
  zip_with (fun levels x =>
              readValue make (repeated.maxDefinitionLevel col)
                levels.1 levels.2 x)
    (zip (take n (drop lo (repeated.repetitionLevels col)))
         (take n (drop lo (repeated.definitionLevels col))))
    (take n (drop lo (repeated.base col))).

(** The values of a flat base that stand at the rows whose definition level
    is the maximum, in the order of the rows. *)
Fixpoint nonNulls {A} (maxDefinitionLevel : Z) (definitionLevels : list Z)
    (values : list A) : list A :=
  match definitionLevels, values with
  | d :: definitionLevels, x :: values =>
      if decide (d <> maxDefinitionLevel)
      then nonNulls maxDefinitionLevel definitionLevels values
      else x :: nonNulls maxDefinitionLevel definitionLevels values
  | _, _ => []
  end.

(** The values without nulls of the first [i] rows. *)
Definition nonNullsBefore {A} (maxDefinitionLevel : Z)
    (definitionLevels : list Z) (values : list A) (i : Z) : list A :=
  nonNulls maxDefinitionLevel (take (Z.to_nat i) definitionLevels)
    (take (Z.to_nat i) values).

(** The loop of [rowsHaveBeenReordered], from the offset [offset] on. *)
Definition reorderedFrom : list region.t -> Z -> bool :=
  fix loop (rows : list region.t) (offset : Z) : bool :=
    match rows with
    | [] => false
    | row :: rows =>
        if decide (region.offset row <> offset) then true
        else loop rows (uint32 (offset + region.length row))
    end.

(* ===================================================================== *)
(** ** Host values ([reflect.Value]) *)
(* ===================================================================== *)

(** Modelled from the spec: the record is "an opaque in-memory value" walked
    by reflection.  A Go value is a primitive of one of the physical kinds, a
    pointer, a slice, a struct or a map; pointers, slices and maps carry
    their element types, so that [value.Type()] is known of nil values too.
    The capacity of a slice is its length.  The entries of a map are listed
    in the order in which [MapKeys] returns them. *)
Inductive gotype :=
| TPrim (kind : Kind) (size : nat)
| TPtr (elem : gotype)
| TSlice (elem : gotype)
| TStruct (fields : list gotype)
| TMap (key elem : gotype).

Inductive govalue :=
| VPrim (p : payload)
| VPtr (elem : gotype) (target : option govalue)
| VSlice (elem : gotype) (elems : option (list govalue))
| VStruct (fields : list govalue)
| VMap (key elem : gotype) (entries : option (list (govalue * govalue))).

(** A [reflect.Value]; [None] is the invalid [reflect.Value{}]. *)
Definition reflectValue := option govalue.

Definition kindOf (p : payload) : Kind :=
  match p with
  | PBoolean _ => Boolean
  | PInt32 _ => Int32
  | PInt64 _ => Int64
  | PInt96 _ => Int96
  | PFloat _ => Float
  | PDouble _ => Double
  | PByteArray _ => ByteArray
  | PFixedLenByteArray _ => FixedLenByteArray
  end.

Definition sizeOf (p : payload) : nat :=
  match p with
  | PFixedLenByteArray b => length b
  | _ => 0%nat
  end.

Definition zeroPayload (kind : Kind) (size : nat) : payload :=
  match kind with
  | Boolean => PBoolean false
  | Int32 => PInt32 0
  | Int64 => PInt64 0
  | Int96 => PInt96 0
  | Float => PFloat 0
  | Double => PDouble 0
  | ByteArray => PByteArray []
  | FixedLenByteArray => PFixedLenByteArray (repeat Byte.x00 size)
  end.

(** [value.Type()] *)
Fixpoint typeOf (v : govalue) : gotype :=
  match v with
  | VPrim p => TPrim (kindOf p) (sizeOf p)
  | VPtr t _ => TPtr t
  | VSlice t _ => TSlice t
  | VStruct fields => TStruct (map typeOf fields)
  | VMap k t _ => TMap k t
  end.

(** [reflect.Zero(typ)]; also the value that [reflect.New(typ).Elem()] and
    the elements of [reflect.MakeSlice(typ, n, n)] hold. *)
Fixpoint Zero (t : gotype) : govalue :=
  match t with
  | TPrim kind size => VPrim (zeroPayload kind size)
  | TPtr t => VPtr t None
  | TSlice t => VSlice t None
  | TStruct fields => VStruct (map Zero fields)
  | TMap k t => VMap k t None
  end.

(** [value.IsZero()] *)
Fixpoint IsZero (v : govalue) : bool :=
  match v with
  | VPrim p => bool_decide (p = zeroPayload (kindOf p) (sizeOf p))
  | VPtr _ target => match target with None => true | Some _ => false end
  | VSlice _ elems => match elems with None => true | Some _ => false end
  | VStruct fields => forallb IsZero fields
  | VMap _ _ entries => match entries with None => true | Some _ => false end
  end.


#[global] Instance gotype_eq_dec : EqDecision gotype.
Proof.
  unfold EqDecision. fix IH 1. intros x y.
  destruct x as [k n|x|x|xs|x1 x2], y as [k' n'|y|y|ys|y1 y2];
    try (right; discriminate).
  - destruct (decide (k = k')), (decide (n = n')); subst;
      (left; reflexivity) || (right; congruence).
  - destruct (IH x y); subst; (left; reflexivity) || (right; congruence).
  - destruct (IH x y); subst; (left; reflexivity) || (right; congruence).
  - assert (Decision (xs = ys)) as [->|].
    { revert ys. induction xs as [|a l IHl]; intros [|b l'];
        try (right; discriminate); [left; reflexivity|].
      destruct (IH a b); [|right; congruence].
      destruct (IHl l'); [|right; congruence]. left; congruence. }
    + left; reflexivity.
    + right; congruence.
  - destruct (IH x1 y1), (IH x2 y2); subst;
      (left; reflexivity) || (right; congruence).
Defined.

#[global] Instance govalue_eq_dec : EqDecision govalue.
Proof.
  unfold EqDecision. fix IH 1. intros x y.
  destruct x as [p|t o|t o|xs|k t o], y as [p'|t' o'|t' o'|ys|k' t' o'];
    try (right; discriminate).
  - destruct (decide (p = p')); subst;
      (left; reflexivity) || (right; congruence).
  - destruct (decide (t = t')); [subst|right; congruence].
    destruct o as [x|], o' as [y|]; try (right; discriminate).
    + destruct (IH x y); subst; (left; reflexivity) || (right; congruence).
    + left; reflexivity.
  - destruct (decide (t = t')); [subst|right; congruence].
    destruct o as [xs|], o' as [ys|]; try (right; discriminate).
    + assert (Decision (xs = ys)) as [->|].
      { revert ys. induction xs as [|a l IHl]; intros [|b l'];
          try (right; discriminate); [left; reflexivity|].
        destruct (IH a b); [|right; congruence].
        destruct (IHl l'); [|right; congruence]. left; congruence. }
      * left; reflexivity.
      * right; congruence.
    + left; reflexivity.
  - assert (Decision (xs = ys)) as [->|].
    { revert ys. induction xs as [|a l IHl]; intros [|b l'];
        try (right; discriminate); [left; reflexivity|].
      destruct (IH a b); [|right; congruence].
      destruct (IHl l'); [|right; congruence]. left; congruence. }
    + left; reflexivity.
    + right; congruence.
  - destruct (decide (k = k')); [subst|right; congruence].
    destruct (decide (t = t')); [subst|right; congruence].
    destruct o as [xs|], o' as [ys|]; try (right; discriminate).
    + assert (Decision (xs = ys)) as [->|].
      { revert ys. induction xs as [|[a1 a2] l IHl]; intros [|[b1 b2] l'];
          try (right; discriminate); [left; reflexivity|].
        destruct (IH a1 b1); [|right; congruence].
        destruct (IH a2 b2); [|right; congruence].
        destruct (IHl l'); [|right; congruence]. left; congruence. }
      * left; reflexivity.
      * right; congruence.
    + left; reflexivity.
Defined.

(** [value.Kind() == reflect.Ptr] *)
Definition isPtr (v : govalue) : bool :=
  match v with VPtr _ _ => true | _ => false end.

(** [value.Elem()] of a pointer; the [Elem] of a nil pointer is invalid. *)
Definition Elem (v : govalue) : option reflectValue :=
  match v with
  | VPtr _ target => Some target
  | _ => None
  end.

(** [value.Len()]; it panics on anything but a slice or a map. *)
Definition Len (v : govalue) : option Z :=
  match v with
  | VSlice _ elems => Some (len (default [] elems))
  | VMap _ _ entries => Some (len (default [] entries))
  | _ => None
  end.

(** [value.Cap()] of a slice. *)
Definition Cap (v : govalue) : option Z :=
  match v with
  | VSlice _ elems => Some (len (default [] elems))
  | _ => None
  end.

(** The elements that [value.Index(i)] ranges over, for [i < value.Len()]. *)
Definition elements (v : govalue) : option (list govalue) :=
  match v with
  | VSlice _ elems => Some (default [] elems)
  | _ => None
  end.

(** Modelled from the spec: a group node exposes "a value extractor that,
    given an in-memory group value and a child index, returns the child
    value"; the extractor ([ValueByIndex], [ValueByName]) is not among the
    sources.  The fields of the struct are the children, in order. *)
Definition valueByIndex (value : govalue) (index : nat) : option govalue :=
  match value with
  | VStruct fields => fields !! index
  | _ => None
  end.

(** Modelled from the spec: [makeValue] is not among the sources; the leaf
    "emits a Value of the node's physical kind".  The Go accessor of the
    kind panics on a value of another kind. *)
Definition makeValue (kind : Kind) (value : govalue) : option Value :=
  match value with
  | VPrim p => if decide (kindOf p = kind) then Some (mkValue (Some p) 0 0 0)
               else None
  | _ => None
  end.

(** Modelled from the spec: [assignValue] is not among the sources; the leaf
    "converts the payload into the destination slot" and a conversion
    failure is an error.  A payload of the kind and size of the slot is
    stored as it is, a null value zeroes the slot, and no conversion between
    kinds is modelled. *)
Definition assignValue (dst : govalue) (src : Value) : govalue * option error :=
  match val src with
  | None => (Zero (typeOf dst), None)
  | Some p =>
      if decide (typeOf dst = TPrim (kindOf p) (sizeOf p)) then (VPrim p, None)
      else (dst, Some (fmt_Errorf "cannot assign value to destination" []))
  end.

(** [mapValue.SetMapIndex(key, elem)] on the entries of a map. *)
Fixpoint SetMapIndex (entries : list (govalue * govalue)) (key elem : govalue)
  : list (govalue * govalue) :=
  match entries with
  | [] => [(key, elem)]
  | (k, e) :: entries =>
      if decide (k = key) then (k, elem) :: entries
      else (k, e) :: SetMapIndex entries key elem
  end.


(* ===================================================================== *)
(** ** Schema nodes *)
(* ===================================================================== *)

(** Modelled from the spec: [Node] is an external interface.  "Each node
    exposes: whether it is optional, repeated, required; whether it is a
    leaf (primitive) or group; its physical type; child names in declaration
    order; child lookup by name".  "Lists and maps are logical wrappers
    recognized by predicates isList / isMap; their element schema is
    extracted via listElementOf / mapKeyValueOf.  A map is modeled as a
    repeated group of {key, value} pairs."  [ChildByName] of the [i]-th name
    is the [i]-th child. *)
Inductive repetition := IsRequired | IsOptional | IsRepeated.

Inductive Node :=
| Leaf (rep : repetition) (kind : Kind)
| Group (rep : repetition) (children : list (string * Node))
| ListOf (rep : repetition) (element : Node)
| MapOf (rep : repetition) (key value : Node).

Definition repetitionOf (node : Node) : repetition :=
  match node with
  | Leaf rep _ | Group rep _ | ListOf rep _ | MapOf rep _ _ => rep
  end.

Definition withRepetition (rep : repetition) (node : Node) : Node :=
  match node with
  | Leaf _ kind => Leaf rep kind
  | Group _ children => Group rep children
  | ListOf _ element => ListOf rep element
  | MapOf _ key value => MapOf rep key value
  end.

(** [Required(node)], [Optional(node)] and [Repeated(node)] *)
Definition Required (node : Node) : Node := withRepetition IsRequired node.
Definition Optional (node : Node) : Node := withRepetition IsOptional node.
Definition Repeated (node : Node) : Node := withRepetition IsRepeated node.

(** [node.Optional()] and [node.Repeated()] *)
Definition Node_Optional (node : Node) : bool :=
  match repetitionOf node with IsOptional => true | _ => false end.
Definition Node_Repeated (node : Node) : bool :=
  match repetitionOf node with IsRepeated => true | _ => false end.

Definition isLeaf (node : Node) : bool :=
  match node with Leaf _ _ => true | _ => false end.
Definition isList (node : Node) : bool :=
  match node with ListOf _ _ => true | _ => false end.
Definition isMap (node : Node) : bool :=
  match node with MapOf _ _ _ => true | _ => false end.

Definition listElementOf (node : Node) : Node :=
  match node with ListOf _ element => element | _ => node end.

(** The group of the key and of the value of a map:
    [schemaOf(mapKeyValueOf(node).GoType().Elem())]. *)
Definition mapKeyValueOf (node : Node) : Node :=
  match node with
  | MapOf _ key value => Group IsRepeated [("key"%string, key); ("value"%string, value)]
  | _ => node
  end.

(** [node.ChildNames()] and the children that [node.ChildByName] returns for
    them. *)
Definition ChildNames (node : Node) : list string :=
  match node with Group _ children => children.*1 | _ => [] end.
Definition Children (node : Node) : list Node :=
  match node with Group _ children => children.*2 | _ => [] end.

(** [node.Type().Kind()] *)
Definition Node_Kind (node : Node) : option Kind :=
  match node with Leaf _ kind => Some kind | _ => None end.

(* ===================================================================== *)
(** ** Shredding and assembly ([row.go]) *)
(* ===================================================================== *)

Module levels.
Record t := mk {
repetitionDepth : Z;
repetitionLevel : Z;
definitionLevel : Z
}.
End levels.

(** The result of compiling a node: the next column index and the closure,
    or the panic of the compiler; [NoFuel] when the recursion was cut. *)
Inductive compiled (F : Type) :=
| Compiled (columnIndex : Z) (f : F)
| Panic (msg : string)
| NoFuel.
Arguments Compiled {F}. Arguments Panic {F}. Arguments NoFuel {F}.

(** [type deconstructFunc func(Row, levels, reflect.Value) Row]; [None] is a
    panic of the reflection library on a value that has not the shape of
    the schema. *)
Definition deconstructFunc := Row -> levels.t -> reflectValue -> option Row.

Section Deconstruct.
(** The recursive calls of [deconstructFuncOf]. *)
Variable deconstructFuncOf : Z -> Node -> compiled deconstructFunc.

Definition deconstructFuncOfOptional (columnIndex : Z) (node : Node)
: compiled deconstructFunc :=
match deconstructFuncOf columnIndex (Required node) with
| Compiled columnIndex deconstruct =>
    Compiled columnIndex (fun row levels value =>
      match value with
      | Some v =>
          if IsZero v then deconstruct row levels None
          else
            value ← (if isPtr v then Elem v else Some (Some v));
            deconstruct row
              (levels.mk (levels.repetitionDepth levels)
                 (levels.repetitionLevel levels)
                 (int8 (levels.definitionLevel levels + 1)))
              value
      | None => deconstruct row levels None
      end)
| Panic msg => Panic msg
| NoFuel => NoFuel
end.

(** [for i := 0; i < numValues; i++ { row = deconstruct(row, levels,
  value.Index(i)); levels.repetitionLevel = levels.repetitionDepth }] *)
Fixpoint deconstructElements (deconstruct : deconstructFunc)
  (elems : list govalue) (row : Row) (levels : levels.t) : option Row :=
match elems with
| [] => Some row
| elem :: elems =>
    row ← deconstruct row levels (Some elem);
    deconstructElements deconstruct elems row
      (levels.mk (levels.repetitionDepth levels)
         (levels.repetitionDepth levels)
         (levels.definitionLevel levels))
end.

Definition deconstructFuncOfRepeated (columnIndex : Z) (node : Node)
: compiled deconstructFunc :=
match deconstructFuncOf columnIndex (Required node) with
| Compiled columnIndex deconstruct =>
    Compiled columnIndex (fun row levels value =>
      match value with
      | Some v =>
          numValues ← Len v;
          let levels :=
            levels.mk (int8 (levels.repetitionDepth levels + 1))
              (levels.repetitionLevel levels)
              (if decide (numValues > 0)
               then int8 (levels.definitionLevel levels + 1)
               else levels.definitionLevel levels) in
          if decide (numValues = 0) then deconstruct row levels None
          else
            elems ← elements v;
            deconstructElements deconstruct elems row levels
      | None => deconstruct row levels None
      end)
| Panic msg => Panic msg
| NoFuel => NoFuel
end.

Definition deconstructFuncOfList (columnIndex : Z) (node : Node)
: compiled deconstructFunc :=
deconstructFuncOf columnIndex (Repeated (listElementOf node)).

(** The slice of key-value structs that the closure of a map builds from
  the entries of the map, in the order in which [MapKeys] returns the keys.
  That order is not specified and may differ from one call to the next; the
  model takes the order in which [VMap] lists the entries. *)
Definition keyValueSlice (key elem : gotype)
  (entries : list (govalue * govalue)) : govalue :=
VSlice (TStruct [key; elem])
  (Some (map (fun '(k, e) => VStruct [k; e]) entries)).

Definition deconstructFuncOfMap (columnIndex : Z) (node : Node)
: compiled deconstructFunc :=
match deconstructFuncOf columnIndex (Repeated (mapKeyValueOf node)) with
| Compiled columnIndex deconstruct =>
    Compiled columnIndex (fun row levels mapValue =>
      match mapValue with
      | None => deconstruct row levels None
      | Some (VMap key elem entries) =>
          deconstruct row levels
            (Some (keyValueSlice key elem (default [] entries)))
      | Some _ => None
      end)
| Panic msg => Panic msg
| NoFuel => NoFuel
end.

(** [for i, name := range names { columnIndex, funcs[i] =
  deconstructFuncOf(columnIndex, node.ChildByName(name)) }] *)
Fixpoint deconstructFuncOfChildren (columnIndex : Z) (children : list Node)
: compiled (list deconstructFunc) :=
match children with
| [] => Compiled columnIndex []
| child :: children =>
    match deconstructFuncOf columnIndex child with
    | Compiled columnIndex f =>
        match deconstructFuncOfChildren columnIndex children with
        | Compiled columnIndex funcs => Compiled columnIndex (f :: funcs)
        | Panic msg => Panic msg
        | NoFuel => NoFuel
        end
    | Panic msg => Panic msg
    | NoFuel => NoFuel
    end
end.

(** [for i, f := range funcs { row = f(row, levels, valueAt(value, i)) }],
  from index [i] on. *)
Fixpoint deconstructFields (funcs : list deconstructFunc) (i : nat)
  (row : Row) (levels : levels.t) (value : reflectValue) : option Row :=
match funcs with
| [] => Some row
| f :: funcs =>
    field ← match value with
            | Some v => Some <$> valueByIndex v i
            | None => Some None
            end;
    row ← f row levels field;
    deconstructFields funcs (S i) row levels value
end.

Definition deconstructFuncOfGroup (columnIndex : Z) (node : Node)
: compiled deconstructFunc :=
match deconstructFuncOfChildren columnIndex (Children node) with
| Compiled columnIndex funcs =>
    Compiled columnIndex (fun row levels value =>
      deconstructFields funcs 0 row levels value)
| Panic msg => Panic msg
| NoFuel => NoFuel
end.

(** [columnIndex + 1] is computed on [int]; it is left unwrapped since
    [columnIndex] is at most [MaxColumnIndex] past the guard.  The call
    [node.Type().Kind()] needs a leaf: [deconstructFuncOfRequired] tests
    [isLeaf] before it calls this compiler, so the second [Panic] is never
    met from [deconstructFuncOf]. *)
Definition deconstructFuncOfLeaf (columnIndex : Z) (node : Node)
: compiled deconstructFunc :=
if decide (columnIndex > MaxColumnIndex) then
  Panic "row cannot be deconstructed because it has more than 127 columns"
else
  match Node_Kind node with
  | None => Panic "not a leaf"
  | Some kind =>
      let valueColumnIndex := int8 (Z.lnot (int8 columnIndex)) in
      Compiled (columnIndex + 1) (fun row levels value =>
        v ← match value with
            | Some x => makeValue kind x
            | None => Some Value_zero
            end;
        Some (row ++ [mkValue (val v)
                        (levels.repetitionLevel levels)
                        (levels.definitionLevel levels)
                        valueColumnIndex]))
  end.

Definition deconstructFuncOfRequired (columnIndex : Z) (node : Node)
: compiled deconstructFunc :=
if isLeaf node then deconstructFuncOfLeaf columnIndex node
else deconstructFuncOfGroup columnIndex node.

(** The body of [deconstructFuncOf]. *)
Definition deconstructFuncOfBody (columnIndex : Z) (node : Node)
: compiled deconstructFunc :=
if Node_Optional node then deconstructFuncOfOptional columnIndex node
else if Node_Repeated node then deconstructFuncOfRepeated columnIndex node
else if isList node then deconstructFuncOfList columnIndex node
else if isMap node then deconstructFuncOfMap columnIndex node
else deconstructFuncOfRequired columnIndex node.
End Deconstruct.

Fixpoint deconstructFuncOfFuel (fuel : nat) (columnIndex : Z) (node : Node)
  : compiled deconstructFunc :=
  match fuel with
  | O => NoFuel
  | S fuel => deconstructFuncOfBody (deconstructFuncOfFuel fuel) columnIndex node
  end.


(** [type reconstructFunc func(reflect.Value, levels, Row) (Row, error)].
    The closure writes into the destination [value]; the model returns the
    destination as the closure leaves it, with the rest of the row and the
    error.  [None] is a panic of the reflection library, or a loop that does
    not end. *)
Definition reconstructFunc :=
  govalue -> levels.t -> Row -> option (govalue * Row * option error).

Section Reconstruct.
(** The recursive calls of [reconstructFuncOf]. *)
Variable reconstructFuncOf : Z -> Node -> compiled reconstructFunc.

Definition reconstructFuncOfOptional (columnIndex : Z) (node : Node)
: compiled reconstructFunc :=
match reconstructFuncOf columnIndex (Required node) with
| Compiled nextColumnIndex reconstruct =>
    let rowLength := nextColumnIndex - columnIndex in
    Compiled nextColumnIndex (fun value levels row =>
      if negb (startsWith row columnIndex) then
        Some (value, row, Some (fmt_Errorf
          "row is missing optional column %d" [columnIndex]))
      else if decide (len row < rowLength) then
        Some (value, row, Some (fmt_Errorf
          "expected optional column %d to have at least %d values but got %d"
          [columnIndex; rowLength; len row]))
      else
        let levels :=
          levels.mk (levels.repetitionDepth levels)
            (levels.repetitionLevel levels)
            (int8 (levels.definitionLevel levels + 1)) in
        first ← idx row 0;
        if decide (definitionLevel first < levels.definitionLevel levels) then
          row ← slice row rowLength (len row);
          Some (Zero (typeOf value), row, None)
        else
          match value with
          | VPtr t target =>
              '(elem, row, err) ← reconstruct (default (Zero t) target)
                                    levels row;
              Some (VPtr t (Some elem), row, err)
          | _ => reconstruct value levels row
          end)
| Panic msg => Panic msg
| NoFuel => NoFuel
end.

(** The [for] loop of the closure of a repeated node; [buffer] is the
  slice that [value] holds, of length [c], and [n] the number of
  elements reconstructed so far. *)
Fixpoint reconstructElements (fuel : nat) (reconstruct : reconstructFunc)
  (columnIndex : Z) (t : gotype) (buffer : list govalue) (n c : Z)
  (levels : levels.t) (row : Row)
: option (govalue * Row * option error) :=
if startsWith row columnIndex &&
   match row with
   | first :: _ =>
       bool_decide (repetitionLevel first = levels.repetitionLevel levels)
   | [] => false
   end
then
  match fuel with
  | O => None
  | S fuel =>
      let '(c, buffer) :=
        if decide (n = c)
        then (c * 2,
              buffer ++ repeat (Zero t) (Z.to_nat (c * 2) - length buffer))
        else (c, buffer) in
      elem ← idx buffer n;
      '(elem, row, err) ← reconstruct elem levels row;
      let buffer := <[Z.to_nat n := elem]> buffer in
      match err with
      | Some e => Some (VSlice t (Some buffer), row, Some e)
      | None =>
          reconstructElements fuel reconstruct columnIndex t buffer
            (n + 1) c
            (levels.mk (levels.repetitionDepth levels)
               (levels.repetitionDepth levels)
               (levels.definitionLevel levels))
            row
      end
  end
else
  Some (VSlice t (Some (if decide (n < c) then take (Z.to_nat n) buffer
                        else buffer)),
        row, None).

Definition reconstructFuncOfRepeated (columnIndex : Z) (node : Node)
: compiled reconstructFunc :=
match reconstructFuncOf columnIndex (Required node) with
| Compiled nextColumnIndex reconstruct =>
    let rowLength := nextColumnIndex - columnIndex in
    Compiled nextColumnIndex (fun value levels row =>
      if negb (startsWith row columnIndex) then
        Some (value, row, Some (fmt_Errorf
          "row is missing repeated column %d" [columnIndex]))
      else if decide (len row < rowLength) then
        Some (value, row, Some (fmt_Errorf
          "expected repeated column %d to have at least %d values but got %d"
          [columnIndex; rowLength; len row]))
      else
        match value with
        | VSlice t elems =>
            let levels :=
              levels.mk (int8 (levels.repetitionDepth levels + 1))
                (levels.repetitionLevel levels)
                (int8 (levels.definitionLevel levels + 1)) in
            first ← idx row 0;
            if decide (definitionLevel first < levels.definitionLevel levels)
            then
              row ← slice row rowLength (len row);
              Some (VSlice t (Some []), row, None)
            else
              let c := len (default [] elems) in
              let '(c, buffer) :=
                if decide (c > 0) then (c, default [] elems)
                else (10, repeat (Zero t) 10) in
              reconstructElements (S (length row)) reconstruct columnIndex
                t buffer 0 c levels row
        | _ =>
            Some (value, row, Some (fmt_Errorf
              "cannot reconstruct repeated column %d into go value of type %s"
              [columnIndex]))
        end)
| Panic msg => Panic msg
| NoFuel => NoFuel
end.

Definition reconstructFuncOfList (columnIndex : Z) (node : Node)
: compiled reconstructFunc :=
reconstructFuncOf columnIndex (Repeated (listElementOf node)).

(** [for i, n := 0, keyValueSlice.Len(); i < n; i++ { elem :=
  keyValueSlice.Index(i); mapValue.SetMapIndex(elem.Field(0), elem.Field(1)) }] *)
Fixpoint setMapEntries (pairs : list govalue)
  (entries : list (govalue * govalue)) : option (list (govalue * govalue)) :=
match pairs with
| [] => Some entries
| elem :: pairs =>
    key ← valueByIndex elem 0;
    value ← valueByIndex elem 1;
    setMapEntries pairs (SetMapIndex entries key value)
end.

(** The type of the slice of key-value structs is read off the destination
  map, with whose key and element types it agrees. *)
Definition reconstructFuncOfMap (columnIndex : Z) (node : Node)
: compiled reconstructFunc :=
match reconstructFuncOf columnIndex (Repeated (mapKeyValueOf node)) with
| Compiled columnIndex reconstruct =>
    Compiled columnIndex (fun mapValue levels row =>
      match mapValue with
      | VMap key elem entries =>
          '(keyValueSlice, row, err) ←
            reconstruct (Zero (TSlice (TStruct [key; elem]))) levels row;
          match err with
          | Some e => Some (mapValue, row, Some e)
          | None =>
              match keyValueSlice with
              | VSlice _ None => Some (Zero (typeOf mapValue), row, None)
              | VSlice _ (Some pairs) =>
                  entries ← setMapEntries pairs (default [] entries);
                  Some (VMap key elem (Some entries), row, None)
              | _ => None
              end
          end
      | _ => None
      end)
| Panic msg => Panic msg
| NoFuel => NoFuel
end.

Fixpoint reconstructFuncOfChildren (columnIndex : Z) (children : list Node)
: compiled (list reconstructFunc) :=
match children with
| [] => Compiled columnIndex []
| child :: children =>
    match reconstructFuncOf columnIndex child with
    | Compiled columnIndex f =>
        match reconstructFuncOfChildren columnIndex children with
        | Compiled columnIndex funcs => Compiled columnIndex (f :: funcs)
        | Panic msg => Panic msg
        | NoFuel => NoFuel
        end
    | Panic msg => Panic msg
    | NoFuel => NoFuel
    end
end.

(** [value.Field(i).Set(field)] *)
Definition setField (value : govalue) (i : nat) (field : govalue) : govalue :=
match value with
| VStruct fields => VStruct (<[i := field]> fields)
| _ => value
end.

(** [for i, f := range funcs { if row, err = f(valueAt(value, i), levels,
  row); err != nil { err = fmt.Errorf("%s → %w", names[i], err); break } }],
  from index [i] on. *)
Fixpoint reconstructFields (funcs : list reconstructFunc) (names : list string)
  (i : nat) (value : govalue) (levels : levels.t) (row : Row)
: option (govalue * Row * option error) :=
match funcs with
| [] => Some (value, row, None)
| f :: funcs =>
    field ← valueByIndex value i;
    '(field, row, err) ← f field levels row;
    let value := setField value i field in
    match err with
    | Some e =>
        name ← names !! i;
        Some (value, row, Some (fmt_Errorf_wrap name e))
    | None => reconstructFields funcs names (S i) value levels row
    end
end.

Definition reconstructFuncOfGroup (columnIndex : Z) (node : Node)
: compiled reconstructFunc :=
match reconstructFuncOfChildren columnIndex (Children node) with
| Compiled columnIndex funcs =>
    Compiled columnIndex (fun value levels row =>
      reconstructFields funcs (ChildNames node) 0 value levels row)
| Panic msg => Panic msg
| NoFuel => NoFuel
end.

Definition reconstructFuncOfLeaf (columnIndex : Z) (node : Node)
: compiled reconstructFunc :=
Compiled (columnIndex + 1) (fun value _ row =>
  match row with
  | [] =>
      Some (value, row, Some (fmt_Errorf
        "expected one value to reconstruct leaf parquet row for column %d but found %d"
        [columnIndex; len row]))
  | first :: rest =>
      if decide (ColumnIndex first <> columnIndex) then
        Some (value, row, Some (fmt_Errorf
          "no values found in parquet row for column %d" [columnIndex]))
      else
        let '(value, err) := assignValue value first in
        Some (value, rest, err)
  end).

Definition reconstructFuncOfRequired (columnIndex : Z) (node : Node)
: compiled reconstructFunc :=
if isLeaf node then reconstructFuncOfLeaf columnIndex node
else reconstructFuncOfGroup columnIndex node.

(** The body of [reconstructFuncOf]. *)
Definition reconstructFuncOfBody (columnIndex : Z) (node : Node)
: compiled reconstructFunc :=
if Node_Optional node then reconstructFuncOfOptional columnIndex node
else if Node_Repeated node then reconstructFuncOfRepeated columnIndex node
else if isList node then reconstructFuncOfList columnIndex node
else if isMap node then reconstructFuncOfMap columnIndex node
else reconstructFuncOfRequired columnIndex node.
End Reconstruct.

Fixpoint reconstructFuncOfFuel (fuel : nat) (columnIndex : Z) (node : Node)
  : compiled reconstructFunc :=
  match fuel with
  | O => NoFuel
  | S fuel => reconstructFuncOfBody (reconstructFuncOfFuel fuel) columnIndex node
  end.


(** The depth of the recursion of the two compilers on a node: one call for
    the node, one more when it is optional or repeated, and the calls for
    what it holds. *)
Definition fuelOfRepetition (rep : repetition) : nat :=
  match rep with IsRequired => 0 | _ => 1 end.

Fixpoint fuelRequired (node : Node) : nat :=
  match node with
  | Leaf _ _ => 1
  | Group _ children =>
      1 + foldr (fun child m =>
                   Nat.max (fuelRequired child.2
                            + fuelOfRepetition (repetitionOf child.2)) m)
            0%nat children
  | ListOf _ element => 2 + fuelRequired element
  | MapOf _ key value =>
      3 + Nat.max (fuelRequired key + fuelOfRepetition (repetitionOf key))
            (Nat.max (fuelRequired value
                      + fuelOfRepetition (repetitionOf value)) 0)
  end.

Definition fuelOf (node : Node) : nat :=
  fuelRequired node + fuelOfRepetition (repetitionOf node).

Definition deconstructFuncOf (columnIndex : Z) (node : Node)
  : compiled deconstructFunc :=
  deconstructFuncOfFuel (fuelOf node) columnIndex node.

Definition reconstructFuncOf (columnIndex : Z) (node : Node)
  : compiled reconstructFunc :=
  reconstructFuncOfFuel (fuelOf node) columnIndex node.

(** *** Schemas and records of their shape *)

(** The number of leaf columns of a node. *)
Fixpoint leafCount (node : Node) : Z :=
  match node with
  | Leaf _ _ => 1
  | Group _ children =>
      foldr (fun child n => leafCount child.2 + n) 0 children
  | ListOf _ element => leafCount element
  | MapOf _ key value => leafCount key + leafCount value
  end.

Definition levelOf (rep : repetition) : Z :=
  match rep with IsRequired => 0 | _ => 1 end.

(** The largest number of optional and repeated levels (lists and maps are
    repeated) on a path below the node, the node's own repetition set
    aside. *)
Fixpoint levelsBelow (node : Node) : Z :=
  match node with
  | Leaf _ _ => 0
  | Group _ children =>
      foldr (fun child m =>
               Z.max (levelOf (repetitionOf child.2) + levelsBelow child.2) m)
        0 children
  | ListOf _ element => 1 + levelsBelow element
  | MapOf _ key value =>
      1 + Z.max (levelOf (repetitionOf key) + levelsBelow key)
            (Z.max (levelOf (repetitionOf value) + levelsBelow value) 0)
  end.

(** The largest definition level of a leaf of the node. *)
Definition maxLevels (node : Node) : Z :=
  levelOf (repetitionOf node) + levelsBelow node.

(** Every group of the node has a child. *)
Fixpoint groupsNonEmpty (node : Node) : bool :=
  match node with
  | Leaf _ _ => true
  | Group _ children =>
      match children with [] => false | _ => true end &&
      forallb (fun child => groupsNonEmpty child.2) children
  | ListOf _ element => groupsNonEmpty element
  | MapOf _ key value => groupsNonEmpty key && groupsNonEmpty value
  end.

(** An optional or repeated node needs a leaf column: the closure that the
    reconstructor compiles for it tests that the row starts with a value
    of the first column of the node. *)
Definition wrappedHasColumn (rep : repetition) (count : Z) : bool :=
  match rep with IsRequired => true | _ => bool_decide (1 <= count) end.

(** Every optional or repeated node below the node, the element of every
    list and the key-value pair of every map have a leaf column; a required
    group may be empty.  The node's own repetition is set aside. *)
Fixpoint columnsBelow (node : Node) : bool :=
  match node with
  | Leaf _ _ => true
  | Group _ children =>
      forallb (fun child =>
                 wrappedHasColumn (repetitionOf child.2) (leafCount child.2)
                 && columnsBelow child.2)
        children
  | ListOf _ element =>
      bool_decide (1 <= leafCount element) && columnsBelow element
  | MapOf _ key value =>
      bool_decide (1 <= leafCount key + leafCount value) &&
      (wrappedHasColumn (repetitionOf key) (leafCount key)
       && columnsBelow key) &&
      (wrappedHasColumn (repetitionOf value) (leafCount value)
       && columnsBelow value)
  end.

(** Every optional or repeated node of the schema, the node itself
    included, has a leaf column. *)
Definition levelsHaveColumns (node : Node) : bool :=
  wrappedHasColumn (repetitionOf node) (leafCount node) && columnsBelow node.

(** [shaped node v]: the Go value [v] is a record of the shape of [node].
    The value of an optional node is a zero value (a null), a pointer to a
    value of the required node, or such a value itself when it is not zero;
    the value of a repeated node (of a list, of a map) is a slice (a map)
    that is not nil, whose elements have the element type of the slice.
    The keys of a map are distinct. *)
Inductive shaped : Node -> govalue -> Prop :=
| shaped_leaf kind p :
    kindOf p = kind ->
    shaped (Leaf IsRequired kind) (VPrim p)
| shaped_group children fields :
    Forall2 (fun child field => shaped child.2 field) children fields ->
    shaped (Group IsRequired children) (VStruct fields)
| shaped_list element v :
    shaped (Repeated element) v ->
    shaped (ListOf IsRequired element) v
| shaped_map key value kt et entries :
    NoDup entries.*1 ->
    shaped (Repeated (mapKeyValueOf (MapOf IsRequired key value)))
      (keyValueSlice kt et entries) ->
    shaped (MapOf IsRequired key value) (VMap kt et (Some entries))
| shaped_repeated node t elems :
    repetitionOf node = IsRepeated ->
    Forall (shaped (Required node)) elems ->
    Forall (fun elem => typeOf elem = t) elems ->
    shaped node (VSlice t (Some elems))
| shaped_optional_null node v :
    repetitionOf node = IsOptional ->
    IsZero v = true ->
    shaped node v
| shaped_optional_pointer node v :
    repetitionOf node = IsOptional ->
    shaped (Required node) v ->
    shaped node (VPtr (typeOf v) (Some v))
| shaped_optional_value node v :
    repetitionOf node = IsOptional ->
    IsZero v = false ->
    shaped (Required node) v ->
    shaped node v.

(** The values that the closures of [count] leaves from [columnIndex] on
    emit for an absent subtree. *)
Definition nullRow (columnIndex count : Z) (levels : levels.t) : Row :=
  map (fun c => mkValue None (levels.repetitionLevel levels)
                  (levels.definitionLevel levels) (int8 (Z.lnot c)))
    (seqZ columnIndex count).


(** *** What the compiled closures are shown to do *)

(** The levels leave room for the levels of the node below the bound of
    [int8]. *)
Definition levelsFit (levels : levels.t) (node : Node) : Prop :=
  0 <= levels.repetitionDepth levels /\
  levels.repetitionDepth levels + maxLevels node <= 127 /\
  0 <= levels.definitionLevel levels /\
  levels.definitionLevel levels + maxLevels node <= 127.

(** What follows the values of a subtree in a row: nothing, a value of a
    column outside of the subtree, or the first value of a new element of a
    repetition that encloses the subtree. *)
Definition stopsAt (columnIndex nextColumnIndex repetitionDepth : Z)
    (rest : Row) : Prop :=
  match rest with
  | [] => True
  | v :: _ =>
      ~ (columnIndex <= ColumnIndex v < nextColumnIndex) \/
      repetitionLevel v <= repetitionDepth
  end.

(** The values of a subtree start with a value of its first column, at the
    repetition level it was given and at no lower definition level. *)
Definition startsAt (columnIndex : Z) (levels : levels.t) (vs : Row) : Prop :=
  match vs with
  | [] => False
  | v :: _ =>
      ColumnIndex v = columnIndex /\
      repetitionLevel v = levels.repetitionLevel levels /\
      levels.definitionLevel levels <= definitionLevel v
  end.

(** On an absent value the deconstructor emits one null per leaf. *)
Definition emitsNulls (columnIndex count : Z) (deconstruct : deconstructFunc)
  : Prop :=
  forall row levels,
    deconstruct row levels None
    = Some (row ++ nullRow columnIndex count levels).

(** The reconstructor undoes the deconstructor on the records of the shape
    of the node: the deconstructor appends to any row the values [vs] of the
    record, values of the columns of the node and at least one per leaf,
    and from a row that starts with [vs] the reconstructor rebuilds the
    record in a zero destination and returns what follows [vs].  A node
    without columns has no values. *)
Definition roundTrips (node : Node) (columnIndex nextColumnIndex : Z)
    (deconstruct : deconstructFunc) (reconstruct : reconstructFunc) : Prop :=
  forall levels v,
    shaped node v ->
    levelsFit levels node ->
    exists vs,
      (forall row, deconstruct row levels (Some v) = Some (row ++ vs)) /\
      (columnIndex < nextColumnIndex -> startsAt columnIndex levels vs) /\
      Forall (fun x => columnIndex <= ColumnIndex x < nextColumnIndex) vs /\
      nextColumnIndex - columnIndex <= len vs /\
      (forall rest,
         stopsAt columnIndex nextColumnIndex (levels.repetitionDepth levels)
           rest ->
         reconstruct (Zero (typeOf v)) levels (vs ++ rest)
         = Some (v, rest, None)).

(** The message of the panic of [deconstructFuncOfLeaf]. *)
Definition tooManyColumns : string :=
  "row cannot be deconstructed because it has more than 127 columns".

(** What compiling the deconstructor of [count] leaves from the column index
    [ci] on yields: closures that emit the nulls of these leaves when the
    last index is at most 127, and the panic otherwise. *)
Definition deconstructCompiles (ci count : Z) (r : compiled deconstructFunc)
  : Prop :=
  (ci + count <= 128 ->
   exists d, r = Compiled (ci + count) d /\ emitsNulls ci count d) /\
  (ci + count > 128 -> r = Panic tooManyColumns).


(** *** The loop of a repeated node, as the spec words it

    "Repeatedly invoke the child closure while the row still starts at this
    column and the next value's repetition level equals the current"
    repetition level of [levels]; "after each iteration set
    [levels.repetitionLevel = repetitionDepth]"; "finally trim to length
    actually filled".  The working buffer is left out: [done] are the
    elements reconstructed so far and [pending] the elements that the
    destination held and that have not been written yet; beyond them an
    element is reconstructed into a zero value.  After an error of the child
    the destination is not specified. *)
Definition continues (row : Row) (columnIndex : Z) (levels : levels.t) : bool :=
  match row with
  | [] => false
  | first :: _ =>
      bool_decide (ColumnIndex first = columnIndex) &&
      bool_decide (repetitionLevel first = levels.repetitionLevel levels)
  end.

Inductive repeats (reconstruct : reconstructFunc) (columnIndex : Z) (t : gotype)
  : list govalue -> list govalue -> levels.t -> Row ->
    govalue * Row * option error -> Prop :=
| repeats_done done pending levels row :
    continues row columnIndex levels = false ->
    repeats reconstruct columnIndex t done pending levels row
      (VSlice t (Some done), row, None)
| repeats_error done pending levels row elem row' e value :
    continues row columnIndex levels = true ->
    reconstruct (hd (Zero t) pending) levels row = Some (elem, row', Some e) ->
    repeats reconstruct columnIndex t done pending levels row
      (value, row', Some e)
| repeats_more done pending levels row elem row' result :
    continues row columnIndex levels = true ->
    reconstruct (hd (Zero t) pending) levels row = Some (elem, row', None) ->
    repeats reconstruct columnIndex t (done ++ [elem]) (tail pending)
      (levels.mk (levels.repetitionDepth levels)
         (levels.repetitionDepth levels)
         (levels.definitionLevel levels))
      row' result ->
    repeats reconstruct columnIndex t done pending levels row result.

(** A successful call of the closure consumes at least one value. *)
Definition consumes (reconstruct : reconstructFunc) : Prop :=
  forall value levels row value' row',
    reconstruct value levels row = Some (value', row', None) ->
    (length row' < length row)%nat.

(** *** What every compiled closure is shown to do *)

(** The closures that a compiler returns for the children of a group, each
    with the node it was compiled for and the column indices between which
    it was compiled. *)
Inductive closures {F : Type} (Q : Node -> Z -> Z -> F -> Prop)
  : list Node -> Z -> list F -> Z -> Prop :=
| closures_nil columnIndex : closures Q [] columnIndex [] columnIndex
| closures_cons child children columnIndex nextColumnIndex lastColumnIndex
    f funcs :
    Q child columnIndex nextColumnIndex f ->
    closures Q children nextColumnIndex funcs lastColumnIndex ->
    closures Q (child :: children) columnIndex (f :: funcs) lastColumnIndex.

(** The first value of the row, if there is one, is at the repetition level
    of [levels]. *)
Definition headAt (levels : levels.t) (row : Row) : Prop :=
  match row with
  | [] => True
  | first :: _ => repetitionLevel first = levels.repetitionLevel levels
  end.

(** The row that a reconstructor returns is what is left of the row that it
    was given. *)
Definition returnsSuffix (reconstruct : reconstructFunc) : Prop :=
  forall value levels row value' row' err,
    reconstruct value levels row = Some (value', row', err) ->
    exists consumed, row = consumed ++ row'.

(** A reconstructor that succeeds on a row whose first value is at the
    repetition level of [levels] has consumed a value. *)
Definition progresses (reconstruct : reconstructFunc) : Prop :=
  forall value levels row value' row',
    reconstruct value levels row = Some (value', row', None) ->
    headAt levels row ->
    (length row' < length row)%nat.

(** What is shown of the closure of a node compiled between the two column
    indices: it returns what is left of its row, and when every group of the
    node has a child it was given a column and consumes a value where it
    succeeds. *)
Definition consumesWithin (node : Node)
    (columnIndex nextColumnIndex : Z) (reconstruct : reconstructFunc) : Prop :=
  returnsSuffix reconstruct /\
  (groupsNonEmpty node = true ->
   columnIndex < nextColumnIndex /\ progresses reconstruct).

(** The values [vs] are values of the columns from [columnIndex] up to
    [nextColumnIndex], and every one of these columns has a value among
    them. *)
Definition coversColumns (columnIndex nextColumnIndex : Z) (vs : Row) : Prop :=
  Forall (fun v => columnIndex <= ColumnIndex v < nextColumnIndex) vs /\
  forall c, columnIndex <= c < nextColumnIndex ->
    exists v, v ∈ vs /\ ColumnIndex v = c.

(** What a call of the deconstructor does to its row: it appends values that
    do not depend on the row. *)
Definition appends (deconstruct : deconstructFunc) (levels : levels.t)
    (value : reflectValue) (vs : Row) : Prop :=
  forall row, deconstruct row levels value = Some (row ++ vs).

(** What is shown of the closure of a node compiled between the two column
    indices. *)
Definition appendsWithin (node : Node) (columnIndex nextColumnIndex : Z)
    (deconstruct : deconstructFunc) : Prop :=
  (0 <= columnIndex -> columnIndex <= nextColumnIndex) /\
  forall row levels value row',
    deconstruct row levels value = Some row' ->
    exists vs,
      appends deconstruct levels value vs /\
      (0 <= columnIndex -> coversColumns columnIndex nextColumnIndex vs).

(** The schema has no map: the closure of a map visits the keys in the order
    in which [MapKeys] returns them, which is not specified, so what it
    appends is not determined by the value alone. *)
Fixpoint mapFree (node : Node) : bool :=
  match node with
  | Leaf _ _ => true
  | Group _ children => forallb (fun child => mapFree child.2) children
  | ListOf _ element => mapFree element
  | MapOf _ _ _ => false
  end.

(** The repetition level that a node adds to the levels of what it holds. *)
Definition repeatedLevelOf (rep : repetition) : Z :=
  match rep with IsRepeated => 1 | _ => 0 end.

(** The largest number of repeated levels (lists and maps are repeated) on a
    path below the node, the node's own repetition set aside. *)
Fixpoint repetitionsBelow (node : Node) : Z :=
  match node with
  | Leaf _ _ => 0
  | Group _ children =>
      foldr (fun child m =>
               Z.max (repeatedLevelOf (repetitionOf child.2)
                      + repetitionsBelow child.2) m)
        0 children
  | ListOf _ element => 1 + repetitionsBelow element
  | MapOf _ key value =>
      1 + Z.max (repeatedLevelOf (repetitionOf key) + repetitionsBelow key)
            (Z.max (repeatedLevelOf (repetitionOf value)
                    + repetitionsBelow value) 0)
  end.

(** The largest repetition level of a leaf of the node. *)
Definition maxRepetitions (node : Node) : Z :=
  repeatedLevelOf (repetitionOf node) + repetitionsBelow node.

(** The levels of a value emitted at [levels] by the closure of a node with
    at most [maxDefinition] optional and repeated levels and [maxRepetition]
    repeated levels: the definition level is one of the first and no lower
    than that of [levels], and the repetition level is that of [levels] or
    one of the repetition depths of the node. *)
Definition levelsWithin (levels : levels.t) (maxDefinition maxRepetition : Z)
    (v : Value) : Prop :=
  (levels.definitionLevel levels <= definitionLevel v
   <= levels.definitionLevel levels + maxDefinition) /\
  (repetitionLevel v = levels.repetitionLevel levels \/
   levels.repetitionDepth levels < repetitionLevel v
   <= levels.repetitionDepth levels + maxRepetition).

(** What is shown of the levels of the values that the closure of a node
    appends. *)
Definition boundsLevels (node : Node) (columnIndex nextColumnIndex : Z)
    (deconstruct : deconstructFunc) : Prop :=
  appendsWithin node columnIndex nextColumnIndex deconstruct /\
  forall row levels value vs,
    levelsFit levels node ->
    deconstruct row levels value = Some (row ++ vs) ->
    Forall (levelsWithin levels (maxLevels node) (maxRepetitions node)) vs.

(* ===================================================================== *)
(** * Properties of the column buffers *)
(* ===================================================================== *)

Section SliceFacts.
Context {A : Type}.
Implicit Types (s : list A) (i j : Z).

Lemma len_nonneg s : 0 <= len s.
Proof. unfold len. lia. Qed.

Lemma len_app s1 s2 : len (s1 ++ s2) = len s1 + len s2.
Proof. unfold len. rewrite length_app. lia. Qed.

Lemma idx_Some s i :
0 <= i < len s -> exists x, idx s i = Some x.
Proof.
intros [Hi Hlt]. unfold idx. rewrite decide_True by done.
apply lookup_lt_is_Some_2. unfold len in Hlt. lia.
Qed.

Lemma idx_inv s i x : idx s i = Some x -> 0 <= i < len s.
Proof.
unfold idx. case_decide; [|done]. intros Hl%lookup_lt_Some.
unfold len. lia.
Qed.

Lemma slice_prefix s1 s2 : slice (s1 ++ s2) 0 (len s1) = Some s1.
Proof.
unfold slice. pose proof (len_nonneg s1). pose proof (len_nonneg s2).
rewrite decide_True by (rewrite len_app; lia).
rewrite Z.sub_0_r. unfold len. rewrite Nat2Z.id.
change (Z.to_nat 0) with 0%nat. rewrite drop_0.
by rewrite take_app_length.
Qed.

Lemma slice_all s : slice s 0 (len s) = Some s.
Proof.
rewrite <- (app_nil_r s) at 1. apply slice_prefix.
Qed.

Lemma swap_length s i j s' : swap s i j = Some s' -> len s' = len s.
Proof.
unfold swap. destruct (idx s i); simpl; [|done].
destruct (idx s j); simpl; [|done].
intros [= <-]. unfold len. by rewrite !length_insert.
Qed.

Lemma idx_lookup s i x : idx s i = Some x -> s !! Z.to_nat i = Some x.
Proof. unfold idx. by case_decide. Qed.

Lemma swap_Permutation s i j s' : swap s i j = Some s' -> s' ≡ₚ s.
Proof.
unfold swap.
destruct (idx s i) as [x|] eqn:Hx; simpl; [|done].
destruct (idx s j) as [y|] eqn:Hy; simpl; [|done].
apply idx_lookup in Hx, Hy.
intros [= <-]. by apply Permutation_insert_swap.
Qed.
End SliceFacts.

Section SwapFacts.
Context {A : Type}.
Implicit Types (s : list A) (i j k : Z).

Lemma swap_Some s i j :
0 <= i < len s -> 0 <= j < len s -> exists s', swap s i j = Some s'.
Proof.
intros [x Hx]%idx_Some [y Hy]%idx_Some. unfold swap.
rewrite Hx, Hy. simpl. eauto.
Qed.

Lemma swap_idx_other s i j s' k :
swap s i j = Some s' -> k <> i -> k <> j -> idx s' k = idx s k.
Proof.
unfold swap.
destruct (idx s i) as [x|] eqn:Hx; simpl; [|done].
destruct (idx s j) as [y|] eqn:Hy; simpl; [|done].
apply idx_inv in Hx, Hy. intros [= <-] Hki Hkj.
unfold idx. case_decide; [|done].
rewrite !list_lookup_insert_ne by lia. done.
Qed.

Lemma swap_idx_r s i j s' : swap s i j = Some s' -> idx s' j = idx s i.
Proof.
unfold swap.
destruct (idx s i) as [x|] eqn:Hx; simpl; [|done].
destruct (idx s j) as [y|] eqn:Hy; simpl; [|done].
pose proof (idx_inv _ _ _ Hy) as Hj. intros [= <-].
unfold idx. rewrite decide_True by lia.
rewrite list_lookup_insert_eq; [done|].
rewrite length_insert. unfold len in Hj. lia.
Qed.

Lemma swap_idx_l s i j s' : swap s i j = Some s' -> idx s' i = idx s j.
Proof.
intros Hs. destruct (decide (i = j)) as [->|Hne].
{ by apply swap_idx_r. }
revert Hs. unfold swap.
destruct (idx s i) as [x|] eqn:Hx; simpl; [|done].
destruct (idx s j) as [y|] eqn:Hy; simpl; [|done].
pose proof (idx_inv _ _ _ Hx) as Hi.
pose proof (idx_inv _ _ _ Hy) as Hj. intros [= <-].
unfold idx. rewrite decide_True by lia.
rewrite list_lookup_insert_ne by lia.
rewrite list_lookup_insert_eq; [done|]. unfold len in Hi. lia.
Qed.
End SwapFacts.

(** C7: for valid indices [i] and [j], [Swap] on a repeated column exchanges
    the two region entries [rows[i]] and [rows[j]] and nothing else: the
    repetition levels, the definition levels, the base column and the
    remaining fields are unchanged, and so is every other region entry. *)
Theorem repeatedBufferColumn_Swap_only_regions
    {B : Type} (col : repeated.t B) (i j : Z) :
  0 <= i < len (repeated.rows col) ->
  0 <= j < len (repeated.rows col) ->
  exists col',
    repeatedBufferColumn_Swap col i j = Some col' /\
    repeated.repetitionLevels col' = repeated.repetitionLevels col /\
    repeated.definitionLevels col' = repeated.definitionLevels col /\
    repeated.base col' = repeated.base col /\
    repeated.maxRepetitionLevel col' = repeated.maxRepetitionLevel col /\
    repeated.maxDefinitionLevel col' = repeated.maxDefinitionLevel col /\
    repeated.buffer col' = repeated.buffer col /\
    repeated.reordering col' = repeated.reordering col /\
    repeated.ordering col' = repeated.ordering col /\
    len (repeated.rows col') = len (repeated.rows col) /\
    idx (repeated.rows col') i = idx (repeated.rows col) j /\
    idx (repeated.rows col') j = idx (repeated.rows col) i /\
    forall k, k <> i -> k <> j ->
      idx (repeated.rows col') k = idx (repeated.rows col) k.
Proof.
  intros Hi Hj.
  destruct (swap_Some (repeated.rows col) i j Hi Hj) as [rows' Hs].
  unfold repeatedBufferColumn_Swap. rewrite Hs. simpl.
  eexists. split; [reflexivity|]. simpl.
  repeat split.
  - by eapply swap_length.
  - by eapply swap_idx_l.
  - by eapply swap_idx_r.
  - intros k Hki Hkj. by eapply swap_idx_other.
Qed.

Lemma repeatedBufferColumn_Swap_only_regions_witness :
  let col := repeated.mk (ColInt32 [10; 20; 30]) 1 1
               [region.mk 0 2; region.mk 2 1] [0; 1; 0] [1; 1; 1] [] None
               nullsGoFirst in
  exists col',
    repeatedBufferColumn_Swap col 0 1 = Some col' /\
    repeated.repetitionLevels col' = [0; 1; 0] /\
    repeated.definitionLevels col' = [1; 1; 1] /\
    repeated.base col' = ColInt32 [10; 20; 30] /\
    repeated.maxRepetitionLevel col' = 1 /\
    repeated.maxDefinitionLevel col' = 1 /\
    repeated.buffer col' = [] /\
    repeated.reordering col' = None /\
    repeated.ordering col' = nullsGoFirst /\
    len (repeated.rows col') = 2 /\
    idx (repeated.rows col') 0 = Some (region.mk 2 1) /\
    idx (repeated.rows col') 1 = Some (region.mk 0 2) /\
    forall k, k <> 0 -> k <> 1 ->
      idx (repeated.rows col') k = idx (repeated.rows col) k.
Proof.
  intros col.
  apply (repeatedBufferColumn_Swap_only_regions col 0 1);
    unfold len; simpl; lia.
Defined.

(** *** The level invariant (C8) *)

Lemma foldl_append {A C} (f : C -> A) (row : list C) (s : list A) :
  foldl (fun s v => s ++ [f v]) s row = s ++ map f row.
Proof.
  revert s. induction row as [|v row IH]; intros s; simpl.
  - by rewrite app_nil_r.
  - rewrite IH. by rewrite <- app_assoc.
Qed.

Lemma foldl_levels (row : Row) (rl dl : list Z) :
  foldl (fun '(rl, dl) v => (rl ++ [RepetitionLevel v], dl ++ [DefinitionLevel v]))
    (rl, dl) row
  = (rl ++ map RepetitionLevel row, dl ++ map DefinitionLevel row).
Proof.
  revert rl dl. induction row as [|v row IH]; intros rl dl; simpl.
  - by rewrite !app_nil_r.
  - rewrite IH. by rewrite <- !app_assoc.
Qed.

Lemma sumLengths_app rows1 rows2 :
  sumLengths (rows1 ++ rows2) = sumLengths rows1 + sumLengths rows2.
Proof.
  unfold sumLengths. induction rows1 as [|r rows1 IH]; simpl; [done|].
  rewrite IH. lia.
Qed.

Lemma sumLengths_Permutation rows1 rows2 :
  rows1 ≡ₚ rows2 -> sumLengths rows1 = sumLengths rows2.
Proof.
  unfold sumLengths. induction 1; simpl; lia.
Qed.

Lemma len_map {A C} (f : A -> C) (s : list A) : len (map f s) = len s.
Proof. unfold len. by rewrite length_map. Qed.

Section RepeatedInvariant.
Context {B : Type}.
Variable base_WriteRow : B -> Row -> B * option error.
Variable base_Reset : B -> B.
Variable base_Clone : B -> B.

Lemma repeatedInvariant_new (base : B) maxR maxD ordering :
repeatedInvariant (newRepeatedBufferColumn base maxR maxD ordering).
Proof. by split. Qed.

Lemma repeatedInvariant_WriteRow (col : repeated.t B) row :
len row < 2 ^ 32 ->
repeatedInvariant col ->
repeatedInvariant (repeatedBufferColumn_WriteRow base_WriteRow col row).1.
Proof.
intros Hlen [Hsum Hlevels]. unfold repeatedBufferColumn_WriteRow.
destruct (base_WriteRow (repeated.base col) row) as [base [e|]].
{ by split. }
rewrite foldl_levels. split; simpl.
- rewrite sumLengths_app, len_app, len_map, Hsum.
  unfold sumLengths; simpl. unfold uint32.
  pose proof (len_nonneg row). rewrite (Z.mod_small (len row)); lia.
- rewrite !len_app, !len_map. lia.
Qed.

Lemma repeatedInvariant_Swap (col : repeated.t B) i j col' :
repeatedBufferColumn_Swap col i j = Some col' ->
repeatedInvariant col -> repeatedInvariant col'.
Proof.
unfold repeatedBufferColumn_Swap.
destruct (swap (repeated.rows col) i j) as [rows|] eqn:Hs; simpl; [|done].
intros [= <-] [Hsum Hlevels]. split; simpl; [|done].
rewrite <- Hsum. apply sumLengths_Permutation.
by eapply swap_Permutation.
Qed.

Lemma repeatedInvariant_Reset (col : repeated.t B) :
repeatedInvariant (repeatedBufferColumn_Reset base_Reset col).
Proof. by split. Qed.

Lemma repeatedInvariant_Clone (col : repeated.t B) :
repeatedInvariant col ->
repeatedInvariant (repeatedBufferColumn_Clone base_Clone col).
Proof. by intros [? ?]. Qed.
End RepeatedInvariant.

(** C8 (as amended): the invariant [sum(region.length) ==
    len(repetitionLevels) == len(definitionLevels)] of a repeated column
    holds after construction, is preserved by [Swap], by [Reset] and by every
    [WriteRow] of a row of fewer than [2^32] values (a region stores the
    length of its row as a [uint32]), and holds of the copy made by [Clone]
    whenever it holds of the original. *)
Theorem repeatedBufferColumn_invariant {B : Type}
    (base_WriteRow : B -> Row -> B * option error)
    (base_Reset base_Clone : B -> B) :
  (forall (base : B) maxR maxD ordering,
     repeatedInvariant (newRepeatedBufferColumn base maxR maxD ordering)) /\
  (forall (col : repeated.t B) row,
     len row < 2 ^ 32 -> repeatedInvariant col ->
     repeatedInvariant (repeatedBufferColumn_WriteRow base_WriteRow col row).1) /\
  (forall (col : repeated.t B) i j col',
     repeatedBufferColumn_Swap col i j = Some col' ->
     repeatedInvariant col -> repeatedInvariant col') /\
  (forall col : repeated.t B,
     repeatedInvariant (repeatedBufferColumn_Reset base_Reset col)) /\
  (forall col : repeated.t B,
     repeatedInvariant col ->
     repeatedInvariant (repeatedBufferColumn_Clone base_Clone col)).
Proof.
  split; [apply repeatedInvariant_new|].
  split; [apply repeatedInvariant_WriteRow|].
  split; [apply repeatedInvariant_Swap|].
  split; [apply repeatedInvariant_Reset|apply repeatedInvariant_Clone].
Qed.

Lemma repeatedBufferColumn_invariant_witness :
  let col := newRepeatedBufferColumn (ColInt32 []) 1 1 nullsGoFirst in
  let row := [mkValue (Some (PInt32 10)) 0 1 (-1); mkValue (Some (PInt32 20)) 1 1 (-1)] in
  repeatedInvariant col /\
  repeatedInvariant (repeatedBufferColumn_WriteRow WriteRow col row).1.
Proof.
  intros col row.
  pose proof (repeatedBufferColumn_invariant WriteRow id id) as (Hnew & Hwrite & _).
  split; [apply Hnew|].
  apply Hwrite; [unfold len; simpl; lia|apply Hnew].
Defined.

(** A row of [2^32] values: its length does not fit the [uint32] field of a
    region. *)
Lemma widest_row_length :
  len (repeat Value_zero (Z.to_nat (2 ^ 32))) = 2 ^ 32.
Proof.
  unfold len. rewrite repeat_length. apply Z2Nat.id. lia.
Qed.

(** C8 (as stated) fails: writing a row of [2^32] values to a new repeated
    column records a region of length [uint32(2^32) = 0] and appends [2^32]
    levels, so the sum of the region lengths is no longer the number of
    levels. *)
Lemma repeatedBufferColumn_invariant_counterexample :
  let col := newRepeatedBufferColumn (ColInt32 []) 1 1 nullsGoFirst in
  let row := repeat Value_zero (Z.to_nat (2 ^ 32)) in
  repeatedInvariant col /\
  ~ repeatedInvariant (repeatedBufferColumn_WriteRow WriteRow col row).1.
Proof.
  intros col row. split; [by split|].
  unfold repeatedBufferColumn_WriteRow.
  change (WriteRow (repeated.base col) row)
    with (lift ColInt32 (int32BufferColumn_WriteRow [] row)).
  unfold int32BufferColumn_WriteRow, flat_WriteRow, lift. cbv beta iota zeta.
  change (repeated.repetitionLevels col) with (@nil Z).
  change (repeated.definitionLevels col) with (@nil Z).
  rewrite foldl_levels. intros [Hsum _]. revert Hsum.
  cbn [fst snd repeated.rows repeated.repetitionLevels].
  rewrite sumLengths_app, app_nil_l, len_map.
  unfold row. rewrite widest_row_length.
  unfold sumLengths, repeatedBufferColumn_row; cbn [foldr region.length].
  change (repeated.rows col) with (@nil region.t). cbn [foldr].
  unfold uint32. rewrite Z.mod_same by lia. lia.
Qed.

(** *** Induction over the implementations of [BufferColumn]

    The optional and repeated columns hold their base inside a record, so
    the induction hypothesis for the base is stated by hand. *)
Section BufferColumnInduction.
Variable P : BufferColumn -> Prop.
Hypothesis Hboolean : forall c, P (ColBoolean c).
Hypothesis Hint32 : forall c, P (ColInt32 c).
Hypothesis Hint64 : forall c, P (ColInt64 c).
Hypothesis Hint96 : forall c, P (ColInt96 c).
Hypothesis Hfloat : forall c, P (ColFloat c).
Hypothesis Hdouble : forall c, P (ColDouble c).
Hypothesis HbyteArray : forall c, P (ColByteArray c).
Hypothesis HfixedLen : forall c, P (ColFixedLenByteArray c).
Hypothesis Huint32 : forall c, P (ColUint32 c).
Hypothesis Huint64 : forall c, P (ColUint64 c).
Hypothesis Hreversed : forall c, P c -> P (ColReversed c).
Hypothesis Hoptional : forall c, P (optional.base c) -> P (ColOptional c).
Hypothesis Hrepeated : forall c, P (repeated.base c) -> P (ColRepeated c).

Lemma BufferColumn_base_ind : forall col, P col.
Proof.
fix IH 1. intros [c|c|c|c|c|c|c|c|c|c|c|c|c].
- apply Hboolean.
- apply Hint32.
- apply Hint64.
- apply Hint96.
- apply Hfloat.
- apply Hdouble.
- apply HbyteArray.
- apply HfixedLen.
- apply Huint32.
- apply Huint64.
- apply Hreversed, IH.
- apply Hoptional. destruct c as [base ? ? ?]. apply IH.
- apply Hrepeated. destruct c as [base ? ? ? ? ? ? ? ?]. apply IH.
Qed.
End BufferColumnInduction.

(** *** The error of [WriteRow] (C10) *)

Lemma flat_WriteRow_nil {A} (get : Value -> A) (values : list A) (row : Row) :
  (flat_WriteRow get values row).2 = None.
Proof. reflexivity. Qed.

Lemma WriteRow_nil (col : BufferColumn) (row : Row) : (WriteRow col row).2 = None.
Proof.
  induction col as [c|c|c|c|c|c|c|c|c|c|c IH|c IH|c IH]
    using BufferColumn_base_ind; simpl; try reflexivity.
  - exact IH.
  - unfold optionalBufferColumn_WriteRow.
    destruct (WriteRow (optional.base c) row) as [base err].
    simpl in IH. by subst err.
  - unfold repeatedBufferColumn_WriteRow.
    destruct (WriteRow (repeated.base c) row) as [base err].
    simpl in IH. subst err. by rewrite foldl_levels.
Qed.

(** C10 (as amended): [WriteRow] returns [nil] for every row on each of the
    flat typed columns (boolean, int32, int64, int96, float, double,
    byteArray, fixedLenByteArray), to which it appends one value per value
    of the row.  The optional and the repeated column, whatever the base
    that they were given, return what [WriteRow] of the base returns: its
    error when it fails, and then their levels and rows are as they were,
    and [nil] when it returns [nil], and then they have appended the levels
    of the row, and the repeated column one region.  So the branch that
    propagates the error of the base is not taken over the columns of
    [buffer_column.go], on which [WriteRow] returns [nil]. *)
Theorem WriteRow_error_of_base :
  ((forall c row,
      booleanBufferColumn_WriteRow c row = (c ++ map Value_Boolean row, None)) /\
   (forall c row,
      int32BufferColumn_WriteRow c row = (c ++ map Value_Int32 row, None)) /\
   (forall c row,
      int64BufferColumn_WriteRow c row = (c ++ map Value_Int64 row, None)) /\
   (forall c row,
      int96BufferColumn_WriteRow c row = (c ++ map Value_Int96 row, None)) /\
   (forall c row,
      floatBufferColumn_WriteRow c row = (c ++ map Value_Float row, None)) /\
   (forall c row,
      doubleBufferColumn_WriteRow c row = (c ++ map Value_Double row, None)) /\
   (forall c row,
      byteArrayBufferColumn_WriteRow c row
      = (c ++ map Value_ByteArray row, None)) /\
   (forall c row, (fixedLenByteArrayBufferColumn_WriteRow c row).2 = None)) /\
  (forall (B : Type) (base_WriteRow : B -> Row -> B * option error)
          (c : optional.t B) (row : Row),
     let written := base_WriteRow (optional.base c) row in
     let result := optionalBufferColumn_WriteRow base_WriteRow c row in
     result.2 = written.2 /\
     optional.base result.1 = written.1 /\
     optional.definitionLevels result.1
     = match written.2 with
       | Some _ => optional.definitionLevels c
       | None => optional.definitionLevels c ++ map DefinitionLevel row
       end) /\
  (forall (B : Type) (base_WriteRow : B -> Row -> B * option error)
          (c : repeated.t B) (row : Row),
     let written := base_WriteRow (repeated.base c) row in
     let result := repeatedBufferColumn_WriteRow base_WriteRow c row in
     result.2 = written.2 /\
     repeated.base result.1 = written.1 /\
     (repeated.rows result.1, repeated.repetitionLevels result.1,
      repeated.definitionLevels result.1)
     = match written.2 with
       | Some _ =>
           (repeated.rows c, repeated.repetitionLevels c,
            repeated.definitionLevels c)
       | None =>
           (repeated.rows c ++ [repeatedBufferColumn_row c (len row)],
            repeated.repetitionLevels c ++ map RepetitionLevel row,
            repeated.definitionLevels c ++ map DefinitionLevel row)
       end) /\
  (forall base row, (WriteRow base row).2 = None) /\
  (forall c row, (optionalBufferColumn_WriteRow WriteRow c row).2 = None) /\
  (forall c row, (repeatedBufferColumn_WriteRow WriteRow c row).2 = None).
Proof.
  split; [|split; [|split; [|split; [|split]]]].
  - repeat split; try reflexivity; intros c row;
      unfold booleanBufferColumn_WriteRow, int32BufferColumn_WriteRow,
        int64BufferColumn_WriteRow, int96BufferColumn_WriteRow,
        floatBufferColumn_WriteRow, doubleBufferColumn_WriteRow,
        byteArrayBufferColumn_WriteRow, flat_WriteRow;
      by rewrite foldl_append.
  - intros B base_WriteRow c row written result. subst written result.
    unfold optionalBufferColumn_WriteRow.
    destruct (base_WriteRow (optional.base c) row) as [base [e|]]; simpl;
      [done|]. by rewrite foldl_append.
  - intros B base_WriteRow c row written result. subst written result.
    unfold repeatedBufferColumn_WriteRow.
    destruct (base_WriteRow (repeated.base c) row) as [base [e|]]; simpl;
      [done|]. by rewrite foldl_levels.
  - apply WriteRow_nil.
  - intros c row. apply (WriteRow_nil (ColOptional c)).
  - intros c row. apply (WriteRow_nil (ColRepeated c)).
Qed.

(** C10 (as stated) fails: the optional and the repeated column take their
    base through the interface [BufferColumn], and over a base whose
    [WriteRow] returns an error the branch that propagates it is taken:
    they return that error. *)
Lemma WriteRow_error_of_base_counterexample :
  let e := fmt_Errorf "cannot write the row" [] in
  let failing : unit -> Row -> unit * option error :=
    fun base _ => (base, Some e) in
  let row := [mkValue (Some (PInt32 7)) 0 1 0] in
  (optionalBufferColumn_WriteRow failing
     (newOptionalBufferColumn tt 1 nullsGoFirst) row).2 = Some e /\
  (repeatedBufferColumn_WriteRow failing
     (newRepeatedBufferColumn tt 1 1 nullsGoFirst) row).2 = Some e.
Proof. split; reflexivity. Qed.

(** *** What [ReadRowAt] returns (C9) *)
Lemma update_length {A} (s : list A) i f s' :
  update s i f = Some s' -> len s' = len s.
Proof.
  unfold update. destruct (idx s i); simpl; [|done].
  intros [= <-]. unfold len. by rewrite length_insert.
Qed.

Lemma update_last {A} (s : list A) (x : A) f s' :
  update (s ++ [x]) (len s) f = Some s' -> s' = s ++ [f x].
Proof.
  unfold update, idx. pose proof (len_nonneg s).
  rewrite decide_True by done. unfold len. rewrite Nat2Z.id.
  rewrite list_lookup_middle by done. simpl. intros [= <-].
  rewrite insert_app_r_alt by done. by rewrite Nat.sub_diag.
Qed.

Lemma len_one_more {A} (s t : list A) :
  len (s ++ t) - 1 = len s -> exists x, t = [x].
Proof.
  rewrite len_app. unfold len. intros Hlen.
  destruct t as [|x [|y t]]; simpl in Hlen; try lia. eauto.
Qed.

Section ReadRowAtSection.
Context {B : Type}.
Variable base_ReadRowAt : B -> Row -> Z -> option (Row * option error).

Lemma optionalBufferColumn_ReadRowAt_extends col row index r :
readsExtend base_ReadRowAt (optional.base col) ->
optionalBufferColumn_ReadRowAt base_ReadRowAt col row index = Some r ->
extends row r.
Proof.
intros base_ok. unfold optionalBufferColumn_ReadRowAt.
case_decide; [by intros [= <-]|].
case_decide; [by intros [= <-]|].
destruct (idx _ index) as [d|]; simpl; [|done].
case_decide; [intros [= <-]; red; simpl; eauto|].
destruct (base_ReadRowAt _ row index) as [[row1 err]|] eqn:Hb; simpl; [|done].
apply base_ok in Hb. unfold extends in Hb; simpl in Hb.
destruct err as [e|]; [by intros [= <-]|].
destruct Hb as [vs ->].
case_decide as Hn.
{ rewrite slice_prefix. simpl. by intros [= <-]. }
case_decide as Hm.
{ rewrite slice_prefix. simpl. by intros [= <-]. }
assert (len (row ++ vs) - 1 = len row) as [x ->]%len_one_more by lia.
destruct (update _ _ _) as [row2|] eqn:Hu; simpl; [|done].
apply update_last in Hu. subst row2. intros [= <-]. red; simpl. eauto.
Qed.

Lemma readRegion_extends col region index row0 rls levels :
readsExtend base_ReadRowAt (repeated.base col) ->
forall i vs r,
  readRegion base_ReadRowAt col region index (len row0) rls levels i
    (row0 ++ vs) = Some r ->
  extends row0 r.
Proof.
intros base_ok.
induction levels as [|d levels IH]; intros i vs r; simpl.
{ intros [= <-]. red; simpl. eauto. }
destruct (idx rls i) as [rl|]; simpl; [|done].
case_decide.
{ rewrite <- app_assoc. apply IH. }
destruct (base_ReadRowAt _ _ _) as [[row1 err]|] eqn:Hb; simpl; [|done].
apply base_ok in Hb. unfold extends in Hb; simpl in Hb.
destruct err as [e|].
{ subst row1. rewrite slice_prefix. simpl. by intros [= <-]. }
destruct Hb as [ws ->].
case_decide as Hn.
{ rewrite <- app_assoc, slice_prefix. simpl. by intros [= <-]. }
case_decide as Hm.
{ rewrite <- app_assoc, slice_prefix. simpl. by intros [= <-]. }
assert (len ((row0 ++ vs) ++ ws) - 1 = len (row0 ++ vs))
  as [x ->]%len_one_more by lia.
destruct (update _ _ _) as [row2|] eqn:Hu; simpl; [|done].
apply update_last in Hu. subst row2. rewrite <- app_assoc. apply IH.
Qed.

Lemma repeatedBufferColumn_ReadRowAt_extends col row index r :
readsExtend base_ReadRowAt (repeated.base col) ->
repeatedBufferColumn_ReadRowAt base_ReadRowAt col row index = Some r ->
extends row r.
Proof.
intros base_ok. unfold repeatedBufferColumn_ReadRowAt.
case_decide; [by intros [= <-]|].
case_decide; [by intros [= <-]|].
destruct (idx _ index) as [region|]; simpl; [|done].
destruct (slice (repeated.repetitionLevels col) _ _) as [rls|]; simpl; [|done].
destruct (slice (repeated.definitionLevels col) _ _) as [dls|]; simpl; [|done].
intros Hr.
apply (readRegion_extends col region index row rls dls base_ok 0 []).
by rewrite app_nil_r.
Qed.
End ReadRowAtSection.

Lemma flat_ReadRowAt_extends {A} (make : A -> Value) values row index r :
  flat_ReadRowAt make values row index = Some r -> extends row r.
Proof.
  unfold flat_ReadRowAt.
  case_decide; [by intros [= <-]|].
  case_decide; [by intros [= <-]|].
  destruct (idx values index); simpl; [|done].
  intros [= <-]. red; simpl. eauto.
Qed.

Lemma fixedLenByteArrayBufferColumn_ReadRowAt_extends col row index r :
  fixedLenByteArrayBufferColumn_ReadRowAt col row index = Some r ->
  extends row r.
Proof.
  unfold fixedLenByteArrayBufferColumn_ReadRowAt.
  case_decide.
  { destruct (fixedLenByteArrayBufferColumn_Len col); simpl; [|done].
    by intros [= <-]. }
  case_decide; [by intros [= <-]|].
  destruct (slice _ _ _); simpl; [|done].
  intros [= <-]. red; simpl. eauto.
Qed.

Lemma ReadRowAt_extends (col : BufferColumn) :
  forall row index r, ReadRowAt col row index = Some r -> extends row r.
Proof.
  induction col as [c|c|c|c|c|c|c|c|c|c|c IH|c IH|c IH]
    using BufferColumn_base_ind; intros row index r; simpl;
    try apply flat_ReadRowAt_extends.
  - apply fixedLenByteArrayBufferColumn_ReadRowAt_extends.
  - apply IH.
  - by apply optionalBufferColumn_ReadRowAt_extends.
  - by apply repeatedBufferColumn_ReadRowAt_extends.
Qed.

(** C9: a read of a repeated column that returns an error returns the row it
    was given: the values appended before the failure are truncated away. *)
Theorem repeatedBufferColumn_ReadRowAt_atomic
    (col : repeated.t BufferColumn) (row : Row) (index : Z) (row' : Row) (e : error) :
  repeatedBufferColumn_ReadRowAt ReadRowAt col row index = Some (row', Some e) ->
  row' = row.
Proof.
  intros Hr.
  apply (ReadRowAt_extends (ColRepeated col) row index (row', Some e) Hr).
Qed.

(** The base holds one value where the region announces two: the first
    element is read and appended, the read of the second fails. *)
Lemma repeatedBufferColumn_ReadRowAt_atomic_witness :
  let col := repeated.mk (ColInt32 [10]) 1 1 [region.mk 0 2] [0; 1] [1; 1]
               [] None nullsGoFirst in
  let row := [mkValue (Some (PInt32 5)) 0 0 (-1)] in
  repeatedBufferColumn_ReadRowAt ReadRowAt col row 0 = Some (row, Some io_EOF).
Proof.
  intros col row.
  assert (exists row', repeatedBufferColumn_ReadRowAt ReadRowAt col row 0
                       = Some (row', Some io_EOF)) as [row' Hr].
  { eexists. vm_compute. reflexivity. }
  rewrite Hr.
  by rewrite (repeatedBufferColumn_ReadRowAt_atomic col row 0 row' io_EOF Hr).
Defined.

(** *** Bounds of [ReadRowAt] (C6) *)

Lemma flat_ReadRowAt_bounds {A} (make : A -> Value) values row index :
  (index < 0 ->
   flat_ReadRowAt make values row index
   = Some (row, Some (errRowIndexOutOfBounds index (len values)))) /\
  (index >= len values ->
   flat_ReadRowAt make values row index = Some (row, Some io_EOF)) /\
  (0 <= index < len values ->
   exists x, idx values index = Some x /\
     flat_ReadRowAt make values row index = Some (row ++ [make x], None)).
Proof.
  pose proof (len_nonneg values). unfold flat_ReadRowAt. repeat split.
  - intros. by rewrite decide_True.
  - intros. rewrite decide_False by lia. by rewrite decide_True.
  - intros Hi. destruct (idx_Some values index Hi) as [x Hx].
    exists x. split; [done|].
    rewrite !decide_False by lia. by rewrite Hx.
Qed.

Lemma optionalBufferColumn_ReadRowAt_bounds {B}
    (base_ReadRowAt : B -> Row -> Z -> option (Row * option error))
    (col : optional.t B) row index :
  (index < 0 ->
   optionalBufferColumn_ReadRowAt base_ReadRowAt col row index
   = Some (row, Some (errRowIndexOutOfBounds index
                        (len (optional.definitionLevels col))))) /\
  (index >= len (optional.definitionLevels col) ->
   optionalBufferColumn_ReadRowAt base_ReadRowAt col row index
   = Some (row, Some io_EOF)).
Proof.
  pose proof (len_nonneg (optional.definitionLevels col)).
  unfold optionalBufferColumn_ReadRowAt. split; intros.
  - by rewrite decide_True.
  - rewrite decide_False by lia. by rewrite decide_True.
Qed.

Lemma repeatedBufferColumn_ReadRowAt_bounds {B}
    (base_ReadRowAt : B -> Row -> Z -> option (Row * option error))
    (col : repeated.t B) row index :
  (index < 0 ->
   repeatedBufferColumn_ReadRowAt base_ReadRowAt col row index
   = Some (row, Some (errRowIndexOutOfBounds index (len (repeated.rows col))))) /\
  (index >= len (repeated.rows col) ->
   repeatedBufferColumn_ReadRowAt base_ReadRowAt col row index
   = Some (row, Some io_EOF)).
Proof.
  pose proof (len_nonneg (repeated.rows col)).
  unfold repeatedBufferColumn_ReadRowAt. split; intros.
  - by rewrite decide_True.
  - rewrite decide_False by lia. by rewrite decide_True.
Qed.

(** C6 fails on the fixed-length byte array column, which tests the product
    [index * size] computed in [int] arithmetic where the other columns test
    [index]: a column of 2-byte values that holds one row, read at index
    [-2^63], returns that row's value and no error. *)
Theorem fixedLenByteArrayBufferColumn_ReadRowAt_negative_index :
  let col := fixedLen.mk 2 [Byte.x01; Byte.x02] [Byte.x00; Byte.x00] in
  let index := - 2 ^ 63 in
  index < 0 /\
  int index = index /\
  fixedLenByteArrayBufferColumn_Len col = Some 1 /\
  ReadRowAt (ColFixedLenByteArray col) [] index
  = Some ([makeValueBytes FixedLenByteArray [Byte.x01; Byte.x02]], None).
Proof. by vm_compute. Qed.

(** *** Null compaction (C4) *)

(** C4 fails: an optional int32 column receives a null row and then the row
    [7]; its first [Page()] holds the value [7] and its second the
    placeholder [0] that the base stores for the null, because the first call
    leaves the base compacted while the definition levels still describe the
    layout before compaction. *)
Theorem optionalBufferColumn_Page_twice :
  let Page := optionalBufferColumn_Page int32BufferColumn_Swap
                int32BufferColumn_Page int32Page_Slice in
  let write col row :=
    (optionalBufferColumn_WriteRow int32BufferColumn_WriteRow col row).1 in
  let col0 := newOptionalBufferColumn ([] : int32BufferColumn) 1 nullsGoFirst in
  let col1 := write col0 [mkValue None 0 0 (-1)] in
  let col2 := write col1 [mkValue (Some (PInt32 7)) 0 1 (-1)] in
  exists page1 col3 page2 col4,
    optional.base col2 = [0; 7] /\
    optional.definitionLevels col2 = [0; 1] /\
    Page col2 = Some (page1, col3) /\
    Page col3 = Some (page2, col4) /\
    page1 = optionalPage.mk [7] 1 [0; 1] /\
    page2 = optionalPage.mk [0] 1 [0; 1] /\
    page1 <> page2.
Proof.
  do 4 eexists. vm_compute. repeat split; try reflexivity. discriminate.
Qed.

(* ===================================================================== *)
(** * Properties of shredding and assembly *)
(* ===================================================================== *)

(** C3: for the schema [{xs: repeated int32}], the record [{xs: [10, 20,
    30]}] is deconstructed from the levels (0, 0, 0) into three values of
    column 0: the first at repetition level 0, the next two at repetition
    level 1, the repetition depth, all at definition level 1. *)
Theorem Deconstruct_repeated_int32 :
  let schema := Group IsRequired [("xs"%string, Leaf IsRepeated Int32)] in
  let record :=
    VStruct [VSlice (TPrim Int32 0)
               (Some [VPrim (PInt32 10); VPrim (PInt32 20); VPrim (PInt32 30)])] in
  exists deconstruct row,
    deconstructFuncOf 0 schema = Compiled 1 deconstruct /\
    deconstruct [] (levels.mk 0 0 0) (Some record) = Some row /\
    row = [mkValue (Some (PInt32 10)) 0 1 (-1);
           mkValue (Some (PInt32 20)) 1 1 (-1);
           mkValue (Some (PInt32 30)) 1 1 (-1)] /\
    map ColumnIndex row = [0; 0; 0] /\
    map RepetitionLevel row = [0; 1; 1] /\
    map DefinitionLevel row = [1; 1; 1] /\
    maxLevels schema = 1.
Proof.
  do 2 eexists. split; [reflexivity|].
  split; [vm_compute; reflexivity|]. by vm_compute.
Qed.

(** *** Compiling the deconstructor (C5) *)

Lemma int8_small z : -128 <= z <= 127 -> int8 z = z.
Proof. intros. unfold int8. rewrite Z.mod_small; lia. Qed.

Lemma ColumnIndex_stored (ci : Z) r d p :
  0 <= ci <= 127 -> ColumnIndex (mkValue p r d (int8 (Z.lnot (int8 ci)))) = ci.
Proof.
  intros. unfold ColumnIndex; simpl.
  rewrite (int8_small ci) by lia.
  rewrite (int8_small (Z.lnot ci)) by (unfold Z.lnot; lia).
  rewrite Z.lnot_involutive. apply int8_small. lia.
Qed.

Lemma withRepetition_fuelRequired rep node :
  fuelRequired (withRepetition rep node) = fuelRequired node.
Proof. by destruct node. Qed.

Lemma withRepetition_leafCount rep node :
  leafCount (withRepetition rep node) = leafCount node.
Proof. by destruct node. Qed.

Lemma withRepetition_levelsBelow rep node :
  levelsBelow (withRepetition rep node) = levelsBelow node.
Proof. by destruct node. Qed.

Lemma withRepetition_groupsNonEmpty rep node :
  groupsNonEmpty (withRepetition rep node) = groupsNonEmpty node.
Proof. by destruct node. Qed.

Lemma withRepetition_columnsBelow rep node :
  columnsBelow (withRepetition rep node) = columnsBelow node.
Proof. by destruct node. Qed.

Lemma withRepetition_repetitionOf rep node :
  repetitionOf (withRepetition rep node) = rep.
Proof. by destruct node. Qed.

Lemma leafCount_children_nonneg (children : list (string * Node)) :
  Forall (fun child => 0 <= leafCount child.2) children ->
  0 <= foldr (fun child n => leafCount child.2 + n) 0 children.
Proof. induction 1; simpl; lia. Qed.

Lemma leafCount_nonneg : forall node, 0 <= leafCount node.
Proof.
  fix IH 1. intros [rep k|rep cs|rep e|rep k v]; simpl.
  - lia.
  - apply leafCount_children_nonneg.
    induction cs as [|[name c] cs IHcs]; constructor; [apply IH|apply IHcs].
  - apply IH.
  - pose proof (IH k). pose proof (IH v). lia.
Qed.

Lemma nullRow_app ci a b lv :
  0 <= a -> 0 <= b ->
  nullRow ci (a + b) lv = nullRow ci a lv ++ nullRow (ci + a) b lv.
Proof.
  intros. unfold nullRow. rewrite seqZ_app by lia. by rewrite map_app.
Qed.

Lemma nullRow_0 ci lv : nullRow ci 0 lv = [].
Proof. reflexivity. Qed.

Lemma fuelOf_child (children : list (string * Node)) child :
  child ∈ children ->
  (fuelOf child.2 <=
   foldr (fun child m =>
            Nat.max (fuelRequired child.2
                     + fuelOfRepetition (repetitionOf child.2)) m)
     0 children)%nat.
Proof.
  induction 1 as [child cs|child c cs _ IH]; simpl; unfold fuelOf in *; lia.
Qed.

Section DeconstructCompiles.
Variable rec : Z -> Node -> compiled deconstructFunc.

Lemma deconstructFuncOfChildren_compiles (children : list (string * Node)) :
(forall child ci, child ∈ children -> 0 <= ci <= 128 ->
   deconstructCompiles ci (leafCount child.2) (rec ci child.2)) ->
forall ci, 0 <= ci <= 128 ->
let count := foldr (fun child n => leafCount child.2 + n) 0 children in
(ci + count <= 128 ->
 exists funcs,
   deconstructFuncOfChildren rec ci children.*2 = Compiled (ci + count) funcs /\
   forall i row levels,
     deconstructFields funcs i row levels None
     = Some (row ++ nullRow ci count levels)) /\
(ci + count > 128 ->
 deconstructFuncOfChildren rec ci children.*2 = Panic tooManyColumns).
Proof.
induction children as [|child children IH]; intros Hrec ci Hci; csimpl.
{ split; [|lia]. intros _. exists []. rewrite Z.add_0_r. split; [done|].
  intros. simpl. by rewrite app_nil_r. }
pose proof (leafCount_nonneg child.2) as Hc.
assert (0 <= foldr (fun child n => leafCount child.2 + n) 0 children) as Hcs.
{ apply leafCount_children_nonneg, Forall_forall. intros. apply leafCount_nonneg. }
destruct (Hrec child ci) as [Hok Hpanic]; [left|done|].
destruct (decide (ci + leafCount child.2 <= 128)) as [Hle|Hgt].
- destruct (Hok Hle) as (d & -> & Hnull).
  destruct (IH (fun c ci' Hin => Hrec c ci' (list_elem_of_further _ _ _ Hin))
              (ci + leafCount child.2)) as [Hoks Hpanics]; [lia|].
  split.
  + intros Hsum. destruct Hoks as (funcs & -> & Hnulls); [lia|].
    exists (d :: funcs). rewrite Z.add_assoc. split; [done|].
    intros i row levels. simpl. rewrite Hnull. simpl.
    rewrite Hnulls. rewrite nullRow_app by done. by rewrite app_assoc.
  + intros Hsum. rewrite Hpanics by lia. done.
- split; [lia|]. intros _. by rewrite Hpanic by lia.
Qed.

Lemma deconstructFuncOfBody_compiles node ci :
(forall node' ci', (fuelOf node' < fuelOf node)%nat -> 0 <= ci' <= 128 ->
   deconstructCompiles ci' (leafCount node') (rec ci' node')) ->
0 <= ci <= 128 ->
deconstructCompiles ci (leafCount node) (deconstructFuncOfBody rec ci node).
Proof.
intros Hrec Hci. pose proof (leafCount_nonneg node) as Hn.
assert (forall node', leafCount node' = leafCount node ->
          (fuelOf node' < fuelOf node)%nat ->
          forall f : deconstructFunc -> deconstructFunc,
          (forall d row levels, f d row levels None = d row levels None) ->
          deconstructCompiles ci (leafCount node)
            match rec ci node' with
            | Compiled c d => Compiled c (f d)
            | Panic msg => Panic msg
            | NoFuel => NoFuel
            end) as Hwrap.
{ intros node' Hleaves Hfuel f Hf.
  destruct (Hrec node' ci Hfuel Hci) as [Hok Hpanic].
  rewrite Hleaves in *. split.
  - intros Hle. destruct (Hok Hle) as (d & -> & Hnull).
    eexists. split; [done|]. intros row levels. by rewrite Hf.
  - intros Hgt. by rewrite Hpanic. }
unfold deconstructFuncOfBody.
destruct (Node_Optional node) eqn:Hopt.
{ apply (Hwrap (Required node)).
  - apply withRepetition_leafCount.
  - unfold fuelOf, Required.
    rewrite withRepetition_fuelRequired, withRepetition_repetitionOf.
    unfold Node_Optional in Hopt. destruct (repetitionOf node); simpl; done || lia.
  - done. }
destruct (Node_Repeated node) eqn:Hrep.
{ apply (Hwrap (Required node)).
  - apply withRepetition_leafCount.
  - unfold fuelOf, Required.
    rewrite withRepetition_fuelRequired, withRepetition_repetitionOf.
    unfold Node_Repeated in Hrep. destruct (repetitionOf node); simpl; done || lia.
  - done. }
assert (repetitionOf node = IsRequired) as Hreq.
{ unfold Node_Optional, Node_Repeated in *. by destruct (repetitionOf node). }
destruct node as [rep kind|rep children|rep element|rep key value];
  simpl in Hreq; subst rep; simpl.
- (* leaf *)
  unfold deconstructFuncOfRequired, deconstructFuncOfLeaf; simpl.
  unfold MaxColumnIndex. split.
  + intros Hle. rewrite decide_False by lia. eexists. split; [done|].
    intros row levels. simpl. unfold nullRow. simpl.
    rewrite (int8_small ci) by lia. done.
  + intros Hgt. by rewrite decide_True by lia.
- (* group *)
  unfold deconstructFuncOfRequired, deconstructFuncOfGroup; simpl.
  destruct (deconstructFuncOfChildren_compiles children) with (ci := ci)
    as [Hok Hpanic]; [|done|].
  { intros child ci' Hin Hci'. apply Hrec; [|done].
    pose proof (fuelOf_child _ _ Hin). unfold fuelOf at 2. simpl. lia. }
  split.
  + intros Hle. destruct (Hok Hle) as (funcs & -> & Hnull).
    eexists. split; [done|]. intros row levels. apply Hnull.
  + intros Hgt. by rewrite Hpanic.
- (* list *)
  unfold deconstructFuncOfList; simpl.
  assert (leafCount (Repeated element) = leafCount element) as Hl
    by apply withRepetition_leafCount.
  rewrite <- Hl. apply Hrec; [|done].
  unfold fuelOf, Repeated.
  rewrite withRepetition_fuelRequired, withRepetition_repetitionOf. simpl. lia.
- (* map *)
  unfold deconstructFuncOfMap.
  apply (Hwrap (Repeated (mapKeyValueOf (MapOf IsRequired key value)))
           ltac:(simpl; lia) ltac:(unfold fuelOf; simpl; lia)
           (fun deconstruct row levels mapValue =>
              match mapValue with
              | None => deconstruct row levels None
              | Some (VMap key elem entries) =>
                  deconstruct row levels
                    (Some (keyValueSlice key elem (default [] entries)))
              | Some _ => None
              end)).
  done.
Qed.
End DeconstructCompiles.

Lemma deconstructFuncOfFuel_compiles (fuel : nat) :
  forall node ci, (fuelOf node <= fuel)%nat -> 0 <= ci <= 128 ->
  deconstructCompiles ci (leafCount node) (deconstructFuncOfFuel fuel ci node).
Proof.
  induction fuel as [|fuel IH]; intros node ci Hfuel Hci.
  { unfold fuelOf in Hfuel. destruct node; simpl in Hfuel; lia. }
  simpl. apply deconstructFuncOfBody_compiles; [|done].
  intros node' ci' Hlt Hci'. apply IH; [lia|done].
Qed.

(** C5 (as amended): compiling the deconstructor of a schema of more than
    128 leaf columns panics with the diagnostic of [deconstructFuncOfLeaf]
    and yields no closure; compiling a schema of at most 128 leaf columns
    succeeds, and the leaves are given the column indices 0, 1, ... in
    order, each one once and all in [0, 127]: these are the indices of the
    values that the closure emits, one per leaf, on an absent record. *)
Theorem deconstructFuncOf_column_bound (schema : Node) :
  (leafCount schema <= 128 ->
   exists deconstruct,
     deconstructFuncOf 0 schema = Compiled (leafCount schema) deconstruct /\
     forall row levels, exists vs,
       deconstruct row levels None = Some (row ++ vs) /\
       map ColumnIndex vs = seqZ 0 (leafCount schema) /\
       NoDup (map ColumnIndex vs) /\
       Forall (fun c => 0 <= c <= 127) (map ColumnIndex vs)) /\
  (leafCount schema > 128 ->
   deconstructFuncOf 0 schema = Panic tooManyColumns).
Proof.
  destruct (deconstructFuncOfFuel_compiles (fuelOf schema) schema 0)
    as [Hok Hpanic]; [done|lia|].
  split; [|apply Hpanic].
  intros Hle. destruct (Hok Hle) as (d & Hd & Hnull).
  exists d. split; [exact Hd|].
  intros row levels. exists (nullRow 0 (leafCount schema) levels).
  split; [apply Hnull|].
  assert (map ColumnIndex (nullRow 0 (leafCount schema) levels)
          = seqZ 0 (leafCount schema)) as ->.
  { unfold nullRow. rewrite map_map.
    rewrite <- (map_id (seqZ 0 (leafCount schema))) at 2.
    apply map_ext_in. intros c Hc%list_elem_of_In%elem_of_seqZ.
    unfold ColumnIndex; simpl.
    rewrite (int8_small (Z.lnot c)) by (unfold Z.lnot; lia).
    rewrite Z.lnot_involutive. apply int8_small. lia. }
  split; [done|]. split; [apply NoDup_seqZ|].
  apply Forall_forall. intros c Hc%elem_of_seqZ. lia.
Qed.

Lemma deconstructFuncOf_column_bound_witness :
  let schema := Group IsRequired [("a"%string, Leaf IsOptional Int32);
                                  ("b"%string, ListOf IsRequired
                                     (Leaf IsRequired ByteArray))] in
  exists deconstruct,
    deconstructFuncOf 0 schema = Compiled 2 deconstruct /\
    forall row levels, exists vs,
      deconstruct row levels None = Some (row ++ vs) /\
      map ColumnIndex vs = [0; 1] /\
      NoDup (map ColumnIndex vs) /\
      Forall (fun c => 0 <= c <= 127) (map ColumnIndex vs).
Proof.
  intros schema.
  apply (proj1 (deconstructFuncOf_column_bound schema)).
  vm_compute. discriminate.
Defined.

(** C5 (as stated) fails: a group of 128 required leaves has more than 127
    leaf columns and its deconstructor compiles; the last leaf is given the
    column index 127, which is not above [MaxColumnIndex]. *)
Lemma deconstructFuncOf_column_bound_counterexample :
  let schema :=
    Group IsRequired (repeat ("c"%string, Leaf IsRequired Int32) 128) in
  leafCount schema > 127 /\
  exists deconstruct, deconstructFuncOf 0 schema = Compiled 128 deconstruct.
Proof.
  intros schema. split; [by vm_compute|].
  destruct (deconstructFuncOfFuel_compiles (fuelOf schema) schema 0)
    as [Hok _]; [done|lia|].
  destruct Hok as (d & Hd & _); [by vm_compute|].
  exists d. exact Hd.
Qed.

(** *** The loop of the reconstructor of a repeated node (C2) *)

Lemma loop_test_continues (row : Row) ci levels :
  startsWith row ci &&
    match row with
    | first :: _ =>
        bool_decide (repetitionLevel first = levels.repetitionLevel levels)
    | [] => false
    end
  = continues row ci levels.
Proof. by destruct row. Qed.

Lemma reconstructElements_unfold fuel reconstruct ci t buffer n c levels row :
  reconstructElements fuel reconstruct ci t buffer n c levels row =
  if continues row ci levels then
    match fuel with
    | O => None
    | S fuel =>
        let '(c, buffer) :=
          if decide (n = c)
          then (c * 2,
                buffer ++ repeat (Zero t) (Z.to_nat (c * 2) - length buffer))
          else (c, buffer) in
        elem ← idx buffer n;
        '(elem, row, err) ← reconstruct elem levels row;
        let buffer := <[Z.to_nat n := elem]> buffer in
        match err with
        | Some e => Some (VSlice t (Some buffer), row, Some e)
        | None =>
            reconstructElements fuel reconstruct ci t buffer (n + 1) c
              (levels.mk (levels.repetitionDepth levels)
                 (levels.repetitionDepth levels)
                 (levels.definitionLevel levels))
              row
        end
    end
  else
    Some (VSlice t (Some (if decide (n < c) then take (Z.to_nat n) buffer
                          else buffer)),
          row, None).
Proof.
  rewrite <- loop_test_continues. by destruct fuel.
Qed.

(** The working buffer: the elements done, then [k] zero slots. *)
Lemma buffer_slot (t : gotype) (acc : list govalue) (k : nat) :
  (0 < k)%nat ->
  idx (acc ++ repeat (Zero t) k) (len acc) = Some (Zero t).
Proof.
  intros Hk. unfold idx. pose proof (len_nonneg acc).
  rewrite decide_True by done. unfold len. rewrite Nat2Z.id.
  destruct k as [|k]; [lia|]. simpl. by rewrite list_lookup_middle.
Qed.

Lemma buffer_store (t : gotype) (acc : list govalue) (k : nat) elem :
  <[Z.to_nat (len acc) := elem]> (acc ++ Zero t :: repeat (Zero t) k)
  = (acc ++ [elem]) ++ repeat (Zero t) k.
Proof.
  unfold len. rewrite Nat2Z.id.
  rewrite insert_app_r_alt by done. rewrite Nat.sub_diag. simpl.
  by rewrite <- app_assoc.
Qed.

Lemma buffer_trim (t : gotype) (acc : list govalue) (k : nat) :
  (if decide (len acc < len acc + Z.of_nat k)
   then take (Z.to_nat (len acc)) (acc ++ repeat (Zero t) k)
   else acc ++ repeat (Zero t) k) = acc.
Proof.
  case_decide.
  - unfold len. rewrite Nat2Z.id. by rewrite take_app_length.
  - assert (k = 0%nat) as -> by lia. simpl. by rewrite app_nil_r.
Qed.

Lemma buffer_grow (t : gotype) (acc : list govalue) (k : nat) :
  0 < len acc + Z.of_nat k ->
  exists k',
    (if decide (len acc = len acc + Z.of_nat k)
     then ((len acc + Z.of_nat k) * 2,
           (acc ++ repeat (Zero t) k)
           ++ repeat (Zero t)
                (Z.to_nat ((len acc + Z.of_nat k) * 2)
                 - length (acc ++ repeat (Zero t) k)))
     else (len acc + Z.of_nat k, acc ++ repeat (Zero t) k))
    = (len acc + Z.of_nat (S k'), acc ++ repeat (Zero t) (S k')).
Proof.
  intros Hc. case_decide as Hn.
  - assert (k = 0%nat) as -> by lia.
    change (repeat (Zero t) 0) with (@nil govalue). rewrite !app_nil_r.
    unfold len in *. destruct (length acc) as [|m] eqn:Hm; [simpl in Hc; lia|].
    exists m.
    replace (Z.to_nat ((Z.of_nat (S m) + Z.of_nat 0) * 2) - S m)%nat
      with (S m) by lia.
    f_equal. lia.
  - destruct k as [|k]; [lia|]. by exists k.
Qed.

Lemma len_snoc {A} (s : list A) (x : A) : len (s ++ [x]) = len s + 1.
Proof. rewrite len_app. reflexivity. Qed.

(** The working buffer in general: the elements done, the elements that
    the destination held and that are still to be written, then [k] zero
    slots. *)
Lemma pending_trim (t : gotype) (acc pending : list govalue) (k : nat) :
  (if decide (len acc < len acc + len pending + Z.of_nat k)
   then take (Z.to_nat (len acc)) (acc ++ pending ++ repeat (Zero t) k)
   else acc ++ pending ++ repeat (Zero t) k) = acc.
Proof.
  pose proof (len_nonneg pending). case_decide.
  - unfold len. rewrite Nat2Z.id. by rewrite take_app_length.
  - assert (k = 0%nat) as -> by lia.
    assert (pending = []) as ->.
    { destruct pending; [done|]. unfold len in *. simpl in *. lia. }
    simpl. by rewrite app_nil_r.
Qed.

Lemma pending_grow (t : gotype) (acc pending : list govalue) (k : nat) :
  0 < len acc + len pending + Z.of_nat k ->
  exists k',
    (if decide (len acc = len acc + len pending + Z.of_nat k)
     then ((len acc + len pending + Z.of_nat k) * 2,
           (acc ++ pending ++ repeat (Zero t) k)
           ++ repeat (Zero t)
                (Z.to_nat ((len acc + len pending + Z.of_nat k) * 2)
                 - length (acc ++ pending ++ repeat (Zero t) k)))
     else (len acc + len pending + Z.of_nat k,
           acc ++ pending ++ repeat (Zero t) k))
    = (len (acc ++ [hd (Zero t) pending]) + len (tail pending) + Z.of_nat k',
       acc ++ hd (Zero t) pending :: tail pending ++ repeat (Zero t) k').
Proof.
  intros Hc. pose proof (len_nonneg pending). rewrite len_snoc.
  case_decide as Hn.
  - assert (k = 0%nat) as -> by lia.
    assert (pending = []) as ->.
    { destruct pending; [done|]. unfold len in *. simpl in *. lia. }
    change (repeat (Zero t) 0) with (@nil govalue). rewrite !app_nil_r.
    change (len []) with 0 in *. simpl hd. simpl tail.
    unfold len in *. destruct (length acc) as [|m] eqn:Hm; [simpl in Hc; lia|].
    exists m.
    replace (Z.to_nat ((Z.of_nat (S m) + 0 + Z.of_nat 0) * 2) - S m)%nat
      with (S m) by lia.
    f_equal. simpl. lia.
  - destruct pending as [|x pending].
    + destruct k as [|k]; [change (len []) with 0 in *; lia|].
      exists k. simpl. f_equal. change (len []) with 0. lia.
    + exists k. simpl. f_equal. unfold len. simpl. lia.
Qed.

Lemma pending_slot (t : gotype) (acc : list govalue) x (rest : list govalue) :
  idx (acc ++ x :: rest) (len acc) = Some x.
Proof.
  unfold idx. pose proof (len_nonneg acc).
  rewrite decide_True by done. unfold len. rewrite Nat2Z.id.
  by rewrite list_lookup_middle.
Qed.

Lemma pending_store (acc : list govalue) x (rest : list govalue) elem :
  <[Z.to_nat (len acc) := elem]> (acc ++ x :: rest) = (acc ++ [elem]) ++ rest.
Proof.
  unfold len. rewrite Nat2Z.id.
  rewrite insert_app_r_alt by done. rewrite Nat.sub_diag. simpl.
  by rewrite <- app_assoc.
Qed.

Section RepeatedLoop.
Variable reconstruct : reconstructFunc.
Variable ci : Z.
Variable t : gotype.

Lemma reconstructElements_repeats (fuel : nat) :
  forall acc pending k levels row result,
    0 < len acc + len pending + Z.of_nat k ->
    reconstructElements fuel reconstruct ci t
      (acc ++ pending ++ repeat (Zero t) k) (len acc)
      (len acc + len pending + Z.of_nat k)
      levels row = Some result ->
    repeats reconstruct ci t acc pending levels row result.
Proof.
  induction fuel as [|fuel IH]; intros acc pending k levels row result Hc;
    rewrite reconstructElements_unfold;
    destruct (continues row ci levels) eqn:Hcont.
  - intros [=].
  - rewrite pending_trim. intros [= <-]. by constructor.
  - destruct (pending_grow t acc pending k Hc) as [k' ->].
    rewrite pending_slot by done. simpl.
    destruct (reconstruct (hd (Zero t) pending) levels row)
      as [[[elem row'] err]|] eqn:Hr; simpl; [|done].
    rewrite pending_store. destruct err as [e|].
    + intros [= <-]. by eapply repeats_error.
    + intros Hloop. eapply repeats_more; [done..|].
      pose proof (len_nonneg acc). pose proof (len_nonneg (tail pending)).
      apply (IH (acc ++ [elem]) (tail pending) k'); rewrite !len_snoc in *;
        [lia|exact Hloop].
  - rewrite pending_trim. intros [= <-]. by constructor.
Qed.

Lemma repeats_reconstructElements acc pending levels row result :
  repeats reconstruct ci t acc pending levels row result ->
  consumes reconstruct ->
  forall fuel k,
    (length row < fuel)%nat ->
    0 < len acc + len pending + Z.of_nat k ->
    exists value,
      reconstructElements fuel reconstruct ci t
        (acc ++ pending ++ repeat (Zero t) k) (len acc)
        (len acc + len pending + Z.of_nat k)
        levels row = Some (value, result.1.2, result.2) /\
      (result.2 = None -> value = result.1.1).
Proof.
  intros Hrep Hcons.
  induction Hrep as [acc pending levels row Hcont
                    |acc pending levels row elem row' e value Hcont Hr
                    |acc pending levels row elem row' result Hcont Hr Hrep IH];
    intros fuel k Hfuel Hc;
    (destruct fuel as [|fuel]; [lia|]);
    rewrite reconstructElements_unfold, Hcont.
  - rewrite pending_trim. eauto.
  - destruct (pending_grow t acc pending k Hc) as [k' ->].
    rewrite pending_slot by done. simpl. rewrite Hr. simpl.
    eexists. split; [done|]. done.
  - destruct (pending_grow t acc pending k Hc) as [k' ->].
    rewrite pending_slot by done. simpl. rewrite Hr. simpl.
    rewrite pending_store.
    apply Hcons in Hr.
    pose proof (len_nonneg acc). pose proof (len_nonneg (tail pending)).
    destruct (IH fuel k') as (value & Hloop & Hvalue);
      [lia|rewrite len_snoc; lia|].
    exists value. split; [|done]. rewrite !len_snoc in *. exact Hloop.
Qed.
End RepeatedLoop.

Lemma reconstructFuncOfRepeated_closure
    (rec : Z -> Node -> compiled reconstructFunc) (ci : Z) (node : Node)
    (next : Z) (reconstruct : reconstructFunc) :
  rec ci (Required node) = Compiled next reconstruct ->
  exists f,
    reconstructFuncOfRepeated rec ci node = Compiled next f /\
    forall t elems levels first rest,
      ColumnIndex first = ci ->
      next - ci <= len (first :: rest) ->
      ~ definitionLevel first < int8 (levels.definitionLevel levels + 1) ->
      exists k,
        0 < len (@nil govalue) + len (default [] elems) + Z.of_nat k /\
        f (VSlice t elems) levels (first :: rest)
        = reconstructElements (S (length (first :: rest))) reconstruct ci t
            ([] ++ default [] elems ++ repeat (Zero t) k) (len (@nil govalue))
            (len (@nil govalue) + len (default [] elems) + Z.of_nat k)
            (levels.mk (int8 (levels.repetitionDepth levels + 1))
               (levels.repetitionLevel levels)
               (int8 (levels.definitionLevel levels + 1)))
            (first :: rest).
Proof.
  intros Hrec. unfold reconstructFuncOfRepeated. rewrite Hrec.
  eexists. split; [reflexivity|].
  intros t elems levels first rest Hci Hlen Hdef.
  cbv beta. unfold startsWith. rewrite bool_decide_eq_true_2 by done.
  cbn [negb]. rewrite decide_False by lia.
  change (idx (first :: rest) 0) with (Some first). cbn [mbind option_bind].
  rewrite decide_False by done.
  pose proof (len_nonneg (default [] elems)).
  change (len []) with 0. case_decide as Hcap.
  - exists 0%nat. split; [lia|].
    change (repeat (Zero t) 0) with (@nil govalue).
    rewrite app_nil_r, app_nil_l, Z.add_0_l, Z.add_0_r. reflexivity.
  - exists 10%nat. split; [lia|].
    assert (default [] elems = []) as ->.
    { destruct (default [] elems); [done|]. unfold len in *. simpl in *. lia. }
    reflexivity.
Qed.

(** C2 (as amended): in its non-null branch the reconstructor of a repeated
    node invokes the child closure exactly while the row still starts at
    the first column of the subtree and the repetition level of the next
    value equals the current [levels.repetitionLevel], which is the level
    inherited from the caller before the first iteration and
    [repetitionDepth] after each iteration; so the first element is consumed
    only if its repetition level is the inherited one. *)
Theorem reconstructFuncOfRepeated_loop
    (rec : Z -> Node -> compiled reconstructFunc) (ci : Z) (node : Node)
    (next : Z) (reconstruct : reconstructFunc)
    (t : gotype) (elems : option (list govalue)) (levels : levels.t)
    (first : Value) (rest : Row) :
  rec ci (Required node) = Compiled next reconstruct ->
  ColumnIndex first = ci ->
  next - ci <= len (first :: rest) ->
  ~ definitionLevel first < int8 (levels.definitionLevel levels + 1) ->
  let row := first :: rest in
  let inherited :=
    levels.mk (int8 (levels.repetitionDepth levels + 1))
      (levels.repetitionLevel levels)
      (int8 (levels.definitionLevel levels + 1)) in
  exists f,
    reconstructFuncOfRepeated rec ci node = Compiled next f /\
    (forall result,
       f (VSlice t elems) levels row = Some result ->
       repeats reconstruct ci t [] (default [] elems) inherited row result) /\
    (consumes reconstruct ->
     forall result,
       repeats reconstruct ci t [] (default [] elems) inherited row result ->
       exists value,
         f (VSlice t elems) levels row = Some (value, result.1.2, result.2) /\
         (result.2 = None -> value = result.1.1)) /\
    (repetitionLevel first <> levels.repetitionLevel levels ->
     f (VSlice t elems) levels row = Some (VSlice t (Some []), row, None)).
Proof.
  intros Hrec Hci Hlen Hdef row inherited.
  destruct (reconstructFuncOfRepeated_closure rec ci node next reconstruct Hrec)
    as (f & Hf & Hloop).
  exists f. split; [exact Hf|]. subst row.
  destruct (Hloop t elems levels first rest Hci Hlen Hdef) as (k & Hk & ->).
  fold inherited. split; [|split].
  - intros result. by apply reconstructElements_repeats.
  - intros Hcons result Hrep.
    apply (repeats_reconstructElements reconstruct ci t [] (default [] elems)
             inherited (first :: rest) result Hrep Hcons); [lia|done].
  - intros Hlevel. rewrite reconstructElements_unfold.
    unfold continues. subst inherited. cbn [levels.repetitionLevel].
    rewrite (bool_decide_eq_false_2 _ Hlevel), andb_false_r.
    by rewrite pending_trim.
Qed.

Lemma reconstructFuncOfRepeated_loop_witness :
  let first := mkValue (Some (PInt32 10)) 0 1 (-1) in
  let second := mkValue (Some (PInt32 20)) 1 1 (-1) in
  let levels := levels.mk 0 0 0 in
  let inherited := levels.mk 1 0 1 in
  let t := TPrim Int32 0 in
  exists reconstruct f,
    reconstructFuncOfFuel 1 0 (Leaf IsRequired Int32) = Compiled 1 reconstruct /\
    reconstructFuncOfRepeated (reconstructFuncOfFuel 1) 0 (Leaf IsRepeated Int32)
    = Compiled 1 f /\
    (forall result,
       f (VSlice t None) levels [first; second] = Some result ->
       repeats reconstruct 0 t [] [] inherited [first; second] result) /\
    (consumes reconstruct ->
     forall result,
       repeats reconstruct 0 t [] [] inherited [first; second] result ->
       exists value,
         f (VSlice t None) levels [first; second]
         = Some (value, result.1.2, result.2) /\
         (result.2 = None -> value = result.1.1)) /\
    (repetitionLevel first <> levels.repetitionLevel levels ->
     f (VSlice t None) levels [first; second]
     = Some (VSlice t (Some []), [first; second], None)).
Proof.
  intros first second levels inherited t.
  eexists.
  refine (match reconstructFuncOfRepeated_loop (reconstructFuncOfFuel 1) 0
                  (Leaf IsRepeated Int32) 1 _ t None levels first [second]
                  eq_refl eq_refl _ _
          with ex_intro _ f H => ex_intro _ f (conj eq_refl H) end).
  - unfold len. simpl. lia.
  - vm_compute. intros H; discriminate H.
Defined.

(** C2 (as stated) fails: for the schema [repeated int32] at the levels
    (0, 0, 0) the repetition depth is 1 once incremented, yet the first
    value, at repetition level 0, is consumed. *)
Lemma reconstructFuncOfRepeated_loop_counterexample :
  let first := mkValue (Some (PInt32 10)) 0 1 (-1) in
  let levels := levels.mk 0 0 0 in
  exists f,
    reconstructFuncOf 0 (Leaf IsRepeated Int32) = Compiled 1 f /\
    f (VSlice (TPrim Int32 0) None) levels [first]
    = Some (VSlice (TPrim Int32 0) (Some [VPrim (PInt32 10)]), [], None) /\
    repetitionLevel first <> int8 (levels.repetitionDepth levels + 1).
Proof.
  eexists. split; [reflexivity|]. split; [by vm_compute|]. by vm_compute.
Qed.

(* ===================================================================== *)
(** * The round trip (C1) *)
(* ===================================================================== *)

(** *** Zero values *)

Lemma IsZero_Zero : forall v, IsZero v = true -> Zero (typeOf v) = v.
Proof.
  fix IH 1. intros [p|t [x|]|t [xs|]|fields|kt et [es|]]; simpl; try done.
  - intros Hp%bool_decide_eq_true. by rewrite <- Hp.
  - intros Hfields. f_equal.
    induction fields as [|f fields IHf]; simpl in *; [done|].
    apply andb_true_iff in Hfields as [Hf Hfields].
    f_equal; [by apply IH|by apply IHf].
Qed.

Lemma typeOf_zero_payload p :
  TPrim (kindOf (zeroPayload (kindOf p) (sizeOf p)))
    (sizeOf (zeroPayload (kindOf p) (sizeOf p)))
  = TPrim (kindOf p) (sizeOf p).
Proof. destruct p; simpl; try done. by rewrite repeat_length. Qed.

Lemma Zero_not_pointer v : isPtr v = false -> isPtr (Zero (typeOf v)) = false.
Proof. by destruct v. Qed.

Lemma shaped_not_pointer node v :
  shaped node v -> repetitionOf node <> IsOptional -> isPtr v = false.
Proof.
  induction 1 as [| |element v _ IH| | | | |]; simpl; try done.
  intros _. apply IH. unfold Repeated.
  by rewrite withRepetition_repetitionOf.
Qed.

(** *** Leaves *)

Lemma leaf_roundTrips kind ci :
  0 <= ci <= 127 ->
  exists d rc,
    deconstructFuncOfLeaf ci (Leaf IsRequired kind) = Compiled (ci + 1) d /\
    reconstructFuncOfLeaf ci (Leaf IsRequired kind) = Compiled (ci + 1) rc /\
    roundTrips (Leaf IsRequired kind) ci (ci + 1) d rc.
Proof.
  intros Hci. unfold deconstructFuncOfLeaf, reconstructFuncOfLeaf.
  unfold MaxColumnIndex. rewrite decide_False by lia. simpl.
  do 2 eexists. split; [reflexivity|]. split; [reflexivity|].
  intros levels v Hshaped Hfit.
  inversion Hshaped as [kind' p Hkind| | | |node t elems Hrep| | |]; subst;
    try discriminate.
  eexists. split; [|split; [|split; [|split]]].
  - intros row. simpl. rewrite decide_True by done. simpl. reflexivity.
  - intros _. simpl. split; [by apply ColumnIndex_stored|]. split; [done|lia].
  - constructor; [|done]. rewrite ColumnIndex_stored by done. lia.
  - unfold len. simpl. lia.
  - intros rest _. simpl.
    rewrite decide_False.
    2:{ intros Hne. apply Hne. by apply ColumnIndex_stored. }
    unfold assignValue. simpl.
    rewrite decide_True by apply typeOf_zero_payload. done.
Qed.

(** *** Rows *)

Lemma levelsBelow_nonneg : forall node, 0 <= levelsBelow node.
Proof.
  fix IH 1. intros [rep kind|rep children|rep element|rep key value]; simpl.
  - lia.
  - induction children as [|child children IHc]; simpl; lia.
  - pose proof (IH element). lia.
  - lia.
Qed.

Lemma maxLevels_Required node :
  maxLevels (Required node) = levelsBelow node.
Proof.
  unfold maxLevels, Required.
  by rewrite withRepetition_repetitionOf, withRepetition_levelsBelow.
Qed.

Lemma maxLevels_wrapped node :
  repetitionOf node <> IsRequired -> maxLevels node = 1 + levelsBelow node.
Proof. unfold maxLevels. by destruct (repetitionOf node). Qed.

Lemma nullRow_cons ci k levels :
  1 <= k ->
  nullRow ci k levels
  = mkValue None (levels.repetitionLevel levels)
      (levels.definitionLevel levels) (int8 (Z.lnot ci))
    :: nullRow (ci + 1) (k - 1) levels.
Proof.
  intros Hk. unfold nullRow. rewrite seqZ_cons by lia. simpl.
  by rewrite Z.add_1_r, Z.sub_1_r.
Qed.

Lemma nullRow_len ci k levels : 0 <= k -> len (nullRow ci k levels) = k.
Proof.
  intros Hk. unfold len, nullRow. rewrite length_map, length_seqZ. lia.
Qed.

Lemma nullRow_inv ci k levels :
  0 <= ci <= 127 -> 1 <= k ->
  exists first vs',
    nullRow ci k levels = first :: vs' /\
    ColumnIndex first = ci /\
    repetitionLevel first = levels.repetitionLevel levels /\
    definitionLevel first = levels.definitionLevel levels.
Proof.
  intros Hci Hk. rewrite nullRow_cons by done.
  do 2 eexists. split; [reflexivity|]. split; [|done].
  pose proof (ColumnIndex_stored ci (levels.repetitionLevel levels)
                (levels.definitionLevel levels) None Hci) as Hcol.
  by rewrite (int8_small ci) in Hcol by lia.
Qed.

Lemma nullRow_columns ci k levels :
  0 <= ci -> ci + k <= 128 ->
  Forall (fun x => ci <= ColumnIndex x < ci + k) (nullRow ci k levels).
Proof.
  intros Hci Hk. unfold nullRow. apply Forall_fmap, Forall_forall.
  intros c [Hlo Hhi]%elem_of_seqZ. simpl.
  pose proof (ColumnIndex_stored c (levels.repetitionLevel levels)
                (levels.definitionLevel levels) None) as Hcol.
  rewrite (int8_small c) in Hcol by lia. rewrite Hcol by lia. lia.
Qed.

(** A node without columns has no values. *)
Lemma no_columns (ci : Z) (vs : Row) :
  Forall (fun x => ci <= ColumnIndex x < ci) vs -> vs = [].
Proof. destruct vs as [|x vs]; [done|]. intros [? _]%Forall_cons. lia. Qed.

Lemma startsAt_app ci levels vs vs' :
  startsAt ci levels vs -> startsAt ci levels (vs ++ vs').
Proof. by destruct vs. Qed.

Lemma nullRow_startsAt ci k levels :
  0 <= ci <= 127 -> 1 <= k -> startsAt ci levels (nullRow ci k levels).
Proof.
  intros Hci Hk.
  destruct (nullRow_inv ci k levels Hci Hk) as (first & vs' & -> & ? & ? & ?).
  simpl. split; [done|]. split; [done|lia].
Qed.

Lemma slice_suffix {A} (vs rest : list A) :
  slice (vs ++ rest) (len vs) (len (vs ++ rest)) = Some rest.
Proof.
  unfold slice. pose proof (len_nonneg vs). pose proof (len_nonneg rest).
  rewrite len_app. rewrite decide_True by lia.
  replace (len vs + len rest - len vs) with (len rest) by lia.
  unfold len. rewrite !Nat2Z.id. rewrite drop_app_length.
  by rewrite firstn_all.
Qed.

(** What the reconstructors of optional and of repeated nodes read of a row
    before they descend. *)
Lemma startsAt_inv ci levels vs :
  startsAt ci levels vs ->
  exists first vs',
    vs = first :: vs' /\
    ColumnIndex first = ci /\
    repetitionLevel first = levels.repetitionLevel levels /\
    levels.definitionLevel levels <= definitionLevel first.
Proof. destruct vs as [|first vs']; [done|]. intros (? & ? & ?). eauto 10. Qed.

Lemma levels_definitionLevel_succ levels node :
  levelsFit levels node -> repetitionOf node <> IsRequired ->
  int8 (levels.definitionLevel levels + 1) = levels.definitionLevel levels + 1.
Proof.
  intros (_ & _ & ? & ?) Hrep. rewrite (maxLevels_wrapped _ Hrep) in *.
  pose proof (levelsBelow_nonneg node). apply int8_small. lia.
Qed.

Lemma levels_repetitionDepth_succ levels node :
  levelsFit levels node -> repetitionOf node <> IsRequired ->
  int8 (levels.repetitionDepth levels + 1) = levels.repetitionDepth levels + 1.
Proof.
  intros (? & ? & _ & _) Hrep. rewrite (maxLevels_wrapped _ Hrep) in *.
  pose proof (levelsBelow_nonneg node). apply int8_small. lia.
Qed.

Lemma startsWith_cons_app first (vs' rest : Row) ci :
  ColumnIndex first = ci -> startsWith ((first :: vs') ++ rest) ci = true.
Proof. intros. simpl. by apply bool_decide_eq_true_2. Qed.

Lemma idx_cons_app {A} (first : A) (vs' rest : list A) :
  idx ((first :: vs') ++ rest) 0 = Some first.
Proof. reflexivity. Qed.

(** *** Optional nodes *)

Lemma optional_roundTrips
    (recD : Z -> Node -> compiled deconstructFunc)
    (recR : Z -> Node -> compiled reconstructFunc)
    (node : Node) (ci k : Z) (d0 : deconstructFunc) (rc0 : reconstructFunc) :
  repetitionOf node = IsOptional ->
  0 <= ci -> 1 <= k -> ci + k <= 128 ->
  recD ci (Required node) = Compiled (ci + k) d0 ->
  recR ci (Required node) = Compiled (ci + k) rc0 ->
  emitsNulls ci k d0 ->
  roundTrips (Required node) ci (ci + k) d0 rc0 ->
  exists d rc,
    deconstructFuncOfOptional recD ci node = Compiled (ci + k) d /\
    reconstructFuncOfOptional recR ci node = Compiled (ci + k) rc /\
    emitsNulls ci k d /\
    roundTrips node ci (ci + k) d rc.
Proof.
  intros Hrep Hci Hk Hbound HrecD HrecR Hnull Hround.
  unfold deconstructFuncOfOptional, reconstructFuncOfOptional.
  rewrite HrecD, HrecR. replace (ci + k - ci) with k by lia.
  do 2 eexists. split; [reflexivity|]. split; [reflexivity|].
  split; [intros row levels; apply Hnull|].
  intros levels v Hshaped Hfit.
  assert (repetitionOf node <> IsRequired) as Hwrapped by congruence.
  pose proof (levels_definitionLevel_succ _ _ Hfit Hwrapped) as HD.
  assert (levelsFit
            (levels.mk (levels.repetitionDepth levels)
               (levels.repetitionLevel levels)
               (levels.definitionLevel levels + 1)) (Required node)) as Hfit'.
  { destruct Hfit as (? & ? & ? & ?).
    rewrite (maxLevels_wrapped _ Hwrapped) in *.
    unfold levelsFit. rewrite maxLevels_Required. simpl. lia. }
  assert (IsZero v = true \/
          IsZero v = false /\
          exists v0, shaped (Required node) v0 /\
            (if isPtr v then Elem v else Some (Some v)) = Some (Some v0) /\
            (forall rc_levels row,
              (match Zero (typeOf v) with
               | VPtr t target =>
                   '(elem, row, err) ← rc0 (default (Zero t) target) rc_levels row;
                   Some (VPtr t (Some elem), row, err)
               | _ => rc0 (Zero (typeOf v)) rc_levels row
               end)
              = ('(elem, row, err) ← rc0 (Zero (typeOf v0)) rc_levels row;
                 Some (if isPtr v then VPtr (typeOf v0) (Some elem) else elem,
                       row, err))) /\
            (if isPtr v then VPtr (typeOf v0) (Some v0) else v0) = v)
    as [Hzero|(Hnonzero & v0 & Hshaped0 & Helem & Hdest & Hv)].
  { inversion Hshaped as [| | | |node' t elems Hrep'|node' v' _ Hzero
                          |node' v0 _ Hshaped0|node' v0 _ Hnonzero Hshaped0];
      subst; try (simpl in Hrep; discriminate); try congruence.
    - by left.
    - right. split; [done|]. exists v0. simpl. split; [done|].
      split; [done|]. split; [|done]. intros rc_levels row. reflexivity.
    - right. split; [done|]. exists v.
      assert (isPtr v = false) as Hptr.
      { apply (shaped_not_pointer _ _ Hshaped0). unfold Required.
        by rewrite withRepetition_repetitionOf. }
      rewrite Hptr. split; [done|]. split; [done|]. split; [|done].
      intros rc_levels row. pose proof (Zero_not_pointer v Hptr) as Hz.
      destruct (Zero (typeOf v)); try discriminate;
        by destruct (rc0 _ rc_levels row) as [[[? ?] ?]|]. }
  - (* a null *)
    exists (nullRow ci k levels).
    split; [intros row; rewrite Hzero; apply Hnull|].
    split; [intros _; apply nullRow_startsAt; lia|].
    split; [by apply nullRow_columns|].
    split; [rewrite nullRow_len; lia|].
    intros rest _.
    pose proof (nullRow_len ci k levels) as Hlen.
    destruct (nullRow_inv ci k levels) as (first & vs' & Hrow & Hcol & _ & Hdef);
      [lia..|].
    rewrite Hrow in *. rewrite startsWith_cons_app by done. cbn [negb].
    pose proof (len_nonneg rest).
    rewrite decide_False by (rewrite len_app; lia).
    rewrite idx_cons_app. cbn [mbind option_bind].
    cbn [levels.definitionLevel]. rewrite HD.
    rewrite decide_True by lia.
    rewrite <- Hlen at 1 by lia.
    rewrite slice_suffix. cbn [mbind option_bind].
    by rewrite (IsZero_Zero v Hzero), (IsZero_Zero v Hzero).
  - (* a value *)
    destruct (Hround _ v0 Hshaped0 Hfit')
      as (vs & Hd & Hstart & Hrange & Hlen & Hrc).
    specialize (Hstart ltac:(lia)).
    exists vs. split; [|split; [|split; [|split]]].
    + intros row. rewrite Hnonzero, Helem. cbn [mbind option_bind].
      rewrite HD. apply Hd.
    + intros _. destruct vs as [|first vs']; [done|].
      destruct Hstart as (? & ? & ?). repeat split; simpl in *; try done. lia.
    + done.
    + done.
    + intros rest Hstop.
      destruct (startsAt_inv _ _ _ Hstart)
        as (first & vs' & -> & Hcol & _ & Hdef).
      rewrite startsWith_cons_app by done.
      cbn [negb]. pose proof (len_nonneg rest).
      rewrite decide_False by (rewrite len_app; lia).
      rewrite idx_cons_app. cbn [mbind option_bind].
      cbn [levels.definitionLevel levels.repetitionDepth
             levels.repetitionLevel] in *. rewrite HD.
      rewrite decide_False by lia.
      rewrite Hdest. rewrite (Hrc rest Hstop). cbn [mbind option_bind].
      by rewrite Hv.
Qed.

(** *** Repeated nodes *)

Lemma stopsAt_mono ci n depth depth' rest :
  depth <= depth' -> stopsAt ci n depth rest -> stopsAt ci n depth' rest.
Proof. intros Hle. destruct rest as [|v rest]; simpl; [done|]. lia. Qed.

Lemma stopsAt_continues ci n levels rest :
  ci < n ->
  stopsAt ci n (levels.repetitionDepth levels - 1) rest ->
  levels.repetitionLevel levels = levels.repetitionDepth levels ->
  continues rest ci levels = false.
Proof.
  intros Hn Hstop HR. destruct rest as [|v rest]; simpl in *; [done|].
  apply andb_false_iff.
  destruct Hstop as [Hcol|Hlevel].
  - left. apply bool_decide_eq_false_2. lia.
  - right. apply bool_decide_eq_false_2. lia.
Qed.

Lemma startsAt_continues ci levels vs rest :
  startsAt ci levels vs -> continues (vs ++ rest) ci levels = true.
Proof.
  intros (first & vs' & -> & Hcol & HR & _)%startsAt_inv. simpl.
  by rewrite !bool_decide_eq_true_2.
Qed.

Lemma startsAt_stopsAt ci n levels vs rest :
  startsAt ci levels vs ->
  levels.repetitionLevel levels <= levels.repetitionDepth levels ->
  stopsAt ci n (levels.repetitionDepth levels) (vs ++ rest).
Proof.
  intros (first & vs' & -> & _ & HR & _)%startsAt_inv Hle. simpl. lia.
Qed.

Section Elements.
Variable node : Node.
Variables ci n : Z.
Variable d0 : deconstructFunc.
Variable rc0 : reconstructFunc.
Variable t : gotype.
Hypothesis Hn : ci < n.
Hypothesis Hround : roundTrips node ci n d0 rc0.

(** One turn of the two loops: the element [elem] at the levels
    [levels], then the elements [elems], whose values are [vs'], at the
    levels that the loops set after a turn. *)
Lemma elements_step (elem : govalue) (elems : list govalue)
    (levels : levels.t) (vs' : Row) :
  shaped node elem ->
  typeOf elem = t ->
  levelsFit levels node ->
  let levels' :=
    levels.mk (levels.repetitionDepth levels)
      (levels.repetitionDepth levels) (levels.definitionLevel levels) in
  (forall row, deconstructElements d0 elems row levels' = Some (row ++ vs')) ->
  (forall rest,
     stopsAt ci n (levels.repetitionDepth levels - 1) rest ->
     stopsAt ci n (levels.repetitionDepth levels) (vs' ++ rest)) ->
  (forall rest acc k fuel,
     stopsAt ci n (levels.repetitionDepth levels - 1) rest ->
     (length elems <= fuel)%nat ->
     0 < len acc + Z.of_nat k ->
     reconstructElements fuel rc0 ci t (acc ++ repeat (Zero t) k)
       (len acc) (len acc + Z.of_nat k) levels' (vs' ++ rest)
     = Some (VSlice t (Some (acc ++ elems)), rest, None)) ->
  exists vs,
    (forall row,
       deconstructElements d0 (elem :: elems) row levels
       = Some (row ++ vs ++ vs')) /\
    startsAt ci levels vs /\
    Forall (fun x => ci <= ColumnIndex x < n) vs /\
    n - ci <= len vs /\
    (forall rest acc k fuel,
       stopsAt ci n (levels.repetitionDepth levels - 1) rest ->
       (length (elem :: elems) <= fuel)%nat ->
       0 < len acc + Z.of_nat k ->
       reconstructElements fuel rc0 ci t (acc ++ repeat (Zero t) k)
         (len acc) (len acc + Z.of_nat k) levels ((vs ++ vs') ++ rest)
       = Some (VSlice t (Some (acc ++ elem :: elems)), rest, None)).
Proof.
  intros Helem Htype Hfit levels' Hd' Hstop' Hloop'.
  destruct (Hround levels elem Helem Hfit)
    as (vs & Hd & Hstart & Hrange & Hlen & Hrc).
  specialize (Hstart Hn).
  exists vs. split; [|split; [done|split; [done|split; [done|]]]].
  - intros row. simpl. rewrite Hd. simpl. fold levels'. rewrite Hd'.
    by rewrite app_assoc.
  - intros rest acc k fuel Hstop Hfuel Hc.
    destruct fuel as [|fuel]; [simpl in Hfuel; lia|].
    rewrite reconstructElements_unfold.
    rewrite <- app_assoc.
    rewrite (startsAt_continues ci levels vs _ Hstart).
    destruct (buffer_grow t acc k Hc) as [k' ->].
    rewrite buffer_slot by lia. simpl.
    rewrite <- Htype. rewrite (Hrc _ (Hstop' rest Hstop)). simpl.
    rewrite Htype. rewrite buffer_store. fold levels'.
    pose proof (len_nonneg acc).
    specialize (Hloop' rest (acc ++ [elem]) k' fuel Hstop).
    rewrite len_snoc in Hloop'.
    replace (len acc + 1 + Z.of_nat k') with (len acc + Z.of_nat (S k'))
      in Hloop' by lia.
    rewrite Hloop'; [|simpl in Hfuel; lia|lia].
    by rewrite <- app_assoc.
Qed.

Lemma elements_roundTrip (elems : list govalue) (levels : levels.t) :
  Forall (shaped node) elems ->
  Forall (fun elem => typeOf elem = t) elems ->
  levelsFit levels node ->
  levels.repetitionLevel levels = levels.repetitionDepth levels ->
  exists vs,
    (forall row, deconstructElements d0 elems row levels = Some (row ++ vs)) /\
    Forall (fun x => ci <= ColumnIndex x < n) vs /\
    (length elems <= length vs)%nat /\
    (forall rest,
       stopsAt ci n (levels.repetitionDepth levels - 1) rest ->
       stopsAt ci n (levels.repetitionDepth levels) (vs ++ rest)) /\
    (forall rest acc k fuel,
       stopsAt ci n (levels.repetitionDepth levels - 1) rest ->
       (length elems <= fuel)%nat ->
       0 < len acc + Z.of_nat k ->
       reconstructElements fuel rc0 ci t (acc ++ repeat (Zero t) k)
         (len acc) (len acc + Z.of_nat k) levels (vs ++ rest)
       = Some (VSlice t (Some (acc ++ elems)), rest, None)).
Proof.
  intros Hshaped Htyped Hfit HR.
  assert (levels.mk (levels.repetitionDepth levels)
            (levels.repetitionDepth levels)
            (levels.definitionLevel levels) = levels) as Hlevels.
  { destruct levels as [depth R D]. simpl in *. by subst. }
  induction Hshaped as [|elem elems Helem Hshaped IH].
  { exists []. split; [|split; [|split; [|split]]].
    - intros row. simpl. by rewrite app_nil_r.
    - done.
    - done.
    - intros rest. apply stopsAt_mono. lia.
    - intros rest acc k fuel Hstop _ Hc. simpl.
      rewrite reconstructElements_unfold.
      rewrite (stopsAt_continues ci n levels rest Hn Hstop HR).
      by rewrite buffer_trim, app_nil_r. }
  apply Forall_cons in Htyped as [Htype Htyped].
  destruct (IH Htyped) as (vs' & Hd' & Hrange' & Hlen' & Hstop' & Hloop').
  destruct (elements_step elem elems levels vs' Helem Htype Hfit)
    as (vs & Hd & Hstart & Hrange & Hlen & Hloop); rewrite ?Hlevels; try done.
  exists (vs ++ vs'). split; [done|]. split; [|split; [|split; [|done]]].
  - apply Forall_app. by split.
  - rewrite length_app. simpl.
    assert (0 < length vs)%nat; [|lia].
    unfold len in Hlen. lia.
  - intros rest _. rewrite <- app_assoc.
    apply startsAt_stopsAt; [done|lia].
Qed.
End Elements.

Lemma reconstructFuncOfRepeated_branches
    (rec : Z -> Node -> compiled reconstructFunc) (ci : Z) (node : Node)
    (next : Z) (reconstruct : reconstructFunc) :
  rec ci (Required node) = Compiled next reconstruct ->
  exists f,
    reconstructFuncOfRepeated rec ci node = Compiled next f /\
    (forall t elems levels first rest,
       ColumnIndex first = ci ->
       next - ci <= len (first :: rest) ->
       definitionLevel first < int8 (levels.definitionLevel levels + 1) ->
       f (VSlice t elems) levels (first :: rest)
       = (row ← slice (first :: rest) (next - ci) (len (first :: rest));
          Some (VSlice t (Some []), row, None))) /\
    (forall t elems levels first rest,
       default [] elems = [] ->
       ColumnIndex first = ci ->
       next - ci <= len (first :: rest) ->
       ~ definitionLevel first < int8 (levels.definitionLevel levels + 1) ->
       f (VSlice t elems) levels (first :: rest)
       = reconstructElements (S (length (first :: rest))) reconstruct ci t
           ([] ++ repeat (Zero t) 10) (len (@nil govalue))
           (len (@nil govalue) + Z.of_nat 10)
           (levels.mk (int8 (levels.repetitionDepth levels + 1))
              (levels.repetitionLevel levels)
              (int8 (levels.definitionLevel levels + 1)))
           (first :: rest)).
Proof.
  intros Hrec. unfold reconstructFuncOfRepeated. rewrite Hrec.
  eexists. split; [reflexivity|]. split.
  - intros t elems levels first rest Hci Hlen Hdef.
    cbv beta. unfold startsWith. rewrite bool_decide_eq_true_2 by done.
    cbn [negb]. rewrite decide_False by lia.
    change (idx (first :: rest) 0) with (Some first). cbn [mbind option_bind].
    by rewrite decide_True by done.
  - intros t elems levels first rest Helems Hci Hlen Hdef.
    cbv beta. unfold startsWith. rewrite bool_decide_eq_true_2 by done.
    cbn [negb]. rewrite decide_False by lia.
    change (idx (first :: rest) 0) with (Some first). cbn [mbind option_bind].
    rewrite decide_False by done.
    rewrite Helems. change (len []) with 0. rewrite decide_False by lia.
    reflexivity.
Qed.

Lemma repeated_roundTrips
    (recD : Z -> Node -> compiled deconstructFunc)
    (recR : Z -> Node -> compiled reconstructFunc)
    (node : Node) (ci k : Z) (d0 : deconstructFunc) (rc0 : reconstructFunc) :
  repetitionOf node = IsRepeated ->
  0 <= ci -> 1 <= k -> ci + k <= 128 ->
  recD ci (Required node) = Compiled (ci + k) d0 ->
  recR ci (Required node) = Compiled (ci + k) rc0 ->
  emitsNulls ci k d0 ->
  roundTrips (Required node) ci (ci + k) d0 rc0 ->
  exists d rc,
    deconstructFuncOfRepeated recD ci node = Compiled (ci + k) d /\
    reconstructFuncOfRepeated recR ci node = Compiled (ci + k) rc /\
    emitsNulls ci k d /\
    roundTrips node ci (ci + k) d rc.
Proof.
  intros Hrep Hci Hk Hbound HrecD HrecR Hnull Hround.
  destruct (reconstructFuncOfRepeated_branches recR ci node _ _ HrecR)
    as (rc & -> & Hrc_null & Hrc_loop).
  unfold deconstructFuncOfRepeated. rewrite HrecD.
  replace (ci + k - ci) with k in * by lia.
  do 2 eexists. split; [reflexivity|]. split; [reflexivity|].
  split; [intros row levels; apply Hnull|].
  intros levels v Hshaped Hfit.
  assert (repetitionOf node <> IsRequired) as Hwrapped by congruence.
  pose proof (levels_definitionLevel_succ _ _ Hfit Hwrapped) as HD.
  pose proof (levels_repetitionDepth_succ _ _ Hfit Hwrapped) as HR.
  inversion Hshaped as [| | | |node' t elems _ Helems Htyped| | |];
    subst; try (simpl in Hrep; discriminate); try congruence.
  replace (ci + k - ci) with k by lia. simpl typeOf. simpl Zero.
  destruct elems as [|elem elems].
  - (* an empty slice *)
    exists (nullRow ci k levels).
    split.
    { intros row. simpl. by rewrite Hnull. }
    split; [intros _; apply nullRow_startsAt; lia|].
    split; [by apply nullRow_columns|].
    split; [rewrite nullRow_len; lia|].
    intros rest _.
    pose proof (nullRow_len ci k levels) as Hlen.
    destruct (nullRow_inv ci k levels) as (first & vs' & Hrow & Hcol & _ & Hdef);
      [lia..|].
    rewrite Hrow in *. pose proof (len_nonneg rest).
    change ((first :: vs') ++ rest) with (first :: (vs' ++ rest)).
    rewrite Hrc_null; [|done| |lia].
    2:{ change (first :: (vs' ++ rest)) with ((first :: vs') ++ rest).
        rewrite len_app. lia. }
    change (first :: (vs' ++ rest)) with ((first :: vs') ++ rest).
    rewrite <- Hlen at 1 by lia. by rewrite slice_suffix.
  - (* elements *)
    pose proof (len_nonneg elems).
    assert (len (elem :: elems) = len elems + 1) as Hlen1.
    { unfold len. simpl. lia. }
    apply Forall_cons in Helems as [Helem Helems].
    apply Forall_cons in Htyped as [Htype Htyped].
    set (levels1 := levels.mk (levels.repetitionDepth levels + 1)
                      (levels.repetitionLevel levels)
                      (levels.definitionLevel levels + 1)).
    set (levels2 := levels.mk (levels.repetitionDepth levels + 1)
                      (levels.repetitionDepth levels + 1)
                      (levels.definitionLevel levels + 1)).
    assert (levelsFit levels1 (Required node) /\
            levelsFit levels2 (Required node)) as [Hfit1 Hfit2].
    { destruct Hfit as (? & ? & ? & ?).
      rewrite (maxLevels_wrapped _ Hwrapped) in *.
      unfold levelsFit. rewrite maxLevels_Required. simpl. lia. }
    destruct (elements_roundTrip (Required node) ci (ci + k) d0 rc0 t
                ltac:(lia) Hround elems levels2 Helems Htyped Hfit2 eq_refl)
      as (vs' & Hd' & Hrange' & Hlen' & Hstop' & Hloop').
    destruct (elements_step (Required node) ci (ci + k) d0 rc0 t
                ltac:(lia) Hround
                elem elems levels1 vs' Helem Htype Hfit1 Hd' Hstop' Hloop')
      as (vs & Hd & Hstart & Hrange & Hlen & Hloop).
    exists (vs ++ vs'). split; [|split; [|split; [|split]]].
    + intros row. unfold Len, elements.
      cbn [default from_option id mbind option_bind]. rewrite Hlen1, HD, HR.
      rewrite decide_False by lia. rewrite decide_True by lia.
      apply Hd.
    + intros _. destruct (startsAt_inv _ _ _ Hstart)
        as (first & vs0 & -> & Hcol & HR1 & Hdef).
      simpl in *. repeat split; try done. lia.
    + apply Forall_app. by split.
    + rewrite len_app. pose proof (len_nonneg vs'). lia.
    + intros rest Hstop.
      destruct (startsAt_inv _ _ _ Hstart)
        as (first & vs0 & Hvs & Hcol & HR1 & Hdef).
      simpl in HR1, Hdef.
      assert (exists row', (vs ++ vs') ++ rest = first :: row')
        as [row' Hrow] by (subst vs; simpl; eauto).
      pose proof (len_nonneg vs'). pose proof (len_nonneg rest).
      assert (k <= len ((vs ++ vs') ++ rest)) as Hlong.
      { rewrite !len_app. replace (ci + k - ci) with k in Hlen by lia. lia. }
      rewrite Hrow in *.
      rewrite Hrc_loop; [|done|done|done|rewrite HD; lia].
      rewrite HD, HR. fold levels1. rewrite <- Hrow.
      apply Hloop.
      * simpl.
        replace (levels.repetitionDepth levels + 1 - 1)
          with (levels.repetitionDepth levels) by lia. done.
      * simpl. rewrite !length_app. lia.
      * done.
Qed.

(** *** Groups *)

Lemma leafCount_positive : forall node,
  groupsNonEmpty node = true -> 1 <= leafCount node.
Proof.
  fix IH 1. intros [rep kind|rep children|rep element|rep key value]; simpl.
  - lia.
  - destruct children as [|child children]; [done|]. simpl.
    intros [Hchild _]%andb_true_iff. apply IH in Hchild.
    assert (0 <= foldr (fun child n => leafCount child.2 + n) 0 children).
    { apply leafCount_children_nonneg, Forall_forall.
      intros. apply leafCount_nonneg. }
    lia.
  - apply IH.
  - intros [Hkey _]%andb_true_iff. apply IH in Hkey.
    pose proof (leafCount_nonneg value). lia.
Qed.

Lemma maxLevels_child (children : list (string * Node)) child :
  child ∈ children ->
  maxLevels child.2
  <= foldr (fun child m =>
              Z.max (levelOf (repetitionOf child.2) + levelsBelow child.2) m)
       0 children.
Proof.
  induction 1 as [child cs|child c cs _ IH]; simpl; unfold maxLevels in *; lia.
Qed.

Lemma levelsFit_le levels node node' :
  maxLevels node' <= maxLevels node ->
  levelsFit levels node -> levelsFit levels node'.
Proof. unfold levelsFit. lia. Qed.

(** What the two compilers yield on a node at [ci]: closures up to the same
    next column index, a deconstructor that emits the nulls of the node and
    a reconstructor that undoes it. *)
Section Children.
Variable recD : Z -> Node -> compiled deconstructFunc.
Variable recR : Z -> Node -> compiled reconstructFunc.

Let compiledBoth (node : Node) (ci : Z) : Prop :=
  exists d rc,
    recD ci node = Compiled (ci + leafCount node) d /\
    recR ci node = Compiled (ci + leafCount node) rc /\
    emitsNulls ci (leafCount node) d /\
    roundTrips node ci (ci + leafCount node) d rc.

Lemma children_roundTrips (children : list (string * Node)) :
  (forall child ci, child ∈ children ->
     0 <= ci -> ci + leafCount child.2 <= 128 -> compiledBoth child.2 ci) ->
  forall ci, 0 <= ci ->
  let count := foldr (fun child n => leafCount child.2 + n) 0 children in
  ci + count <= 128 ->
  exists funcsD funcsR,
    deconstructFuncOfChildren recD ci children.*2
    = Compiled (ci + count) funcsD /\
    reconstructFuncOfChildren recR ci children.*2
    = Compiled (ci + count) funcsR /\
    (forall i row levels,
       deconstructFields funcsD i row levels None
       = Some (row ++ nullRow ci count levels)) /\
    (forall fields levels,
       Forall2 (fun child field => shaped child.2 field) children fields ->
       Forall (fun child => levelsFit levels child.2) children ->
       exists vs,
         (forall pre row,
            deconstructFields funcsD (length pre) row levels
              (Some (VStruct (pre ++ fields)))
            = Some (row ++ vs)) /\
         (0 < count -> startsAt ci levels vs) /\
         Forall (fun x => ci <= ColumnIndex x < ci + count) vs /\
         count <= len vs /\
         (forall ci0 rest names pre,
            ci0 <= ci ->
            stopsAt ci0 (ci + count) (levels.repetitionDepth levels) rest ->
            reconstructFields funcsR names (length pre)
              (VStruct (pre ++ map Zero (map typeOf fields))) levels
              (vs ++ rest)
            = Some (VStruct (pre ++ fields), rest, None))).
Proof.
  induction children as [|child children IH];
    intros Hrec ci Hci count Hbound; subst count; csimpl in *.
  { exists [], []. rewrite Z.add_0_r. split; [done|]. split; [done|].
    split.
    { intros. simpl. by rewrite app_nil_r. }
    intros fields levels Hfields _. apply Forall2_nil_inv_l in Hfields as ->.
    exists []. split; [|split; [lia|split; [done|split; [done|]]]].
    - intros pre row. simpl. by rewrite app_nil_r.
    - intros ci0 rest names pre _ _. simpl. by rewrite app_nil_r. }
  pose proof (leafCount_nonneg child.2) as Hpos.
  assert (0 <= foldr (fun child n => leafCount child.2 + n) 0 children) as Hcs.
  { apply leafCount_children_nonneg, Forall_forall.
    intros. apply leafCount_nonneg. }
  destruct (Hrec child ci) as (d & rc & HrecD & HrecR & Hnull & Hround);
    [left|lia|lia|].
  destruct (IH (fun c ci' Hin => Hrec c ci' (list_elem_of_further _ _ _ Hin))
              (ci + leafCount child.2))
    as (funcsD & funcsR & HD & HR & Hnulls & Hrounds); [lia|lia|].
  rewrite HrecD, HrecR, HD, HR.
  exists (d :: funcsD), (rc :: funcsR). rewrite Z.add_assoc.
  split; [done|]. split; [done|]. split.
  { intros i row levels. simpl. rewrite Hnull. simpl.
    rewrite Hnulls. rewrite nullRow_app by lia. by rewrite app_assoc. }
  intros fields levels Hfields Hfit.
  apply Forall2_cons_inv_l in Hfields
    as (field & fields' & Hfield & Hfields & ->).
  apply Forall_cons in Hfit as [Hfit Hfits].
  destruct (Hround levels field Hfield Hfit)
    as (vs & Hd & Hstart & Hrange & Hlen & Hrc).
  destruct (Hrounds fields' levels Hfields Hfits)
    as (vs' & Hd' & Hstart' & Hrange' & Hlen' & Hrc').
  exists (vs ++ vs'). split; [|split; [|split; [|split]]].
  - intros pre row. simpl.
    rewrite list_lookup_middle by done. simpl. rewrite Hd. simpl.
    specialize (Hd' (pre ++ [field]) (row ++ vs)).
    rewrite length_app, <- app_assoc in Hd'. simpl in Hd'.
    rewrite Nat.add_1_r in Hd'. rewrite Hd'. by rewrite app_assoc.
  - intros Hcount.
    destruct (decide (0 < leafCount child.2)) as [Hchild|Hempty].
    + apply startsAt_app, Hstart. lia.
    + assert (leafCount child.2 = 0) as Hzero by lia.
      rewrite Hzero, Z.add_0_r in *.
      rewrite (no_columns ci vs Hrange). simpl. apply Hstart'. lia.
  - apply Forall_app. split.
    + eapply Forall_impl; [exact Hrange|]. simpl. intros x Hx. lia.
    + eapply Forall_impl; [exact Hrange'|]. simpl. intros x Hx. lia.
  - rewrite len_app. lia.
  - intros ci0 rest names pre Hci0 Hstop. simpl.
    rewrite list_lookup_middle by done. simpl.
    rewrite <- app_assoc. rewrite Hrc.
    2:{ destruct vs' as [|x vs''].
        - simpl. destruct rest as [|v rest]; [done|].
          simpl in *. lia.
        - apply Forall_cons in Hrange' as [Hx _]. simpl. lia. }
    simpl. rewrite insert_app_r_alt by done. rewrite Nat.sub_diag. simpl.
    specialize (Hrc' ci0 rest names (pre ++ [field])).
    rewrite length_app, <- app_assoc in Hrc'. simpl in Hrc'.
    rewrite Nat.add_1_r in Hrc'. rewrite Hrc'; [|lia|done].
    by rewrite <- app_assoc.
Qed.
End Children.

(** *** Maps *)

Lemma SetMapIndex_fresh (entries : list (govalue * govalue)) key elem :
  key ∉ entries.*1 -> SetMapIndex entries key elem = entries ++ [(key, elem)].
Proof.
  induction entries as [|[k e] entries IH]; csimpl; [done|].
  intros [Hne Hnotin]%not_elem_of_cons.
  rewrite decide_False by done. by rewrite IH.
Qed.

Lemma setMapEntries_fresh (entries acc : list (govalue * govalue)) :
  NoDup (acc ++ entries).*1 ->
  setMapEntries (map (fun '(k, e) => VStruct [k; e]) entries) acc
  = Some (acc ++ entries).
Proof.
  revert acc. induction entries as [|[k e] entries IH]; intros acc Hnodup.
  { simpl. by rewrite app_nil_r. }
  simpl. rewrite SetMapIndex_fresh.
  - rewrite IH; [by rewrite <- app_assoc|]. by rewrite <- app_assoc.
  - rewrite fmap_app in Hnodup. csimpl in Hnodup.
    apply NoDup_app in Hnodup as (_ & Hdisjoint & _).
    intros Hin. apply (Hdisjoint k Hin). left.
Qed.

Lemma map_roundTrips
    (recD : Z -> Node -> compiled deconstructFunc)
    (recR : Z -> Node -> compiled reconstructFunc)
    (key value : Node) (ci n : Z) (d0 : deconstructFunc) (rc0 : reconstructFunc) :
  let node := MapOf IsRequired key value in
  recD ci (Repeated (mapKeyValueOf node)) = Compiled n d0 ->
  recR ci (Repeated (mapKeyValueOf node)) = Compiled n rc0 ->
  emitsNulls ci (n - ci) d0 ->
  roundTrips (Repeated (mapKeyValueOf node)) ci n d0 rc0 ->
  exists d rc,
    deconstructFuncOfMap recD ci node = Compiled n d /\
    reconstructFuncOfMap recR ci node = Compiled n rc /\
    emitsNulls ci (n - ci) d /\
    roundTrips node ci n d rc.
Proof.
  intros node HrecD HrecR Hnull Hround.
  unfold deconstructFuncOfMap, reconstructFuncOfMap.
  rewrite HrecD, HrecR.
  do 2 eexists. split; [reflexivity|]. split; [reflexivity|].
  split; [intros row levels; apply Hnull|].
  intros levels v Hshaped Hfit.
  inversion Hshaped as [| | |key' value' kt et entries Hnodup Hslice
                        |node' t elems Hrep| | |];
    subst; try (simpl in *; discriminate).
  destruct (Hround levels _ Hslice)
    as (vs & Hd & Hstart & Hrange & Hlen & Hrc).
  { revert Hfit. apply levelsFit_le. unfold maxLevels. simpl. lia. }
  exists vs. split; [|split; [done|split; [done|split; [done|]]]].
  - intros row. simpl. apply Hd.
  - intros rest Hstop. simpl. simpl in Hrc. rewrite (Hrc rest Hstop). simpl.
    rewrite (setMapEntries_fresh entries []) by done. done.
Qed.

(** *** The two compilers, node by node *)

Lemma fuelOf_Required node :
  repetitionOf node <> IsRequired ->
  (fuelOf (Required node) < fuelOf node)%nat.
Proof.
  intros Hrep. unfold fuelOf, Required.
  rewrite withRepetition_fuelRequired, withRepetition_repetitionOf.
  destruct (repetitionOf node); simpl; done || lia.
Qed.

Section Body.
Variable recD : Z -> Node -> compiled deconstructFunc.
Variable recR : Z -> Node -> compiled reconstructFunc.

Let compiledBoth (rD : compiled deconstructFunc)
    (rR : compiled reconstructFunc) (node : Node) (ci : Z) : Prop :=
  exists d rc,
    rD = Compiled (ci + leafCount node) d /\
    rR = Compiled (ci + leafCount node) rc /\
    emitsNulls ci (leafCount node) d /\
    roundTrips node ci (ci + leafCount node) d rc.

Lemma body_roundTrips (node : Node) (ci : Z) :
  (forall node' ci',
     (fuelOf node' < fuelOf node)%nat ->
     0 <= ci' -> ci' + leafCount node' <= 128 ->
     levelsHaveColumns node' = true ->
     compiledBoth (recD ci' node') (recR ci' node') node' ci') ->
  0 <= ci -> ci + leafCount node <= 128 ->
  levelsHaveColumns node = true ->
  compiledBoth (deconstructFuncOfBody recD ci node)
    (reconstructFuncOfBody recR ci node) node ci.
Proof.
  intros Hrec Hci Hbound Hcolumns.
  unfold levelsHaveColumns in Hcolumns.
  apply andb_true_iff in Hcolumns as [Hwrapped Hbelow].
  unfold deconstructFuncOfBody, reconstructFuncOfBody.
  destruct (Node_Optional node) eqn:Hopt.
  { assert (repetitionOf node = IsOptional) as Hrep.
    { unfold Node_Optional in Hopt. by destruct (repetitionOf node). }
    rewrite Hrep in Hwrapped. apply bool_decide_eq_true in Hwrapped.
    destruct (Hrec (Required node) ci)
      as (d0 & rc0 & HrecD & HrecR & Hnull & Hround).
    - apply fuelOf_Required. congruence.
    - done.
    - unfold Required. by rewrite withRepetition_leafCount.
    - unfold levelsHaveColumns, Required.
      by rewrite withRepetition_repetitionOf, withRepetition_columnsBelow.
    - unfold Required in *. rewrite withRepetition_leafCount in *.
      by apply (optional_roundTrips recD recR node ci (leafCount node) d0 rc0). }
  destruct (Node_Repeated node) eqn:Hrepeated.
  { assert (repetitionOf node = IsRepeated) as Hrep.
    { unfold Node_Repeated in Hrepeated. by destruct (repetitionOf node). }
    rewrite Hrep in Hwrapped. apply bool_decide_eq_true in Hwrapped.
    destruct (Hrec (Required node) ci)
      as (d0 & rc0 & HrecD & HrecR & Hnull & Hround).
    - apply fuelOf_Required. congruence.
    - done.
    - unfold Required. by rewrite withRepetition_leafCount.
    - unfold levelsHaveColumns, Required.
      by rewrite withRepetition_repetitionOf, withRepetition_columnsBelow.
    - unfold Required in *. rewrite withRepetition_leafCount in *.
      by apply (repeated_roundTrips recD recR node ci (leafCount node) d0 rc0). }
  assert (repetitionOf node = IsRequired) as Hreq.
  { unfold Node_Optional, Node_Repeated in *. by destruct (repetitionOf node). }
  destruct node as [rep kind|rep children|rep element|rep key value];
    simpl in Hreq; subst rep; simpl isList; simpl isMap; cbv iota.
  - (* leaf *)
    unfold deconstructFuncOfRequired, reconstructFuncOfRequired. simpl isLeaf.
    cbv iota. simpl in Hbound.
    destruct (leaf_roundTrips kind ci) as (d & rc & Hd & Hr & Hround); [lia|].
    exists d, rc. split; [done|]. split; [done|]. split; [|done].
    destruct (deconstructFuncOfBody_compiles recD (Leaf IsRequired kind) ci)
      as [Hok _]; [|lia|].
    { intros node' ci' Hfuel. unfold fuelOf in Hfuel. simpl in Hfuel.
      destruct node'; simpl in Hfuel; lia. }
    destruct Hok as (d' & Hd' & Hnull); [simpl; lia|].
    unfold deconstructFuncOfBody, deconstructFuncOfRequired in Hd'.
    simpl in Hd'. rewrite Hd in Hd'. by injection Hd' as <-.
  - (* group *)
    unfold deconstructFuncOfRequired, reconstructFuncOfRequired. simpl isLeaf.
    cbv iota. unfold deconstructFuncOfGroup, reconstructFuncOfGroup.
    simpl Children. simpl in Hbelow, Hbound.
    pose proof (proj1 (forallb_forall _ _) Hbelow) as Hall.
    destruct (children_roundTrips recD recR children) with (ci := ci)
      as (funcsD & funcsR & -> & -> & Hnulls & Hrounds); [|done|done|].
    { intros child ci' Hin Hci' Hbound'. apply Hrec; [|done|done|].
      - pose proof (fuelOf_child _ _ Hin). unfold fuelOf at 2. simpl. lia.
      - apply (Hall child). by apply list_elem_of_In. }
    do 2 eexists. split; [reflexivity|]. split; [reflexivity|].
    split; [intros row levels; apply Hnulls|].
    intros levels v Hshaped Hfit.
    inversion Hshaped as [|children' fields Hfields| | |node' t elems Hrep| | |];
      subst; try (simpl in *; discriminate).
    destruct (Hrounds fields levels Hfields)
      as (vs & Hd & Hstart & Hrange & Hlen & Hrc).
    { apply Forall_forall. intros child Hin. revert Hfit.
      apply levelsFit_le. unfold maxLevels at 2. simpl.
      by apply maxLevels_child. }
    exists vs. split; [|split; [|split; [|split]]].
    + intros row. apply (Hd []).
    + intros Hcount. apply Hstart. simpl in Hcount. lia.
    + done.
    + simpl. lia.
    + intros rest Hstop. simpl typeOf. simpl Zero.
      apply (Hrc ci rest _ []); [lia|done].
  - (* list *)
    unfold deconstructFuncOfList, reconstructFuncOfList. simpl listElementOf.
    simpl in Hbound, Hbelow.
    destruct (Hrec (Repeated element) ci)
      as (d & rc & HrecD & HrecR & Hnull & Hround).
    + unfold fuelOf, Repeated.
      rewrite withRepetition_fuelRequired, withRepetition_repetitionOf.
      simpl. lia.
    + done.
    + unfold Repeated. by rewrite withRepetition_leafCount.
    + unfold levelsHaveColumns, Repeated.
      rewrite withRepetition_repetitionOf, withRepetition_columnsBelow,
        withRepetition_leafCount. exact Hbelow.
    + unfold Repeated in HrecD, HrecR, Hnull, Hround.
      rewrite withRepetition_leafCount in *.
      exists d, rc. split; [done|]. split; [done|]. split; [done|].
      intros levels v Hshaped Hfit.
      inversion Hshaped as [| |element' v' Hlist| |node' t elems Hrep| | |];
        subst; try (simpl in *; discriminate).
      apply Hround; [done|]. revert Hfit. apply levelsFit_le.
      unfold maxLevels.
      rewrite withRepetition_repetitionOf, withRepetition_levelsBelow.
      simpl. lia.
  - (* map *)
    simpl in Hbound, Hbelow.
    apply andb_true_iff in Hbelow as [[Hpair Hkey]%andb_true_iff Hvalue].
    destruct (Hrec (Repeated (mapKeyValueOf (MapOf IsRequired key value))) ci)
      as (d0 & rc0 & HrecD & HrecR & Hnull & Hround).
    + unfold fuelOf. simpl. lia.
    + done.
    + simpl. lia.
    + unfold levelsHaveColumns. simpl. rewrite Z.add_0_r.
      by rewrite Hpair, Hkey, Hvalue.
    + simpl leafCount in *.
      replace (leafCount key + (leafCount value + 0))
        with (leafCount key + leafCount value) in * by lia.
      destruct (map_roundTrips recD recR key value ci
                  (ci + (leafCount key + leafCount value)) d0 rc0)
        as (d & rc & Hd & Hr & Hnull' & Hround'); try done.
      { by replace (ci + (leafCount key + leafCount value) - ci)
          with (leafCount key + leafCount value) by lia. }
      exists d, rc. split; [done|]. split; [done|]. split; [|done].
      by replace (ci + (leafCount key + leafCount value) - ci)
        with (leafCount key + leafCount value) in Hnull' by lia.
Qed.
End Body.

Lemma compilers_roundTrip (fuel : nat) :
  forall node ci,
    (fuelOf node <= fuel)%nat ->
    0 <= ci -> ci + leafCount node <= 128 ->
    levelsHaveColumns node = true ->
    exists d rc,
      deconstructFuncOfFuel fuel ci node = Compiled (ci + leafCount node) d /\
      reconstructFuncOfFuel fuel ci node = Compiled (ci + leafCount node) rc /\
      emitsNulls ci (leafCount node) d /\
      roundTrips node ci (ci + leafCount node) d rc.
Proof.
  induction fuel as [|fuel IH]; intros node ci Hfuel Hci Hbound Hgroups.
  { unfold fuelOf in Hfuel. destruct node; simpl in Hfuel; lia. }
  simpl. apply body_roundTrips; try done.
  intros node' ci' Hlt Hci' Hbound' Hgroups'. apply IH; [lia|done..].
Qed.

(** A schema whose groups all have a child is one whose optional and
    repeated nodes all have a leaf column. *)
Lemma groupsNonEmpty_columnsBelow : forall node,
  groupsNonEmpty node = true -> columnsBelow node = true.
Proof.
  fix IH 1. intros [rep kind|rep children|rep element|rep key value]; simpl.
  - done.
  - intros [_ Hall]%andb_true_iff.
    induction children as [|child children IHc]; simpl in *; [done|].
    apply andb_true_iff in Hall as [Hchild Hall].
    rewrite (IH _ Hchild), (IHc Hall).
    pose proof (leafCount_positive _ Hchild).
    unfold wrappedHasColumn. destruct (repetitionOf child.2); try done;
      by rewrite bool_decide_eq_true_2.
  - intros Helement. rewrite (IH _ Helement).
    pose proof (leafCount_positive _ Helement).
    by rewrite bool_decide_eq_true_2.
  - intros [Hkey Hvalue]%andb_true_iff.
    rewrite (IH _ Hkey), (IH _ Hvalue).
    pose proof (leafCount_positive _ Hkey).
    pose proof (leafCount_positive _ Hvalue).
    rewrite bool_decide_eq_true_2 by lia.
    unfold wrappedHasColumn.
    destruct (repetitionOf key), (repetitionOf value); try done;
      by rewrite ?bool_decide_eq_true_2.
Qed.

Lemma groupsNonEmpty_levelsHaveColumns node :
  groupsNonEmpty node = true -> levelsHaveColumns node = true.
Proof.
  intros Hgroups. unfold levelsHaveColumns.
  rewrite (groupsNonEmpty_columnsBelow _ Hgroups).
  pose proof (leafCount_positive _ Hgroups).
  unfold wrappedHasColumn. destruct (repetitionOf node); try done;
    by rewrite bool_decide_eq_true_2.
Qed.


(** The fields of a struct and the elements of a slice, one by one. *)
Ltac each_field :=
  repeat match goal with
         | |- Forall2 _ _ _ => constructor
         | |- Forall _ _ => constructor
         end; simpl.



(* ===================================================================== *)
(** * Further properties of the column buffers *)
(* ===================================================================== *)

(** *** Flat columns: what is written is read back *)

Lemma idx_app_l {A} (s t : list A) i :
  0 <= i < len s -> idx (s ++ t) i = idx s i.
Proof.
  intros Hi. unfold idx. rewrite !decide_True by lia.
  apply lookup_app_l. unfold len in Hi. lia.
Qed.

Lemma idx_app_r {A} (s t : list A) i :
  0 <= i -> idx (s ++ t) (len s + i) = idx t i.
Proof.
  intros Hi. pose proof (len_nonneg s). unfold idx.
  rewrite !decide_True by lia.
  rewrite lookup_app_r by (unfold len; lia).
  f_equal. unfold len. lia.
Qed.

Lemma idx_map {A C} (f : A -> C) (s : list A) i :
  idx (map f s) i = f <$> idx s i.
Proof. unfold idx. case_decide; [|done]. apply list_lookup_fmap. Qed.

Lemma flat_WriteRow_values {A} (get : Value -> A) (values : list A) (row : Row) :
  (flat_WriteRow get values row).1 = values ++ map get row.
Proof. unfold flat_WriteRow. simpl. apply foldl_append. Qed.

(** X1: on a flat typed column, [WriteRow] stores one row per value of the
    row it is given: the column grows by the length of the row, the rows
    that it held are read back as before, and the [k]-th value written is
    read back at the index [Len + k], whatever the row read into. *)
Theorem flat_WriteRow_ReadRowAt {A} (get : Value -> A) (make : A -> Value)
    (values : list A) (row dst : Row) :
  let col := (flat_WriteRow get values row).1 in
  flat_Len col = flat_Len values + len row /\
  (forall i, 0 <= i < flat_Len values ->
     flat_ReadRowAt make col dst i = flat_ReadRowAt make values dst i) /\
  (forall k v, idx row k = Some v ->
     flat_ReadRowAt make col dst (flat_Len values + k)
     = Some (dst ++ [make (get v)], None)).
Proof.
  intros col. subst col. rewrite flat_WriteRow_values. unfold flat_Len.
  pose proof (len_nonneg values). pose proof (len_nonneg row).
  split; [by rewrite len_app, len_map|]. split.
  - intros i Hi. unfold flat_ReadRowAt. rewrite len_app, len_map.
    rewrite !decide_False by lia. by rewrite idx_app_l.
  - intros k v Hv. pose proof (idx_inv _ _ _ Hv).
    unfold flat_ReadRowAt. rewrite len_app, len_map.
    rewrite !decide_False by lia.
    rewrite idx_app_r by lia. rewrite idx_map, Hv. done.
Qed.

(** *** The fixed-length column *)

Lemma int_small z : - 2 ^ 63 <= z < 2 ^ 63 -> int z = z.
Proof. intros. unfold int. rewrite Z.mod_small; lia. Qed.

(** The [i]-th value of the column: [size] bytes from the offset
    [i * size]. *)
Lemma slice_take_drop {A} (s : list A) lo hi :
  0 <= lo -> lo <= hi -> hi <= len s ->
  slice s lo hi = Some (take (Z.to_nat (hi - lo)) (drop (Z.to_nat lo) s)).
Proof. intros. unfold slice. by rewrite decide_True. Qed.

(** X2: when the products [index * size] and [(index + 1) * size] do not
    overflow, [ReadRowAt] on a fixed-length column with a positive size
    reports the index out of bounds for a negative index, the end of the
    rows for an index whose value is not complete in the data, and
    otherwise appends the [size] bytes at the offset [index * size]. *)
Theorem fixedLenByteArrayBufferColumn_ReadRowAt_bounds
    (col : fixedLen.t) (row : Row) (index : Z) :
  0 < fixedLen.size col ->
  - 2 ^ 63 <= index * fixedLen.size col ->
  (index + 1) * fixedLen.size col < 2 ^ 63 ->
  (index < 0 ->
   fixedLenByteArrayBufferColumn_ReadRowAt col row index
   = Some (row, Some (errRowIndexOutOfBounds index
                        (len (fixedLen.data col) ÷ fixedLen.size col)))) /\
  (0 <= index -> (index + 1) * fixedLen.size col > len (fixedLen.data col) ->
   fixedLenByteArrayBufferColumn_ReadRowAt col row index
   = Some (row, Some io_EOF)) /\
  (0 <= index -> (index + 1) * fixedLen.size col <= len (fixedLen.data col) ->
   fixedLenByteArrayBufferColumn_ReadRowAt col row index
   = Some (row ++ [makeValueBytes FixedLenByteArray
                     (take (Z.to_nat (fixedLen.size col))
                        (drop (Z.to_nat (index * fixedLen.size col))
                           (fixedLen.data col)))], None)).
Proof.
  intros Hsize Hlo Hhi.
  assert (- 2 ^ 63 <= index < 2 ^ 63 - 1) as Hindex by nia.
  unfold fixedLenByteArrayBufferColumn_ReadRowAt.
  rewrite Z.add_0_r, (int_small index), (int_small (index + 1)) by lia.
  rewrite (int_small (index * _)), (int_small ((index + 1) * _)) by nia.
  repeat split.
  - intros Hneg. rewrite decide_True by nia.
    unfold fixedLenByteArrayBufferColumn_Len.
    by rewrite decide_False by lia.
  - intros Hnn Hpast. rewrite decide_False by nia. by rewrite decide_True by lia.
  - intros Hnn Hin. rewrite decide_False by nia. rewrite decide_False by lia.
    rewrite slice_take_drop by nia. simpl. repeat f_equal. lia.
Qed.

Lemma fixedLenByteArrayBufferColumn_ReadRowAt_bounds_witness :
  let col := fixedLen.mk 2 [Byte.x01; Byte.x02; Byte.x03; Byte.x04]
               [Byte.x00; Byte.x00] in
  fixedLenByteArrayBufferColumn_ReadRowAt col [] (-1)
  = Some ([], Some (errRowIndexOutOfBounds (-1) 2)) /\
  fixedLenByteArrayBufferColumn_ReadRowAt col [] 2 = Some ([], Some io_EOF) /\
  fixedLenByteArrayBufferColumn_ReadRowAt col [] 1
  = Some ([makeValueBytes FixedLenByteArray [Byte.x03; Byte.x04]], None).
Proof.
  intros col.
  split; [|split].
  - apply (fixedLenByteArrayBufferColumn_ReadRowAt_bounds col [] (-1));
      simpl; lia.
  - apply (fixedLenByteArrayBufferColumn_ReadRowAt_bounds col [] 2);
      unfold len; simpl; lia.
  - apply (fixedLenByteArrayBufferColumn_ReadRowAt_bounds col [] 1);
      unfold len; simpl; lia.
Defined.

Lemma foldl_concat {A C} (f : C -> list A) (row : list C) (s : list A) :
  foldl (fun s v => s ++ f v) s row = s ++ concat (map f row).
Proof.
  revert s. induction row as [|v row IH]; intros s; simpl.
  - by rewrite app_nil_r.
  - rewrite IH. by rewrite <- app_assoc.
Qed.

Lemma concat_chunk {A} (sz : nat) (chunks : list (list A)) :
  Forall (fun c => length c = sz) chunks ->
  forall k c, chunks !! k = Some c ->
    take sz (drop (k * sz) (concat chunks)) = c.
Proof.
  induction 1 as [|c0 chunks Hc0 Hall IH]; intros k c Hk; [done|].
  destruct k as [|k]; cbn [concat lookup list_lookup] in *.
  - injection Hk as <-. change (0 * sz)%nat with 0%nat.
    rewrite drop_0. by apply take_app_length'.
  - replace (S k * sz)%nat with (length c0 + k * sz)%nat by lia.
    rewrite drop_app_add. by apply IH.
Qed.

Lemma len_concat_chunks {A} (sz : Z) (chunks : list (list A)) :
  Forall (fun c => len c = sz) chunks ->
  len (concat chunks) = len chunks * sz.
Proof.
  induction 1 as [|c chunks Hc Hall IH]; [done|].
  simpl. rewrite len_app, IH, Hc. unfold len. simpl. lia.
Qed.

(** X3: a fixed-length column of [n] complete values to which a row of
    values of [size] bytes each is written holds [n + len(row)] values, and
    reads back the bytes of the [k]-th value written at the index [n + k],
    as long as the byte offsets stay within [int]. *)
Theorem fixedLenByteArrayBufferColumn_WriteRow_ReadRowAt
    (col : fixedLen.t) (row dst : Row) (n : Z) :
  0 < fixedLen.size col ->
  len (fixedLen.data col) = n * fixedLen.size col ->
  Forall (fun v => len (Value_ByteArray v) = fixedLen.size col) row ->
  (n + len row) * fixedLen.size col < 2 ^ 63 ->
  let col' := (fixedLenByteArrayBufferColumn_WriteRow col row).1 in
  fixedLenByteArrayBufferColumn_Len col' = Some (n + len row) /\
  forall k v, idx row k = Some v ->
    fixedLenByteArrayBufferColumn_ReadRowAt col' dst (n + k)
    = Some (dst ++ [makeValueBytes FixedLenByteArray (Value_ByteArray v)], None).
Proof.
  intros Hsize Hdata Hrow Hmax col'.
  pose proof (len_nonneg (fixedLen.data col)) as Hd.
  pose proof (len_nonneg row) as Hr.
  assert (0 <= n) as Hn by nia.
  set (size := fixedLen.size col) in *.
  set (chunks := map Value_ByteArray row).
  assert (Forall (fun c => len c = size) chunks) as Hchunks.
  { subst chunks. apply Forall_map. exact Hrow. }
  assert (fixedLen.data col' = fixedLen.data col ++ concat chunks) as Hdata'.
  { subst col'. simpl. apply foldl_concat. }
  assert (fixedLen.size col' = size) as Hsize' by done.
  assert (len (fixedLen.data col') = (n + len row) * size) as Hlen'.
  { rewrite Hdata', len_app, (len_concat_chunks size) by done.
    subst chunks. rewrite len_map. lia. }
  split.
  - unfold fixedLenByteArrayBufferColumn_Len. rewrite Hsize', Hlen'.
    rewrite decide_False by lia. f_equal. apply Z.quot_mul. lia.
  - intros k v Hv. pose proof (idx_inv _ _ _ Hv) as Hk.
    unfold fixedLenByteArrayBufferColumn_ReadRowAt.
    rewrite Hsize', Hlen', Z.add_0_r.
    rewrite (int_small (n + k)), (int_small (n + k + 1)) by nia.
    rewrite (int_small ((n + k) * _)), (int_small ((n + k + 1) * _)) by nia.
    rewrite decide_False by nia. rewrite decide_False by nia.
    rewrite slice_take_drop by nia. cbn [mbind option_bind].
    rewrite Hdata'.
    replace (Z.to_nat ((n + k) * size))
      with (length (fixedLen.data col) + Z.to_nat k * Z.to_nat size)%nat
      by (unfold len in Hdata; nia).
    rewrite drop_app_add.
    replace (Z.to_nat ((n + k + 1) * size - (n + k) * size))
      with (Z.to_nat size) by lia.
    rewrite (concat_chunk (Z.to_nat size) chunks) with (c := Value_ByteArray v);
      [done| |].
    + eapply Forall_impl; [exact Hchunks|]. intros c Hc. simpl in Hc.
      unfold len in Hc. lia.
    + subst chunks. rewrite list_lookup_fmap.
      by rewrite (idx_lookup _ _ _ Hv).
Qed.

Lemma fixedLenByteArrayBufferColumn_WriteRow_ReadRowAt_witness :
  let col := fixedLen.mk 2 [Byte.x01; Byte.x02] [Byte.x00; Byte.x00] in
  let v := mkValue (Some (PFixedLenByteArray [Byte.x03; Byte.x04])) 0 0 0 in
  let col' := (fixedLenByteArrayBufferColumn_WriteRow col [v]).1 in
  fixedLenByteArrayBufferColumn_Len col' = Some (1 + 1) /\
  forall k v', idx [v] k = Some v' ->
    fixedLenByteArrayBufferColumn_ReadRowAt col' [] (1 + k)
    = Some ([] ++ [makeValueBytes FixedLenByteArray (Value_ByteArray v')], None).
Proof.
  intros col v.
  apply (fixedLenByteArrayBufferColumn_WriteRow_ReadRowAt col [v] [] 1).
  - simpl. lia.
  - reflexivity.
  - repeat constructor.
  - unfold len. simpl. lia.
Defined.

(** *** [Swap] of the fixed-length column *)

Lemma copy_at_length {A} (s : list A) (off : Z) (src : list A) :
  (Z.to_nat off + length src <= length s)%nat ->
  length (copy_at s off src) = length s.
Proof.
  intros Hfit. unfold copy_at.
  rewrite !length_app, length_take, length_drop. lia.
Qed.

Lemma copy_at_lookup {A} (s : list A) (off : Z) (src : list A) (p : nat) :
  (Z.to_nat off + length src <= length s)%nat ->
  copy_at s off src !! p
  = if decide (Z.to_nat off <= p < Z.to_nat off + length src)%nat
    then src !! (p - Z.to_nat off)%nat
    else s !! p.
Proof.
  intros Hfit. unfold copy_at.
  destruct (decide (p < Z.to_nat off)%nat) as [Hlt|Hge].
  { rewrite lookup_app_l by (rewrite length_take; lia).
    rewrite lookup_take_lt by done. by rewrite decide_False by lia. }
  rewrite lookup_app_r by (rewrite length_take; lia).
  rewrite length_take.
  replace (p - Z.to_nat off `min` length s)%nat with (p - Z.to_nat off)%nat
    by lia.
  destruct (decide (p < Z.to_nat off + length src)%nat) as [Hin|Hout].
  - rewrite lookup_app_l by lia. by rewrite decide_True by lia.
  - rewrite lookup_app_r by lia. rewrite lookup_drop.
    rewrite decide_False by lia. f_equal. lia.
Qed.

Lemma chunk_lookup {A} (s : list A) (sz k p : nat) :
  take sz (drop (k * sz) s) !! p
  = if decide (p < sz)%nat then s !! (k * sz + p)%nat else None.
Proof.
  case_decide.
  - rewrite lookup_take_lt by done. by rewrite lookup_drop.
  - by rewrite lookup_take_ge by lia.
Qed.

Lemma chunk_length {A} (s : list A) (sz k n : nat) :
  length s = (n * sz)%nat -> (k < n)%nat ->
  length (take sz (drop (k * sz) s)) = sz.
Proof. intros Hs Hk. rewrite length_take, length_drop. nia. Qed.

(** Copying the [j]-th chunk over the [i]-th and what the [i]-th chunk held
    over the [j]-th exchanges the two chunks. *)
Lemma copy_at_chunks {A} (s : list A) (sz n i j k : nat) :
  length s = (n * sz)%nat -> (i < n)%nat -> (j < n)%nat -> (k < n)%nat ->
  let chunk := fun (s : list A) (k : nat) => take sz (drop (k * sz) s) in
  let s1 := copy_at s (Z.of_nat (i * sz)) (chunk s j) in
  let s2 := copy_at s1 (Z.of_nat (j * sz)) (chunk s i) in
  length s2 = length s /\
  chunk s2 k = if decide (k = i) then chunk s j
               else if decide (k = j) then chunk s i
               else chunk s k.
Proof.
  intros Hs Hi Hj Hk chunk s1 s2.
  assert (length (chunk s i) = sz) as Hci by by eapply chunk_length.
  assert (length (chunk s j) = sz) as Hcj by by eapply chunk_length.
  assert (length s1 = length s) as Hs1.
  { apply copy_at_length. rewrite Nat2Z.id, Hcj. nia. }
  assert (length s2 = length s) as Hs2.
  { unfold s2. rewrite copy_at_length; [done|].
    rewrite Nat2Z.id, Hci, Hs1. nia. }
  split; [done|].
  apply list_eq. intros p. unfold chunk at 1. rewrite chunk_lookup.
  assert (forall q, s2 !! q
    = if decide (j * sz <= q < j * sz + sz)%nat then s !! (i * sz + (q - j * sz))%nat
      else if decide (i * sz <= q < i * sz + sz)%nat
           then s !! (j * sz + (q - i * sz))%nat
           else s !! q) as Hlookup.
  { intros q. unfold s2.
    rewrite copy_at_lookup by (rewrite Nat2Z.id, Hci, Hs1; nia).
    rewrite Nat2Z.id, Hci. case_decide as Hq.
    - unfold chunk. rewrite chunk_lookup. by rewrite decide_True by lia.
    - unfold s1. rewrite copy_at_lookup by (rewrite Nat2Z.id, Hcj; nia).
      rewrite Nat2Z.id, Hcj. case_decide as Hq'; [|done].
      unfold chunk. rewrite chunk_lookup. by rewrite decide_True by lia. }
  destruct (decide (p < sz)%nat) as [Hp|Hp].
  2:{ repeat case_decide; unfold chunk; rewrite chunk_lookup;
        by rewrite decide_False by done. }
  rewrite Hlookup.
  destruct (decide (k = i)) as [->|Hki].
  { unfold chunk. rewrite chunk_lookup, (decide_True _ _ Hp).
    destruct (decide (i = j)) as [->|Hij].
    - rewrite decide_True by lia. f_equal. lia.
    - rewrite decide_False by nia. rewrite decide_True by lia. f_equal. lia. }
  destruct (decide (k = j)) as [->|Hkj].
  { unfold chunk. rewrite chunk_lookup, (decide_True _ _ Hp).
    rewrite decide_True by lia. f_equal. lia. }
  unfold chunk. rewrite chunk_lookup, (decide_True _ _ Hp).
  rewrite decide_False by nia. by rewrite decide_False by nia.
Qed.

Section FixedLen.
Variable col : fixedLen.t.
Variable n : Z.
Hypothesis Hsize : 0 < fixedLen.size col.
Hypothesis Hdata : len (fixedLen.data col) = n * fixedLen.size col.
Hypothesis Hmax : n * fixedLen.size col < 2 ^ 63.

(** What [ReadRowAt] returns inside a column of [n] complete values. *)
Lemma fixedLenByteArrayBufferColumn_ReadRowAt_value (dst : Row) (k : Z) :
  0 <= k < n ->
  fixedLenByteArrayBufferColumn_ReadRowAt col dst k
  = Some (dst ++ [makeValueBytes FixedLenByteArray (fixedLenValue col k)],
          None).
Proof.
  intros Hk. unfold fixedLenByteArrayBufferColumn_ReadRowAt, fixedLenValue.
  rewrite Z.add_0_r, (int_small k), (int_small (k + 1)) by nia.
  rewrite (int_small (k * _)), (int_small ((k + 1) * _)) by nia.
  rewrite decide_False by nia. rewrite decide_False by nia.
  rewrite slice_take_drop by nia. cbn [mbind option_bind].
  repeat f_equal. lia.
Qed.

Lemma fixedLenByteArrayBufferColumn_index_value (k : Z) :
  0 <= k < n ->
  fixedLenByteArrayBufferColumn_index col k
  = Some (k * fixedLen.size col, (k + 1) * fixedLen.size col,
          fixedLenValue col k).
Proof.
  intros Hk. unfold fixedLenByteArrayBufferColumn_index, fixedLenValue.
  rewrite Z.add_0_r, (int_small k), (int_small (k + 1)) by nia.
  rewrite (int_small (k * _)), (int_small ((k + 1) * _)) by nia.
  rewrite slice_take_drop by nia. cbn [mbind option_bind].
  repeat f_equal. lia.
Qed.
End FixedLen.

(** X4: [Swap] on a fixed-length column of [n] complete values, whose
    scratch buffer has room for a value, exchanges the values [i] and [j]
    as [ReadRowAt] returns them, reads every other value as before, and
    keeps the size of the values and the length of the data. *)
Theorem fixedLenByteArrayBufferColumn_Swap_ReadRowAt
    (col : fixedLen.t) (n i j : Z) (dst : Row) :
  0 < fixedLen.size col ->
  len (fixedLen.data col) = n * fixedLen.size col ->
  n * fixedLen.size col < 2 ^ 63 ->
  fixedLen.size col <= len (fixedLen.tmp col) ->
  0 <= i < n -> 0 <= j < n ->
  exists col',
    fixedLenByteArrayBufferColumn_Swap col i j = Some col' /\
    fixedLen.size col' = fixedLen.size col /\
    len (fixedLen.data col') = len (fixedLen.data col) /\
    fixedLenByteArrayBufferColumn_ReadRowAt col' dst i
    = fixedLenByteArrayBufferColumn_ReadRowAt col dst j /\
    fixedLenByteArrayBufferColumn_ReadRowAt col' dst j
    = fixedLenByteArrayBufferColumn_ReadRowAt col dst i /\
    forall k, 0 <= k < n -> k <> i -> k <> j ->
      fixedLenByteArrayBufferColumn_ReadRowAt col' dst k
      = fixedLenByteArrayBufferColumn_ReadRowAt col dst k.
Proof.
  intros Hsize Hdata Hmax Htmp Hi Hj.
  unfold fixedLenByteArrayBufferColumn_Swap.
  rewrite slice_take_drop by lia. cbn [mbind option_bind].
  rewrite (fixedLenByteArrayBufferColumn_index_value col n) by done.
  cbn [mbind option_bind].
  rewrite (fixedLenByteArrayBufferColumn_index_value col n) by done.
  cbn [mbind option_bind]. cbv zeta.
  eexists. split; [reflexivity|].
  set (size := fixedLen.size col) in *.
  set (sz := Z.to_nat size).
  assert (length (fixedLen.data col) = (Z.to_nat n * sz)%nat) as Hlen.
  { unfold len in Hdata. subst sz. nia. }
  assert (forall k, 0 <= k < n ->
    Z.to_nat (k * size) = (Z.to_nat k * sz)%nat) as Hoff.
  { intros k Hk. subst sz. nia. }
  assert (forall k, 0 <= k < n ->
    fixedLenValue col k
    = take sz (drop (Z.to_nat k * sz) (fixedLen.data col))) as Hvalue.
  { intros k Hk. unfold fixedLenValue. fold size. fold sz.
    by rewrite Hoff. }
  assert (length (fixedLenValue col i) = sz) as Hli.
  { rewrite Hvalue by done. apply (chunk_length _ _ _ (Z.to_nat n)); [done|lia]. }
  rewrite Hli.
  assert (take sz (drop (Z.to_nat (j * size)) (fixedLen.data col))
          = fixedLenValue col j) as ->.
  { rewrite Hvalue by done. by rewrite Hoff. }
  assert (forall k, 0 <= k < n ->
    let data2 :=
      copy_at (copy_at (fixedLen.data col) (i * size) (fixedLenValue col j))
        (j * size) (fixedLenValue col i) in
    length data2 = length (fixedLen.data col) /\
    take sz (drop (Z.to_nat k * sz) data2)
    = if decide (Z.to_nat k = Z.to_nat i) then fixedLenValue col j
      else if decide (Z.to_nat k = Z.to_nat j) then fixedLenValue col i
      else fixedLenValue col k) as Hchunks.
  { intros k Hk.
    pose proof (copy_at_chunks (fixedLen.data col) sz (Z.to_nat n)
                  (Z.to_nat i) (Z.to_nat j) (Z.to_nat k) Hlen) as Hc.
    cbv beta zeta in Hc.
    rewrite <- (Hvalue i Hi), <- (Hvalue j Hj), <- (Hvalue k Hk) in Hc.
    replace (Z.of_nat (Z.to_nat i * sz)) with (i * size) in Hc
      by (subst sz; nia).
    replace (Z.of_nat (Z.to_nat j * sz)) with (j * size) in Hc
      by (subst sz; nia).
    apply Hc; lia. }
  cbn [fixedLen.size fixedLen.data].
  destruct (Hchunks i Hi) as [Hlen2 _].
  split; [done|]. split; [unfold len; by rewrite Hlen2|].
  assert (forall k, 0 <= k < n ->
    fixedLenByteArrayBufferColumn_ReadRowAt
      (fixedLen.mk size
         (copy_at (copy_at (fixedLen.data col) (i * size)
                     (fixedLenValue col j))
            (j * size) (fixedLenValue col i))
         (fixedLenValue col i ++ drop sz (fixedLen.tmp col)))
      dst k
    = Some (dst ++ [makeValueBytes FixedLenByteArray
                      (if decide (Z.to_nat k = Z.to_nat i)
                       then fixedLenValue col j
                       else if decide (Z.to_nat k = Z.to_nat j)
                            then fixedLenValue col i
                            else fixedLenValue col k)], None)) as Hread.
  { intros k Hk.
    rewrite (fixedLenByteArrayBufferColumn_ReadRowAt_value _ n);
      cbn [fixedLen.size fixedLen.data]; [|done| |done|done].
    2:{ unfold len. rewrite Hlen2. exact Hdata. }
    destruct (Hchunks k Hk) as [_ <-].
    unfold fixedLenValue. cbn [fixedLen.size fixedLen.data].
    fold sz. by rewrite Hoff. }
  split; [|split].
  - rewrite Hread by done. rewrite decide_True by done.
    by rewrite (fixedLenByteArrayBufferColumn_ReadRowAt_value col n).
  - rewrite Hread by done.
    rewrite (fixedLenByteArrayBufferColumn_ReadRowAt_value col n) by done.
    case_decide as Hji; [|by rewrite decide_True].
    by replace j with i by lia.
  - intros k Hk Hki Hkj. rewrite Hread by done.
    rewrite !decide_False by lia.
    by rewrite (fixedLenByteArrayBufferColumn_ReadRowAt_value col n).
Qed.

Lemma fixedLenByteArrayBufferColumn_Swap_ReadRowAt_witness :
  let col := fixedLen.mk 2 [Byte.x01; Byte.x02; Byte.x03; Byte.x04;
                            Byte.x05; Byte.x06]
               [Byte.x00; Byte.x00] in
  exists col',
    fixedLenByteArrayBufferColumn_Swap col 0 2 = Some col' /\
    fixedLen.size col' = fixedLen.size col /\
    len (fixedLen.data col') = len (fixedLen.data col) /\
    fixedLenByteArrayBufferColumn_ReadRowAt col' [] 0
    = fixedLenByteArrayBufferColumn_ReadRowAt col [] 2 /\
    fixedLenByteArrayBufferColumn_ReadRowAt col' [] 2
    = fixedLenByteArrayBufferColumn_ReadRowAt col [] 0 /\
    forall k, 0 <= k < 3 -> k <> 0 -> k <> 2 ->
      fixedLenByteArrayBufferColumn_ReadRowAt col' [] k
      = fixedLenByteArrayBufferColumn_ReadRowAt col [] k.
Proof.
  intros col.
  apply (fixedLenByteArrayBufferColumn_Swap_ReadRowAt col 3 0 2 []);
    unfold len; simpl; lia.
Defined.

(** *** Optional columns over a flat base *)

Lemma idx_snoc {A} (s : list A) (x : A) (t : list A) :
  idx (s ++ x :: t) (len s) = Some x.
Proof.
  unfold idx. pose proof (len_nonneg s).
  rewrite decide_True by done. unfold len. rewrite Nat2Z.id.
  by rewrite list_lookup_middle.
Qed.

Section OptionalFlat.
Context {A : Type}.
Variable get : Value -> A.
Variable make : A -> Value.

Lemma optionalBufferColumn_WriteRow_flat (col : optional.t (list A)) row :
  (optionalBufferColumn_WriteRow (flat_WriteRow get) col row).1
  = optional.mk (optional.base col ++ map get row)
      (optional.maxDefinitionLevel col)
      (optional.definitionLevels col ++ map DefinitionLevel row)
      (optional.ordering col).
Proof.
  unfold optionalBufferColumn_WriteRow, flat_WriteRow. simpl.
  by rewrite !foldl_append.
Qed.

(** What [ReadRowAt] returns at an index inside an optional column in step
    with its flat base. *)
Lemma optionalBufferColumn_ReadRowAt_flat (col : optional.t (list A))
    (dst : Row) (index d : Z) (x : A) :
  idx (optional.definitionLevels col) index = Some d ->
  idx (optional.base col) index = Some x ->
  optionalBufferColumn_ReadRowAt (flat_ReadRowAt make) col dst index
  = Some (dst ++ [if decide (d <> optional.maxDefinitionLevel col)
                  then mkValue None 0 d 0
                  else with_definitionLevel d (make x)], None).
Proof.
  intros Hd Hx.
  pose proof (idx_inv _ _ _ Hd). pose proof (idx_inv _ _ _ Hx).
  unfold optionalBufferColumn_ReadRowAt.
  rewrite !decide_False by lia. rewrite Hd. cbn [mbind option_bind].
  case_decide; [done|].
  unfold flat_ReadRowAt. rewrite !decide_False by lia.
  rewrite Hx. cbn [mbind option_bind]. rewrite len_snoc.
  rewrite decide_False by lia. rewrite decide_False by lia.
  unfold update. rewrite idx_snoc. cbn [mbind option_bind].
  unfold len. rewrite Nat2Z.id.
  rewrite insert_app_r_alt by done. by rewrite Nat.sub_diag.
Qed.

End OptionalFlat.

(** X5: an optional column over a flat base that holds one definition
    level per stored value still does after [WriteRow], has grown by the
    length of the row, reads the rows that it held as before, and reads back
    the [k]-th value written at the index [Len + k]: with its definition
    level, as a null when that level is not the maximum and with the
    payload that the base stored otherwise. *)
Theorem optionalBufferColumn_WriteRow_ReadRowAt {A}
    (get : Value -> A) (make : A -> Value)
    (col : optional.t (list A)) (row dst : Row) :
  optionalInStep col ->
  let col' := (optionalBufferColumn_WriteRow (flat_WriteRow get) col row).1 in
  optionalInStep col' /\
  optionalBufferColumn_Len col' = optionalBufferColumn_Len col + len row /\
  (forall i, 0 <= i < optionalBufferColumn_Len col ->
     optionalBufferColumn_ReadRowAt (flat_ReadRowAt make) col' dst i
     = optionalBufferColumn_ReadRowAt (flat_ReadRowAt make) col dst i) /\
  forall k v, idx row k = Some v ->
    optionalBufferColumn_ReadRowAt (flat_ReadRowAt make) col' dst
      (optionalBufferColumn_Len col + k)
    = Some (dst ++ [if decide (DefinitionLevel v
                               <> optional.maxDefinitionLevel col)
                    then mkValue None 0 (DefinitionLevel v) 0
                    else with_definitionLevel (DefinitionLevel v)
                           (make (get v))], None).
Proof.
  intros Hstep col'. subst col'. unfold optionalInStep in *.
  rewrite optionalBufferColumn_WriteRow_flat.
  unfold optionalBufferColumn_Len. cbn [optional.base optional.definitionLevels].
  rewrite !len_app, !len_map. split; [lia|]. split; [done|].
  pose proof (len_nonneg row) as Hrow. split.
  { intros i Hi.
    destruct (idx_Some (optional.definitionLevels col) i Hi) as [d Hd].
    destruct (idx_Some (optional.base col) i) as [x Hx]; [lia|].
    rewrite (optionalBufferColumn_ReadRowAt_flat make col dst i d x) by done.
    apply (optionalBufferColumn_ReadRowAt_flat make
             (optional.mk _ _ _ _) dst i d x);
      cbn [optional.base optional.definitionLevels];
      by rewrite idx_app_l by lia. }
  intros k v Hv. pose proof (idx_inv _ _ _ Hv) as Hk.
  apply (optionalBufferColumn_ReadRowAt_flat make
           (optional.mk _ _ _ _) dst _ (DefinitionLevel v) (get v));
    cbn [optional.base optional.definitionLevels].
  - rewrite idx_app_r by lia. by rewrite idx_map, Hv.
  - rewrite <- Hstep. rewrite idx_app_r by lia. by rewrite idx_map, Hv.
Qed.

Lemma optionalBufferColumn_WriteRow_ReadRowAt_witness :
  let get := Value_Int32 in
  let make := makeValueInt32 in
  let col := newOptionalBufferColumn (@nil Z) 1 nullsGoFirst in
  let null := mkValue None 0 0 0 in
  let col' := (optionalBufferColumn_WriteRow (flat_WriteRow get) col [null]).1 in
  optionalInStep col' /\
  optionalBufferColumn_Len col' = optionalBufferColumn_Len col + len [null] /\
  (forall i, 0 <= i < optionalBufferColumn_Len col ->
     optionalBufferColumn_ReadRowAt (flat_ReadRowAt make) col' [] i
     = optionalBufferColumn_ReadRowAt (flat_ReadRowAt make) col [] i) /\
  forall k v, idx [null] k = Some v ->
    optionalBufferColumn_ReadRowAt (flat_ReadRowAt make) col' []
      (optionalBufferColumn_Len col + k)
    = Some ([] ++ [if decide (DefinitionLevel v
                              <> optional.maxDefinitionLevel col)
                   then mkValue None 0 (DefinitionLevel v) 0
                   else with_definitionLevel (DefinitionLevel v)
                          (make (get v))], None).
Proof.
  intros get make col null.
  apply (optionalBufferColumn_WriteRow_ReadRowAt get make col [null] []).
  reflexivity.
Defined.

(** X6: [Swap] on an optional column in step with its flat base keeps the
    two in step and exchanges the rows [i] and [j] as [ReadRowAt] returns
    them; every other row is read as before. *)
Theorem optionalBufferColumn_Swap_ReadRowAt {A} (make : A -> Value)
    (col : optional.t (list A)) (i j : Z) (dst : Row) :
  optionalInStep col ->
  0 <= i < optionalBufferColumn_Len col ->
  0 <= j < optionalBufferColumn_Len col ->
  exists col',
    optionalBufferColumn_Swap flat_Swap col i j = Some col' /\
    optionalInStep col' /\
    optionalBufferColumn_ReadRowAt (flat_ReadRowAt make) col' dst i
    = optionalBufferColumn_ReadRowAt (flat_ReadRowAt make) col dst j /\
    optionalBufferColumn_ReadRowAt (flat_ReadRowAt make) col' dst j
    = optionalBufferColumn_ReadRowAt (flat_ReadRowAt make) col dst i /\
    forall k, k <> i -> k <> j ->
      optionalBufferColumn_ReadRowAt (flat_ReadRowAt make) col' dst k
      = optionalBufferColumn_ReadRowAt (flat_ReadRowAt make) col dst k.
Proof.
  unfold optionalInStep, optionalBufferColumn_Len. intros Hstep Hi Hj.
  destruct (swap_Some (optional.base col) i j) as [base' Hb]; [lia..|].
  destruct (swap_Some (optional.definitionLevels col) i j) as [dl' Hd];
    [lia..|].
  unfold optionalBufferColumn_Swap, flat_Swap. rewrite Hb, Hd.
  cbn [mbind option_bind]. eexists. split; [reflexivity|].
  pose proof (swap_length _ _ _ _ Hb) as Hlb.
  pose proof (swap_length _ _ _ _ Hd) as Hld.
  cbn [optional.base optional.definitionLevels]. split; [lia|].
  assert (forall k k',
    idx base' k = idx (optional.base col) k' ->
    idx dl' k = idx (optional.definitionLevels col) k' ->
    0 <= k < len dl' -> 0 <= k' < len dl' ->
    optionalBufferColumn_ReadRowAt (flat_ReadRowAt make)
      (optional.mk base' (optional.maxDefinitionLevel col) dl'
         (optional.ordering col)) dst k
    = optionalBufferColumn_ReadRowAt (flat_ReadRowAt make) col dst k')
    as Hread.
  { intros k k' Hkb Hkd Hk Hk'.
    destruct (idx_Some (optional.definitionLevels col) k') as [d Hd'];
      [lia|].
    destruct (idx_Some (optional.base col) k') as [x Hx']; [lia|].
    rewrite (optionalBufferColumn_ReadRowAt_flat make col dst k' d x) by done.
    rewrite (optionalBufferColumn_ReadRowAt_flat make _ dst k d x); [done|..];
      cbn [optional.base optional.definitionLevels]; congruence. }
  split; [|split].
  - apply Hread; [by eapply swap_idx_l|by eapply swap_idx_l|lia..].
  - apply Hread; [by eapply swap_idx_r|by eapply swap_idx_r|lia..].
  - intros k Hki Hkj.
    destruct (decide (0 <= k < len dl')) as [Hk|Hk].
    + apply Hread; [by eapply swap_idx_other|by eapply swap_idx_other|lia..].
    + unfold optionalBufferColumn_ReadRowAt.
      cbn [optional.definitionLevels]. rewrite Hld.
      destruct (decide (k < 0)); [done|]. by rewrite !decide_True by lia.
Qed.

Lemma optionalBufferColumn_Swap_ReadRowAt_witness :
  let make := makeValueInt32 in
  let col := optional.mk [0; 7] 1 [0; 1] nullsGoFirst in
  exists col',
    optionalBufferColumn_Swap flat_Swap col 0 1 = Some col' /\
    optionalInStep col' /\
    optionalBufferColumn_ReadRowAt (flat_ReadRowAt make) col' [] 0
    = optionalBufferColumn_ReadRowAt (flat_ReadRowAt make) col [] 1 /\
    optionalBufferColumn_ReadRowAt (flat_ReadRowAt make) col' [] 1
    = optionalBufferColumn_ReadRowAt (flat_ReadRowAt make) col [] 0 /\
    forall k, k <> 0 -> k <> 1 ->
      optionalBufferColumn_ReadRowAt (flat_ReadRowAt make) col' [] k
      = optionalBufferColumn_ReadRowAt (flat_ReadRowAt make) col [] k.
Proof.
  intros make col.
  apply (optionalBufferColumn_Swap_ReadRowAt make col 0 1 []);
    [reflexivity|unfold optionalBufferColumn_Len, len; simpl; lia..].
Defined.

(** *** Repeated columns over a flat base *)

Lemma uint32_small z : 0 <= z < 2 ^ 32 -> uint32 z = z.
Proof. intros. unfold uint32. apply Z.mod_small. lia. Qed.

Section RepeatedFlat.
Context {A : Type}.
Variable get : Value -> A.
Variable make : A -> Value.

Lemma repeatedBufferColumn_WriteRow_flat (col : repeated.t (list A)) row :
  (repeatedBufferColumn_WriteRow (flat_WriteRow get) col row).1
  = repeated.mk (repeated.base col ++ map get row)
      (repeated.maxRepetitionLevel col) (repeated.maxDefinitionLevel col)
      (repeated.rows col ++ [repeatedBufferColumn_row col (len row)])
      (repeated.repetitionLevels col ++ map RepetitionLevel row)
      (repeated.definitionLevels col ++ map DefinitionLevel row)
      (repeated.buffer col) (repeated.reordering col) (repeated.ordering col).
Proof.
  unfold repeatedBufferColumn_WriteRow, flat_WriteRow. simpl.
  by rewrite foldl_levels, foldl_append.
Qed.

Lemma readRegion_flat (col : repeated.t (list A)) region index reset :
  forall (dls rls : list Z) (xs : list A) (pre_r : list Z)
         (pre_b post_b : list A) (row : Row),
    length rls = length dls ->
    length xs = length dls ->
    repeated.base col = pre_b ++ xs ++ post_b ->
    0 <= region.offset region ->
    len pre_b = region.offset region + len pre_r ->
    len (repeated.base col) < 2 ^ 63 ->
    readRegion (flat_ReadRowAt make) col region index reset
      (pre_r ++ rls) dls (len pre_r) row
    = Some (row ++ zip_with (fun levels x =>
                               readValue make (repeated.maxDefinitionLevel col)
                                 levels.1 levels.2 x)
                     (zip rls dls) xs, None).
Proof.
  induction dls as [|d dls IH];
    intros rls xs pre_r pre_b post_b row Hr Hx Hbase Hoff Hpre Hmax.
  { destruct rls; [|done]. simpl. by rewrite app_nil_r. }
  destruct rls as [|r rls]; [done|]. destruct xs as [|x xs]; [done|].
  injection Hr as Hr. injection Hx as Hx.
  pose proof (len_nonneg pre_r) as Hpr. pose proof (len_nonneg pre_b) as Hpb.
  assert (len pre_b < len (repeated.base col)) as Hin.
  { rewrite Hbase, len_app. unfold len. simpl. lia. }
  cbn [readRegion]. rewrite idx_snoc. cbn [mbind option_bind].
  cbn [zip zip_with fst snd].
  assert (pre_r ++ r :: rls = (pre_r ++ [r]) ++ rls) as Hrls
    by (by rewrite <- app_assoc).
  assert (repeated.base col = (pre_b ++ [x]) ++ xs ++ post_b) as Hbase'
    by (by rewrite Hbase, <- app_assoc).
  case_decide as Hd.
  - assert (readValue make (repeated.maxDefinitionLevel col) r d x
            = mkValue None r d 0) as ->
      by (unfold readValue; by rewrite decide_True).
    rewrite Hrls, <- (len_snoc pre_r r).
    rewrite (IH rls xs (pre_r ++ [r]) (pre_b ++ [x]) post_b); try done.
    + by rewrite <- app_assoc.
    + rewrite !len_snoc. lia.
  - assert (readValue make (repeated.maxDefinitionLevel col) r d x
            = with_definitionLevel d (with_repetitionLevel r (make x))) as ->
      by (unfold readValue; by rewrite decide_False by (intros Hne; by apply Hne)).
    rewrite (int_small (region.offset region)) by lia.
    rewrite <- Hpre. rewrite (int_small (len pre_b)) by lia.
    assert (flat_ReadRowAt make (repeated.base col) row (len pre_b)
            = Some (row ++ [make x], None)) as ->.
    { unfold flat_ReadRowAt. rewrite !decide_False by lia.
      rewrite Hbase. change ((x :: xs) ++ post_b) with (x :: (xs ++ post_b)).
      by rewrite idx_snoc. }
    cbn [mbind option_bind].
    rewrite len_snoc. rewrite decide_False by lia.
    rewrite decide_False by lia.
    unfold update. rewrite idx_snoc. cbn [mbind option_bind].
    replace (<[Z.to_nat (len row) := _]> (row ++ [make x]))
      with (row ++ [with_definitionLevel d (with_repetitionLevel r (make x))]).
    2:{ unfold len. rewrite Nat2Z.id.
        rewrite insert_app_r_alt by done. by rewrite Nat.sub_diag. }
    rewrite Hrls, <- (len_snoc pre_r r).
    rewrite (IH rls xs (pre_r ++ [r]) (pre_b ++ [x]) post_b); try done.
    + by rewrite <- app_assoc.
    + rewrite !len_snoc. lia.
Qed.

(** On a well-formed column, [ReadRowAt] at an index within the rows
    returns the values of the region. *)
Lemma repeatedBufferColumn_ReadRowAt_flat (col : repeated.t (list A))
    (dst : Row) (index : Z) (region : region.t) :
  len (repeated.base col) = len (repeated.repetitionLevels col) ->
  len (repeated.repetitionLevels col) = len (repeated.definitionLevels col) ->
  len (repeated.repetitionLevels col) < 2 ^ 32 ->
  idx (repeated.rows col) index = Some region ->
  0 <= region.offset region -> 0 <= region.length region ->
  region.offset region + region.length region
  <= len (repeated.repetitionLevels col) ->
  repeatedBufferColumn_ReadRowAt (flat_ReadRowAt make) col dst index
  = Some (dst ++ regionValues make col region, None).
Proof.
  intros Hb Hl Hmax Hregion Ho Hn Hin.
  pose proof (idx_inv _ _ _ Hregion) as Hindex.
  unfold repeatedBufferColumn_ReadRowAt.
  rewrite !decide_False by lia. rewrite Hregion. cbn [mbind option_bind].
  rewrite (uint32_small (_ + _)) by lia.
  rewrite !slice_take_drop by lia. cbn [mbind option_bind].
  replace (region.offset region + region.length region - region.offset region)
    with (region.length region) by lia.
  set (lo := Z.to_nat (region.offset region)).
  set (n := Z.to_nat (region.length region)).
  assert (lo + n <= length (repeated.repetitionLevels col))%nat as Hnat
    by (unfold len in *; lia).
  rewrite (readRegion_flat col region index (len dst)
             (take n (drop lo (repeated.definitionLevels col)))
             (take n (drop lo (repeated.repetitionLevels col)))
             (take n (drop lo (repeated.base col)))
             [] (take lo (repeated.base col))
             (drop n (drop lo (repeated.base col)))); try done.
  - rewrite !length_take, !length_drop. unfold len in *. lia.
  - rewrite !length_take, !length_drop. unfold len in *. lia.
  - by rewrite !take_drop.
  - change (len []) with 0. unfold len. rewrite length_take.
    unfold len in *. lia.
  - lia.
Qed.
End RepeatedFlat.

Lemma zip_with_maps {A C D E F} (f : C * D -> E -> F)
    (g : A -> C) (h : A -> D) (k : A -> E) (s : list A) :
  zip_with f (zip (map g s) (map h s)) (map k s)
  = map (fun a => f (g a, h a) (k a)) s.
Proof. induction s as [|a s IH]; simpl; [done|]. by rewrite IH. Qed.

Lemma take_drop_app_l {A} (s t : list A) (lo n : nat) :
  (lo + n <= length s)%nat -> take n (drop lo (s ++ t)) = take n (drop lo s).
Proof.
  intros Hle. rewrite drop_app. rewrite take_app.
  replace (n - length (drop lo s))%nat with 0%nat
    by (rewrite length_drop; lia).
  by rewrite take_0, app_nil_r.
Qed.

Lemma take_drop_app_r {A} (s t : list A) (lo n : nat) :
  lo = length s -> n = length t -> take n (drop lo (s ++ t)) = t.
Proof. intros -> ->. rewrite drop_app_length. apply firstn_all. Qed.

Lemma regionValues_WriteRow {A} (get : Value -> A) (make : A -> Value)
    (col : repeated.t (list A)) (row : Row) (region : region.t) :
  len (repeated.base col) = len (repeated.repetitionLevels col) ->
  len (repeated.repetitionLevels col) = len (repeated.definitionLevels col) ->
  0 <= region.offset region -> 0 <= region.length region ->
  region.offset region + region.length region
  <= len (repeated.repetitionLevels col) ->
  regionValues make (repeatedBufferColumn_WriteRow (flat_WriteRow get) col row).1
    region
  = regionValues make col region.
Proof.
  intros Hb Hl Ho Hn Hin. rewrite repeatedBufferColumn_WriteRow_flat.
  unfold regionValues.
  cbn [repeated.base repeated.repetitionLevels repeated.definitionLevels
       repeated.maxDefinitionLevel].
  rewrite !take_drop_app_l by (unfold len in *; lia). done.
Qed.

Lemma repeatedWellFormed_WriteRow {A} (get : Value -> A)
    (col : repeated.t (list A)) (row : Row) :
  repeatedWellFormed col ->
  len (repeated.repetitionLevels col) + len row < 2 ^ 32 ->
  repeatedWellFormed (repeatedBufferColumn_WriteRow (flat_WriteRow get) col row).1.
Proof.
  intros (Hb & Hl & Hmax & Hrows) Hroom.
  pose proof (len_nonneg (repeated.repetitionLevels col)).
  pose proof (len_nonneg row).
  rewrite repeatedBufferColumn_WriteRow_flat. unfold repeatedWellFormed.
  cbn [repeated.base repeated.repetitionLevels repeated.definitionLevels
       repeated.rows].
  rewrite !len_app, !len_map. repeat split; [lia..|].
  apply Forall_app. split.
  - eapply Forall_impl; [exact Hrows|]. simpl. intros; lia.
  - constructor; [|done]. unfold repeatedBufferColumn_row. simpl.
    rewrite !uint32_small by lia. lia.
Qed.

(** X7: a row written to a well-formed repeated column over a flat base,
    with room for its values below [2^32], leaves the column well formed
    and is the last row of the column: [ReadRowAt] returns it at the index
    [Len], each value at the repetition and definition levels it was
    written with, a null when its definition level is not the maximum and
    the payload that the base stored otherwise. *)
Theorem repeatedBufferColumn_WriteRow_ReadRowAt {A}
    (get : Value -> A) (make : A -> Value)
    (col : repeated.t (list A)) (row dst : Row) :
  repeatedWellFormed col ->
  len (repeated.repetitionLevels col) + len row < 2 ^ 32 ->
  let col' := (repeatedBufferColumn_WriteRow (flat_WriteRow get) col row).1 in
  repeatedWellFormed col' /\
  repeatedBufferColumn_Len col' = repeatedBufferColumn_Len col + 1 /\
  repeatedBufferColumn_ReadRowAt (flat_ReadRowAt make) col' dst
    (repeatedBufferColumn_Len col)
  = Some (dst ++ map (fun v =>
                        readValue make (repeated.maxDefinitionLevel col)
                          (RepetitionLevel v) (DefinitionLevel v) (get v))
                   row, None).
Proof.
  intros Hwf Hroom col'.
  pose proof (repeatedWellFormed_WriteRow get col row Hwf Hroom) as Hwf'.
  fold col' in Hwf'. split; [exact Hwf'|].
  destruct Hwf as (Hb & Hl & Hmax & Hrows).
  destruct Hwf' as (Hb' & Hl' & Hmax' & Hrows').
  pose proof (len_nonneg (repeated.repetitionLevels col)).
  pose proof (len_nonneg row).
  set (region := region.mk (len (repeated.repetitionLevels col)) (len row)).
  assert (repeatedBufferColumn_row col (len row) = region) as Hregion.
  { unfold repeatedBufferColumn_row. by rewrite !uint32_small by lia. }
  assert (col' = repeated.mk (repeated.base col ++ map get row)
      (repeated.maxRepetitionLevel col) (repeated.maxDefinitionLevel col)
      (repeated.rows col ++ [region])
      (repeated.repetitionLevels col ++ map RepetitionLevel row)
      (repeated.definitionLevels col ++ map DefinitionLevel row)
      (repeated.buffer col) (repeated.reordering col) (repeated.ordering col))
    as Hcol'.
  { subst col'. by rewrite repeatedBufferColumn_WriteRow_flat, Hregion. }
  unfold repeatedBufferColumn_Len. split.
  { rewrite Hcol'. cbn [repeated.rows]. by rewrite len_snoc. }
  rewrite (repeatedBufferColumn_ReadRowAt_flat make col' dst _ region);
    try done.
  - do 3 f_equal. rewrite Hcol'. unfold regionValues.
    cbn [repeated.base repeated.repetitionLevels repeated.definitionLevels
         repeated.maxDefinitionLevel region.offset region.length region].
    rewrite !take_drop_app_r
      by (rewrite ?length_map; unfold len in *; lia).
    apply zip_with_maps.
  - rewrite Hcol'. cbn [repeated.rows]. apply idx_snoc.
  - rewrite Hcol'. cbn [repeated.repetitionLevels].
    rewrite len_app, len_map. subst region. simpl. lia.
Qed.

Lemma repeatedBufferColumn_WriteRow_ReadRowAt_witness :
  let get := Value_Int32 in
  let make := makeValueInt32 in
  let col := newRepeatedBufferColumn (@nil Z) 1 1 nullsGoFirst in
  let row := [mkValue (Some (PInt32 10)) 0 1 0; mkValue (Some (PInt32 20)) 1 1 0] in
  let col' := (repeatedBufferColumn_WriteRow (flat_WriteRow get) col row).1 in
  repeatedWellFormed col' /\
  repeatedBufferColumn_Len col' = repeatedBufferColumn_Len col + 1 /\
  repeatedBufferColumn_ReadRowAt (flat_ReadRowAt make) col' []
    (repeatedBufferColumn_Len col)
  = Some ([] ++ map (fun v =>
                       readValue make (repeated.maxDefinitionLevel col)
                         (RepetitionLevel v) (DefinitionLevel v) (get v))
                  row, None).
Proof.
  intros get make col row.
  apply (repeatedBufferColumn_WriteRow_ReadRowAt get make col row []).
  - unfold repeatedWellFormed, len. simpl. repeat split; try lia. constructor.
  - unfold len. simpl. lia.
Defined.

(** X8: [WriteRow] on a well-formed repeated column over a flat base leaves
    the rows that the column held as they were: [ReadRowAt] returns for each
    of them what it returned before. *)
Theorem repeatedBufferColumn_WriteRow_frame {A}
    (get : Value -> A) (make : A -> Value)
    (col : repeated.t (list A)) (row dst : Row) (index : Z) :
  repeatedWellFormed col ->
  len (repeated.repetitionLevels col) + len row < 2 ^ 32 ->
  0 <= index < repeatedBufferColumn_Len col ->
  repeatedBufferColumn_ReadRowAt (flat_ReadRowAt make)
    (repeatedBufferColumn_WriteRow (flat_WriteRow get) col row).1 dst index
  = repeatedBufferColumn_ReadRowAt (flat_ReadRowAt make) col dst index.
Proof.
  intros (Hb & Hl & Hmax & Hrows) Hroom Hindex.
  unfold repeatedBufferColumn_Len in Hindex.
  destruct (idx_Some (repeated.rows col) index Hindex) as [region Hregion].
  assert (0 <= region.offset region /\ 0 <= region.length region /\
          region.offset region + region.length region
          <= len (repeated.repetitionLevels col)) as (Ho & Hn & Hin).
  { rewrite Forall_forall in Hrows. apply Hrows.
    eapply list_elem_of_lookup_2, idx_lookup, Hregion. }
  rewrite (repeatedBufferColumn_ReadRowAt_flat make col dst index region)
    by done.
  (* the column after the write *)
  pose proof (len_nonneg row).
  set (col' := (repeatedBufferColumn_WriteRow (flat_WriteRow get) col row).1).
  assert (regionValues make col' region = regionValues make col region) as <-
    by (by apply regionValues_WriteRow).
  subst col'. apply repeatedBufferColumn_ReadRowAt_flat;
    rewrite ?repeatedBufferColumn_WriteRow_flat;
    cbn [repeated.base repeated.repetitionLevels repeated.definitionLevels
         repeated.rows];
    rewrite ?len_app, ?len_map; try lia.
  by rewrite idx_app_l.
Qed.

Lemma repeatedBufferColumn_WriteRow_frame_witness :
  let get := Value_Int32 in
  let make := makeValueInt32 in
  let col := repeated.mk [10; 20] 1 1 [region.mk 0 2] [0; 1] [1; 1] [] None
               nullsGoFirst in
  let row := [mkValue (Some (PInt32 30)) 0 1 0] in
  repeatedBufferColumn_ReadRowAt (flat_ReadRowAt make)
    (repeatedBufferColumn_WriteRow (flat_WriteRow get) col row).1 [] 0
  = repeatedBufferColumn_ReadRowAt (flat_ReadRowAt make) col [] 0.
Proof.
  intros get make col row.
  apply (repeatedBufferColumn_WriteRow_frame get make col row [] 0).
  - unfold repeatedWellFormed, len. simpl. repeat split; try lia.
    repeat constructor; simpl; lia.
  - unfold len. simpl. lia.
  - unfold repeatedBufferColumn_Len, len. simpl. lia.
Defined.

(** X9: [Swap] on a well-formed repeated column over a flat base leaves it
    well formed and exchanges the rows [i] and [j] as [ReadRowAt] returns
    them; every other index is read as before. *)
Theorem repeatedBufferColumn_Swap_ReadRowAt {A} (make : A -> Value)
    (col : repeated.t (list A)) (i j : Z) (dst : Row) :
  repeatedWellFormed col ->
  0 <= i < repeatedBufferColumn_Len col ->
  0 <= j < repeatedBufferColumn_Len col ->
  exists col',
    repeatedBufferColumn_Swap col i j = Some col' /\
    repeatedWellFormed col' /\
    repeatedBufferColumn_ReadRowAt (flat_ReadRowAt make) col' dst i
    = repeatedBufferColumn_ReadRowAt (flat_ReadRowAt make) col dst j /\
    repeatedBufferColumn_ReadRowAt (flat_ReadRowAt make) col' dst j
    = repeatedBufferColumn_ReadRowAt (flat_ReadRowAt make) col dst i /\
    forall k, k <> i -> k <> j ->
      repeatedBufferColumn_ReadRowAt (flat_ReadRowAt make) col' dst k
      = repeatedBufferColumn_ReadRowAt (flat_ReadRowAt make) col dst k.
Proof.
  unfold repeatedBufferColumn_Len. intros (Hb & Hl & Hmax & Hrows) Hi Hj.
  destruct (swap_Some (repeated.rows col) i j Hi Hj) as [rows' Hs].
  unfold repeatedBufferColumn_Swap. rewrite Hs. cbn [mbind option_bind].
  eexists. split; [reflexivity|].
  set (col' := repeated.mk _ _ _ rows' _ _ _ _ _).
  pose proof (swap_length _ _ _ _ Hs) as Hlen.
  assert (Forall (fun region =>
            0 <= region.offset region /\ 0 <= region.length region /\
            region.offset region + region.length region
            <= len (repeated.repetitionLevels col)) rows') as Hrows'.
  { rewrite (swap_Permutation _ _ _ _ Hs). exact Hrows. }
  split; [done|].
  assert (forall k k',
    idx rows' k = idx (repeated.rows col) k' ->
    0 <= k' < len (repeated.rows col) ->
    repeatedBufferColumn_ReadRowAt (flat_ReadRowAt make) col' dst k
    = repeatedBufferColumn_ReadRowAt (flat_ReadRowAt make) col dst k')
    as Hread.
  { intros k k' Hk Hk'.
    destruct (idx_Some (repeated.rows col) k' Hk') as [region Hregion].
    assert (0 <= region.offset region /\ 0 <= region.length region /\
            region.offset region + region.length region
            <= len (repeated.repetitionLevels col)) as (Ho & Hn & Hin).
    { rewrite Forall_forall in Hrows. apply Hrows.
      eapply list_elem_of_lookup_2, idx_lookup, Hregion. }
    rewrite (repeatedBufferColumn_ReadRowAt_flat make col dst k' region)
      by done.
    rewrite (repeatedBufferColumn_ReadRowAt_flat make col' dst k region);
      try done.
    subst col'. cbn [repeated.rows]. congruence. }
  split; [|split].
  - apply Hread; [by eapply swap_idx_l|lia].
  - apply Hread; [by eapply swap_idx_r|lia].
  - intros k Hki Hkj.
    destruct (decide (0 <= k < len (repeated.rows col))) as [Hk|Hk].
    + apply Hread; [by eapply swap_idx_other|lia].
    + unfold repeatedBufferColumn_ReadRowAt. subst col'.
      cbn [repeated.rows]. rewrite Hlen.
      destruct (decide (k < 0)); [done|]. by rewrite !decide_True by lia.
Qed.

Lemma repeatedBufferColumn_Swap_ReadRowAt_witness :
  let make := makeValueInt32 in
  let col := repeated.mk [10; 20; 30] 1 1 [region.mk 0 2; region.mk 2 1]
               [0; 1; 0] [1; 1; 1] [] None nullsGoFirst in
  exists col',
    repeatedBufferColumn_Swap col 0 1 = Some col' /\
    repeatedWellFormed col' /\
    repeatedBufferColumn_ReadRowAt (flat_ReadRowAt make) col' [] 0
    = repeatedBufferColumn_ReadRowAt (flat_ReadRowAt make) col [] 1 /\
    repeatedBufferColumn_ReadRowAt (flat_ReadRowAt make) col' [] 1
    = repeatedBufferColumn_ReadRowAt (flat_ReadRowAt make) col [] 0 /\
    forall k, k <> 0 -> k <> 1 ->
      repeatedBufferColumn_ReadRowAt (flat_ReadRowAt make) col' [] k
      = repeatedBufferColumn_ReadRowAt (flat_ReadRowAt make) col [] k.
Proof.
  intros make col.
  apply (repeatedBufferColumn_Swap_ReadRowAt make col 0 1 []).
  - unfold repeatedWellFormed, len. simpl. repeat split; try lia.
    repeat constructor; simpl; lia.
  - unfold repeatedBufferColumn_Len, len. simpl. lia.
  - unfold repeatedBufferColumn_Len, len. simpl. lia.
Defined.

(** *** What the null compaction leaves *)

Lemma nonNulls_snoc {A} (max : Z) (dls : list Z) (values : list A) d x :
  length dls = length values ->
  nonNulls max (dls ++ [d]) (values ++ [x])
  = nonNulls max dls values ++ (if decide (d <> max) then [] else [x]).
Proof.
  revert values. induction dls as [|d0 dls IH]; intros [|x0 values] Hlen;
    try done; simpl in *.
  rewrite IH by lia. by destruct (decide (d0 <> max)).
Qed.

Lemma nonNulls_length {A} (max : Z) (dls : list Z) (values : list A) :
  (length (nonNulls max dls values) <= length values)%nat.
Proof.
  revert values. induction dls as [|d dls IH]; intros [|x values]; simpl;
    try lia.
  case_decide; simpl; specialize (IH values); lia.
Qed.

Lemma swap_lookup {A} (s : list A) (i j : Z) (s' : list A) (p : nat) :
  swap s i j = Some s' ->
  s' !! p = if decide (p = Z.to_nat j) then s !! Z.to_nat i
            else if decide (p = Z.to_nat i) then s !! Z.to_nat j
            else s !! p.
Proof.
  unfold swap. destruct (idx s i) as [x|] eqn:Hx; [|done].
  destruct (idx s j) as [y|] eqn:Hy; [|done]. cbn [mbind option_bind].
  intros [= <-].
  pose proof (idx_inv _ _ _ Hx) as Hi. pose proof (idx_inv _ _ _ Hy) as Hj.
  apply idx_lookup in Hx. apply idx_lookup in Hy. unfold len in *.
  case_decide as Hpj.
  - subst p. rewrite list_lookup_insert_eq; [done|].
    rewrite length_insert. lia.
  - rewrite list_lookup_insert_ne by done. case_decide as Hpi.
    + subst p. rewrite list_lookup_insert_eq; [done|lia].
    + by rewrite list_lookup_insert_ne.
Qed.

Section Compaction.
Context {A : Type}.
Variable maxDefinitionLevel : Z.
Variable definitionLevels : list Z.
Variable values : list A.
Hypothesis Hlen : length values = length definitionLevels.

Lemma prefix_step (i : Z) d x :
  0 <= i -> idx definitionLevels i = Some d -> idx values i = Some x ->
  nonNullsBefore maxDefinitionLevel definitionLevels values (i + 1)
  = nonNullsBefore maxDefinitionLevel definitionLevels values i
    ++ (if decide (d <> maxDefinitionLevel) then [] else [x]).
Proof.
  intros Hi Hd Hx. unfold nonNullsBefore.
  apply idx_lookup in Hd. apply idx_lookup in Hx.
  replace (Z.to_nat (i + 1)) with (S (Z.to_nat i)) by lia.
  rewrite (take_S_r _ _ _ Hd), (take_S_r _ _ _ Hx).
  apply nonNulls_snoc. rewrite !length_take. lia.
Qed.

Lemma prefix_all (i : Z) :
  len definitionLevels <= i ->
  nonNullsBefore maxDefinitionLevel definitionLevels values i
  = nonNulls maxDefinitionLevel definitionLevels values.
Proof.
  intros Hi. unfold nonNullsBefore.
  rewrite !take_ge by (unfold len in Hi; lia). done.
Qed.

Lemma skipNulls_unfold fuel j :
  skipNulls maxDefinitionLevel definitionLevels fuel j
  = if decide (j < len definitionLevels) then
      null ← isNull j maxDefinitionLevel definitionLevels;
      if null : bool then
        match fuel with
        | O => None
        | S fuel => skipNulls maxDefinitionLevel definitionLevels fuel (j + 1)
        end
      else Some j
    else Some j.
Proof. by destruct fuel. Qed.

Lemma skipNulls_spec (fuel : nat) :
  forall j,
    0 <= j <= len definitionLevels ->
    len definitionLevels - j <= Z.of_nat fuel ->
    exists j',
      skipNulls maxDefinitionLevel definitionLevels fuel j = Some j' /\
      j <= j' <= len definitionLevels /\
      nonNullsBefore maxDefinitionLevel definitionLevels values j'
      = nonNullsBefore maxDefinitionLevel definitionLevels values j /\
      (j' < len definitionLevels ->
       idx definitionLevels j' = Some maxDefinitionLevel).
Proof.
  induction fuel as [|fuel IH]; intros j Hj Hfuel;
    rewrite skipNulls_unfold; case_decide as Hin; try lia.
  - exists j. repeat split; try done; lia.
  - destruct (idx_Some definitionLevels j) as [d Hd]; [lia|].
    destruct (idx_Some values j) as [x Hx]; [unfold len in *; lia|].
    unfold isNull. rewrite Hd. cbn [mbind option_bind].
    destruct (bool_decide (d <> maxDefinitionLevel)) eqn:Hnull.
    + apply bool_decide_eq_true in Hnull.
      destruct (IH (j + 1)) as (j' & Hskip & Hj' & Hprefix & Hmax); [lia..|].
      exists j'. repeat split; try done; try lia.
      rewrite Hprefix, (prefix_step j d x) by (done || lia).
      rewrite decide_True by done. by rewrite app_nil_r.
    + apply bool_decide_eq_false in Hnull.
      exists j. repeat split; try done; try lia. intros _.
      rewrite Hd. f_equal. by apply dec_stable.
  - exists j. repeat split; try done; lia.
Qed.

Lemma compactLoop_unfold fuel (column : list A) i n :
  compactLoop flat_Swap maxDefinitionLevel definitionLevels fuel column i n
  = if decide (i < len definitionLevels) then
      match fuel with
      | O => None
      | S fuel' =>
          j ← skipNulls maxDefinitionLevel definitionLevels fuel i;
          if decide (j < len definitionLevels) then
            column ← flat_Swap column n j;
            compactLoop flat_Swap maxDefinitionLevel definitionLevels fuel'
              column (j + 1) (n + 1)
          else
            compactLoop flat_Swap maxDefinitionLevel definitionLevels fuel'
              column (j + 1) n
      end
    else Some (column, n).
Proof. by destruct fuel. Qed.

Lemma compactLoop_spec (fuel : nat) :
  forall (column : list A) i n,
    0 <= n <= i -> i <= len definitionLevels ->
    len definitionLevels - i < Z.of_nat fuel ->
    length column = length values ->
    take (Z.to_nat n) column
    = nonNullsBefore maxDefinitionLevel definitionLevels values i ->
    (forall p : nat, (Z.to_nat i <= p)%nat -> column !! p = values !! p) ->
    column ≡ₚ values ->
    exists column',
      compactLoop flat_Swap maxDefinitionLevel definitionLevels fuel column i n
      = Some (column',
              len (nonNulls maxDefinitionLevel definitionLevels values)) /\
      take (length (nonNulls maxDefinitionLevel definitionLevels values))
        column'
      = nonNulls maxDefinitionLevel definitionLevels values /\
      column' ≡ₚ values.
Proof.
  assert (forall (column : list A) n i,
            0 <= n -> len definitionLevels <= i ->
            (Z.to_nat n <= length column)%nat ->
            take (Z.to_nat n) column
    = nonNullsBefore maxDefinitionLevel definitionLevels values i ->
            len (nonNulls maxDefinitionLevel definitionLevels values) = n /\
            take (length (nonNulls maxDefinitionLevel definitionLevels values))
              column
            = nonNulls maxDefinitionLevel definitionLevels values) as Hexit.
  { intros column n i Hn Hi Hle Htake. rewrite prefix_all in Htake by done.
    assert (length (nonNulls maxDefinitionLevel definitionLevels values)
            = Z.to_nat n) as Hl.
    { rewrite <- Htake, length_take. lia. }
    split; [unfold len; lia|]. by rewrite Hl. }
  induction fuel as [|fuel IH];
    intros column i n Hn Hi Hfuel Hcol Htake Hrest Hperm;
    rewrite compactLoop_unfold; case_decide as Hin; try lia.
  2:{ (* the scan is over *)
    assert (Z.to_nat n <= length column)%nat as Hle by (unfold len in *; lia).
    destruct (Hexit column n i) as [<- Hfinal]; try done; try lia.
    exists column. done. }
  destruct (skipNulls_spec (S fuel) i) as (j & -> & Hj & Hprefix & Hmax);
      [lia..|].
  cbn [mbind option_bind]. case_decide as Hjin.
  - (* a value at the row j: it moves to the slot n *)
      destruct (swap_Some column n j) as [column' Hswap];
        [unfold len in *; lia..|].
      unfold flat_Swap. rewrite Hswap. cbn [mbind option_bind].
      destruct (idx_Some values j) as [x Hx]; [unfold len in *; lia|].
      apply IH; try lia.
      * rewrite <- Hcol. pose proof (swap_length _ _ _ _ Hswap) as Hl.
        unfold len in Hl. lia.
      * rewrite (prefix_step j maxDefinitionLevel x), Hprefix
          by (done || lia || auto).
        rewrite decide_False by (intros Hne; by apply Hne).
        replace (Z.to_nat (n + 1)) with (S (Z.to_nat n)) by lia.
        rewrite (take_S_r column' (Z.to_nat n) x).
        -- f_equal. rewrite <- Htake. apply list_eq. intros p.
           rewrite !lookup_take. case_decide; [|done].
           rewrite (swap_lookup _ _ _ _ p Hswap).
           rewrite !decide_False by lia. done.
        -- rewrite (swap_lookup _ _ _ _ _ Hswap).
           destruct (decide (Z.to_nat n = Z.to_nat j)) as [Heq|Hne].
           ++ rewrite Heq. rewrite Hrest by lia. by apply idx_lookup.
           ++ rewrite decide_True by done. rewrite Hrest by lia.
              by apply idx_lookup.
      * intros p Hp. rewrite (swap_lookup _ _ _ _ p Hswap).
        rewrite !decide_False by lia. apply Hrest. lia.
      * etrans; [by eapply swap_Permutation|done].
  - (* only nulls were left *)
      rewrite compactLoop_unfold. rewrite decide_False by lia.
      assert (Z.to_nat n <= length column)%nat as Hle
        by (unfold len in *; lia).
      destruct (Hexit column n j) as [<- Hfinal]; try done; try lia.
      * by rewrite Hprefix.
      * exists column. done.
Qed.
End Compaction.

(** X10: on a flat base that holds one value per definition level, the scan
    of [rowGroupColumnPageWithoutNulls] moves the values of the rows that
    are not null to the front of the base, in the order of the rows, and
    returns the page of the base cut to their number; the base holds the
    same values as before, in another order. *)
Theorem rowGroupColumnPageWithoutNulls_compacts {A P}
    (column_Page : list A -> P) (page_Slice : P -> Z -> Z -> P)
    (maxDefinitionLevel : Z) (definitionLevels : list Z) (values : list A) :
  len values = len definitionLevels ->
  let kept := nonNulls maxDefinitionLevel definitionLevels values in
  exists values',
    rowGroupColumnPageWithoutNulls flat_Swap column_Page page_Slice
      maxDefinitionLevel definitionLevels values
    = Some (page_Slice (column_Page values') 0 (len kept), values') /\
    take (length kept) values' = kept /\
    values' ≡ₚ values.
Proof.
  intros Hlen kept. unfold rowGroupColumnPageWithoutNulls.
  pose proof (len_nonneg definitionLevels).
  destruct (compactLoop_spec maxDefinitionLevel definitionLevels values
              ltac:(unfold len in Hlen; lia)
              (S (length definitionLevels)) values 0 0)
    as (values' & -> & Htake & Hperm); try done; try lia.
  - unfold len. lia.
  - cbn [mbind option_bind]. by exists values'.
Qed.

Lemma rowGroupColumnPageWithoutNulls_compacts_witness :
  let kept := nonNulls 1 [0; 1; 0; 1] [0; 7; 0; 9] in
  exists values',
    rowGroupColumnPageWithoutNulls flat_Swap int32BufferColumn_Page
      int32Page_Slice 1 [0; 1; 0; 1] [0; 7; 0; 9]
    = Some (int32Page_Slice (int32BufferColumn_Page values') 0 (len kept),
            values') /\
    take (length kept) values' = kept /\
    values' ≡ₚ [0; 7; 0; 9].
Proof.
  apply (rowGroupColumnPageWithoutNulls_compacts int32BufferColumn_Page
           int32Page_Slice 1 [0; 1; 0; 1] [0; 7; 0; 9]).
  reflexivity.
Defined.

(** *** The written order of the rows of a repeated column *)

Lemma uint32_add_l a b : uint32 (uint32 a + b) = uint32 (a + b).
Proof. unfold uint32. apply Zplus_mod_idemp_l. Qed.

(** The rows are in written order from the offset [o] on exactly when each
    starts where the rows before it end, modulo [2^32]. *)
Lemma reorderedFrom_false (rows : list region.t) :
  forall o,
    reorderedFrom rows o = false <->
    forall (k : nat) row, rows !! k = Some row ->
      region.offset row = if k is O then o
                          else uint32 (o + sumLengths (take k rows)).
Proof.
  induction rows as [|r rows IH]; intros o; simpl.
  { split; [|done]. intros _ k row Hk. done. }
  case_decide as Ho.
  - split; [done|]. intros Hall. specialize (Hall 0%nat r eq_refl).
    simpl in Hall. done.
  - rewrite IH. split.
    + intros Hall [|k] row Hk; simpl in Hk.
      * by injection Hk as <-.
      * specialize (Hall k row Hk). rewrite Hall.
        destruct k as [|k].
        -- simpl. unfold sumLengths. simpl. f_equal. lia.
        -- rewrite uint32_add_l. f_equal.
           change (take (S (S k)) (r :: rows)) with (r :: take (S k) rows).
           unfold sumLengths. simpl. lia.
    + intros Hall k row Hk. specialize (Hall (S k) row Hk).
      rewrite Hall. destruct k as [|k].
      * simpl. unfold sumLengths. simpl. f_equal. lia.
      * rewrite uint32_add_l. f_equal.
        change (take (S (S k)) (r :: rows)) with (r :: take (S k) rows).
        unfold sumLengths. simpl. lia.
Qed.

Lemma rowsHaveBeenReordered_false (rows : list region.t) :
  rowsHaveBeenReordered rows = false <->
  forall (k : nat) row, rows !! k = Some row ->
    region.offset row = uint32 (sumLengths (take k rows)).
Proof.
  change (rowsHaveBeenReordered rows) with (reorderedFrom rows 0).
  rewrite reorderedFrom_false. split; intros Hall k row Hk; specialize (Hall k row Hk).
  - destruct k; [by rewrite Hall|]. by rewrite Hall.
  - destruct k; [by rewrite Hall|]. by rewrite Hall.
Qed.

Lemma sumLengths_snoc rows r :
  sumLengths (rows ++ [r]) = sumLengths rows + region.length r.
Proof. rewrite sumLengths_app. unfold sumLengths. simpl. lia. Qed.

(** X11: a repeated column whose rows are in written order, and whose
    regions add up to the number of its levels, is still in written order
    after [WriteRow]: [rowsHaveBeenReordered] stays false, whatever the
    length of the row, so that [Page] need not copy the column. *)
Theorem rowsHaveBeenReordered_WriteRow {B}
    (base_WriteRow : B -> Row -> B * option error)
    (col : repeated.t B) (row : Row) :
  rowsHaveBeenReordered (repeated.rows col) = false ->
  sumLengths (repeated.rows col) = len (repeated.repetitionLevels col) ->
  rowsHaveBeenReordered
    (repeated.rows (repeatedBufferColumn_WriteRow base_WriteRow col row).1)
  = false.
Proof.
  intros Hordered Hsum. unfold repeatedBufferColumn_WriteRow.
  destruct (base_WriteRow (repeated.base col) row) as [base [e|]]; [done|].
  rewrite foldl_levels. cbn [fst repeated.rows].
  rewrite rowsHaveBeenReordered_false in Hordered |- *.
  intros k r Hk.
  destruct (decide (k < length (repeated.rows col))%nat) as [Hlt|Hge].
  - rewrite lookup_app_l in Hk by done.
    rewrite take_app_le by lia. by apply Hordered.
  - rewrite lookup_app_r in Hk by lia.
    destruct (k - length (repeated.rows col))%nat as [|k'] eqn:Hk';
      [|by destruct k'].
    injection Hk as <-.
    rewrite take_app_ge by lia.
    replace (k - length (repeated.rows col))%nat with 0%nat by lia.
    rewrite take_0, app_nil_r. rewrite Hsum. done.
Qed.

Lemma rowsHaveBeenReordered_WriteRow_witness :
  let col := repeated.mk [10; 20] 1 1 [region.mk 0 2] [0; 1] [1; 1] [] None
               nullsGoFirst in
  rowsHaveBeenReordered
    (repeated.rows
       (repeatedBufferColumn_WriteRow int32BufferColumn_WriteRow col
          [mkValue (Some (PInt32 30)) 0 1 0]).1)
  = false.
Proof.
  intros col.
  apply (rowsHaveBeenReordered_WriteRow int32BufferColumn_WriteRow col);
    reflexivity.
Defined.

Lemma uint32_add_cancel s x y :
  0 <= x < 2 ^ 32 -> 0 <= y < 2 ^ 32 ->
  uint32 (s + x) = uint32 (s + y) -> x = y.
Proof.
  unfold uint32. intros Hx Hy Heq.
  assert ((x - y) mod 2 ^ 32 = 0) as Hmod.
  { replace (x - y) with ((s + x) - (s + y)) by lia.
    rewrite Zminus_mod, Heq, Z.sub_diag. done. }
  apply Z.mod_divide in Hmod; [|lia]. destruct Hmod as [q Hq]. nia.
Qed.

Lemma swap_take {A} (s : list A) (i j : Z) (s' : list A) (k : nat) :
  swap s i j = Some s' ->
  (k <= Z.to_nat i)%nat -> (k <= Z.to_nat j)%nat ->
  take k s' = take k s.
Proof.
  intros Hs Hi Hj. apply list_eq. intros p. rewrite !lookup_take.
  case_decide; [|done]. rewrite (swap_lookup _ _ _ _ p Hs).
  by rewrite !decide_False by lia.
Qed.

(** The rows that follow an exchange of two different regions are not in
    written order: the scan meets a region that does not start where the
    regions before it end. *)
Lemma exchange_detected (rows rows' : list region.t) (a b : nat)
    (ra rb : region.t) :
  Forall (fun r => 0 <= region.offset r < 2 ^ 32 /\
                   0 <= region.length r < 2 ^ 32) rows ->
  rowsHaveBeenReordered rows = false ->
  (a < b)%nat -> rows !! a = Some ra -> rows !! b = Some rb ->
  take a rows' = take a rows ->
  rows' !! a = Some rb -> rows' !! b = Some ra ->
  (forall p, p <> a -> p <> b -> rows' !! p = rows !! p) ->
  ra <> rb ->
  rowsHaveBeenReordered rows' = true.
Proof.
  intros Hrange Hordered Hab Ha Hb Htake Ha' Hb' Hother Hne.
  destruct (rowsHaveBeenReordered rows') eqn:Hordered'; [done|].
  exfalso. apply Hne.
  rewrite rowsHaveBeenReordered_false in Hordered, Hordered'.
  rewrite Forall_forall in Hrange.
  destruct (Hrange ra) as [Hoa Hla]; [by eapply list_elem_of_lookup_2|].
  destruct (Hrange rb) as [Hob Hlb]; [by eapply list_elem_of_lookup_2|].
  pose proof (Hordered a ra Ha) as Hoff_a.
  pose proof (Hordered' a rb Ha') as Hoff_b. rewrite Htake in Hoff_b.
  assert (take (S a) rows = take a rows ++ [ra]) as Htake_a
    by (by apply take_S_r).
  assert (take (S a) rows' = take a rows ++ [rb]) as Htake_a'
    by (rewrite <- Htake; by apply take_S_r).
  assert (region.length ra = region.length rb) as Hlength.
  { destruct (decide (S a = b)) as [<-|Hnext].
    - pose proof (Hordered (S a) rb Hb) as H1.
      pose proof (Hordered' (S a) ra Hb') as H2.
      rewrite Htake_a, sumLengths_snoc in H1.
      rewrite Htake_a', sumLengths_snoc in H2.
      assert (region.length ra = 0) as ->.
      { apply (uint32_add_cancel (sumLengths (take a rows))); [done|lia|].
        rewrite Z.add_0_r. congruence. }
      assert (region.length rb = 0) as ->; [|done].
      apply (uint32_add_cancel (sumLengths (take a rows))); [done|lia|].
      rewrite Z.add_0_r. congruence.
    - destruct (lookup_lt_is_Some_2 rows (S a)) as [r1 Hr1].
      { apply lookup_lt_Some in Hb. lia. }
      pose proof (Hordered (S a) r1 Hr1) as H1.
      assert (rows' !! S a = Some r1) as Hr1' by (rewrite Hother; [done|lia..]).
      pose proof (Hordered' (S a) r1 Hr1') as H2.
      rewrite Htake_a, sumLengths_snoc in H1.
      rewrite Htake_a', sumLengths_snoc in H2.
      apply (uint32_add_cancel (sumLengths (take a rows))); [done..|].
      congruence. }
  destruct ra, rb. simpl in *. f_equal; congruence.
Qed.

(** X12: on a repeated column whose rows are in written order, [Swap] of
    two rows whose regions differ is seen by [rowsHaveBeenReordered], which
    is true of the rows that it leaves. *)
Theorem rowsHaveBeenReordered_Swap {B} (col : repeated.t B) (i j : Z)
    (ri rj : region.t) :
  Forall (fun r => 0 <= region.offset r < 2 ^ 32 /\
                   0 <= region.length r < 2 ^ 32) (repeated.rows col) ->
  rowsHaveBeenReordered (repeated.rows col) = false ->
  idx (repeated.rows col) i = Some ri ->
  idx (repeated.rows col) j = Some rj ->
  ri <> rj ->
  exists col',
    repeatedBufferColumn_Swap col i j = Some col' /\
    rowsHaveBeenReordered (repeated.rows col') = true.
Proof.
  intros Hrange Hordered Hi Hj Hne.
  pose proof (idx_inv _ _ _ Hi) as Hi'. pose proof (idx_inv _ _ _ Hj) as Hj'.
  destruct (swap_Some (repeated.rows col) i j Hi' Hj') as [rows' Hs].
  unfold repeatedBufferColumn_Swap. rewrite Hs. cbn [mbind option_bind].
  eexists. split; [reflexivity|]. cbn [repeated.rows].
  pose proof (idx_lookup _ _ _ Hi) as Hli.
  pose proof (idx_lookup _ _ _ Hj) as Hlj.
  assert (Z.to_nat i <> Z.to_nat j) as Hij by congruence.
  assert (rows' !! Z.to_nat i = Some rj) as Hi2.
  { rewrite (swap_lookup _ _ _ _ _ Hs). rewrite decide_False by done.
    by rewrite decide_True. }
  assert (rows' !! Z.to_nat j = Some ri) as Hj2.
  { rewrite (swap_lookup _ _ _ _ _ Hs). by rewrite decide_True. }
  assert (forall p, p <> Z.to_nat i -> p <> Z.to_nat j ->
            rows' !! p = repeated.rows col !! p) as Hother.
  { intros p Hpi Hpj. rewrite (swap_lookup _ _ _ _ _ Hs).
    by rewrite !decide_False. }
  destruct (decide (Z.to_nat i < Z.to_nat j)%nat).
  - eapply (exchange_detected (repeated.rows col) rows'
              (Z.to_nat i) (Z.to_nat j) ri rj); try done.
    apply (swap_take _ _ _ _ _ Hs); lia.
  - eapply (exchange_detected (repeated.rows col) rows'
              (Z.to_nat j) (Z.to_nat i) rj ri); try done.
    + lia.
    + apply (swap_take _ _ _ _ _ Hs); lia.
    + intros p Hpj Hpi. by apply Hother.
Qed.

Lemma rowsHaveBeenReordered_Swap_witness :
  let col := repeated.mk (ColInt32 [10; 20; 30]) 1 1
               [region.mk 0 2; region.mk 2 1] [0; 1; 0] [1; 1; 1] [] None
               nullsGoFirst in
  exists col',
    repeatedBufferColumn_Swap col 0 1 = Some col' /\
    rowsHaveBeenReordered (repeated.rows col') = true.
Proof.
  intros col.
  apply (rowsHaveBeenReordered_Swap col 0 1 (region.mk 0 2) (region.mk 2 1)).
  - repeat constructor; simpl; lia.
  - reflexivity.
  - reflexivity.
  - reflexivity.
  - discriminate.
Defined.

(** *** [maxRowLengthOf] *)

Lemma maxRowLengthOf_foldl (rows : list region.t) (m : Z) :
  let result :=
    foldl (fun maxLength row =>
             if decide (region.length row > maxLength) then region.length row
             else maxLength) m rows in
  m <= result /\
  Forall (fun row => region.length row <= result) rows /\
  (result = m \/ exists row, row ∈ rows /\ region.length row = result).
Proof.
  revert m. induction rows as [|r rows IH]; intros m; simpl.
  { repeat split; [lia|constructor|by left]. }
  set (m' := if decide (region.length r > m) then region.length r else m).
  assert (m <= m' /\ region.length r <= m' /\
          (m' = m \/ m' = region.length r)) as (Hm & Hr & Hcase)
    by (subst m'; case_decide; lia).
  destruct (IH m') as (Hle & Hall & Hattained).
  repeat split; [lia| |].
  - constructor; [lia|done].
  - destruct Hattained as [Heq|(row & Hin & Hrow)].
    + destruct Hcase as [Hsame|Hnew]; [left; lia|].
      right. exists r. split; [apply list_elem_of_here|lia].
    + right. exists row. split; [by apply list_elem_of_further|done].
Qed.

(** X13: [maxRowLengthOf] returns an upper bound of the lengths of the
    regions, so that a buffer of that length holds the values of every
    row; the bound is [0] or the length of one of the regions. *)
Theorem maxRowLengthOf_bound (rows : list region.t) :
  Forall (fun row => region.length row <= maxRowLengthOf rows) rows /\
  0 <= maxRowLengthOf rows /\
  (maxRowLengthOf rows = 0 \/
   exists row, row ∈ rows /\ region.length row = maxRowLengthOf rows).
Proof.
  destruct (maxRowLengthOf_foldl rows 0) as (Hle & Hall & Hattained).
  unfold maxRowLengthOf. done.
Qed.

(** *** The order of the rows *)

(** X14: on an optional column, whatever the base, a null row is never
    before another null row; with [nullsGoFirst] a null row is before every
    row that is not null and no such row is before a null one, and with
    [nullsGoLast] it is the other way round.  The base is not consulted in
    any of these cases. *)
Theorem optionalBufferColumn_Less_nulls {B}
    (column_Less : B -> Z -> Z -> option bool)
    (col : optional.t B) (i j : Z) (di dj : Z) :
  idx (optional.definitionLevels col) i = Some di ->
  idx (optional.definitionLevels col) j = Some dj ->
  di <> optional.maxDefinitionLevel col ->
  (dj <> optional.maxDefinitionLevel col ->
   optionalBufferColumn_Less column_Less col i j = Some false) /\
  (dj = optional.maxDefinitionLevel col ->
   optionalBufferColumn_Less column_Less col i j
   = Some (match optional.ordering col with
           | nullsGoFirst => true | nullsGoLast => false end) /\
   optionalBufferColumn_Less column_Less col j i
   = Some (match optional.ordering col with
           | nullsGoFirst => false | nullsGoLast => true end)).
Proof.
  intros Hi Hj Hnull.
  unfold optionalBufferColumn_Less, nullOrdering_call, call_nullsGoFirst,
    call_nullsGoLast, isNull.
  rewrite Hi, Hj. cbn [mbind option_bind].
  rewrite (bool_decide_eq_true_2 _ Hnull).
  split.
  - intros Hnull'. rewrite (bool_decide_eq_true_2 _ Hnull').
    by destruct (optional.ordering col).
  - intros ->. rewrite bool_decide_eq_false_2 by (intros Hne; by apply Hne).
    by destruct (optional.ordering col).
Qed.

Lemma optionalBufferColumn_Less_nulls_witness :
  let col := optional.mk [0; 7] 1 [0; 1] nullsGoFirst in
  (1 <> optional.maxDefinitionLevel col ->
   optionalBufferColumn_Less int32BufferColumn_Less col 0 1 = Some false) /\
  (1 = optional.maxDefinitionLevel col ->
   optionalBufferColumn_Less int32BufferColumn_Less col 0 1
   = Some (match optional.ordering col with
           | nullsGoFirst => true | nullsGoLast => false end) /\
   optionalBufferColumn_Less int32BufferColumn_Less col 1 0
   = Some (match optional.ordering col with
           | nullsGoFirst => false | nullsGoLast => true end)).
Proof.
  intros col.
  apply (optionalBufferColumn_Less_nulls int32BufferColumn_Less col 0 1 0 1);
    [reflexivity|reflexivity|discriminate].
Defined.

Section OptionalOrder.
Context {B : Type}.
Variable column_Less : B -> Z -> Z -> option bool.
Variable col : optional.t B.
(** The order of the values of the base. *)
Variable lt : Z -> Z -> bool.
Hypothesis Hless : forall i j,
  0 <= i < len (optional.definitionLevels col) ->
  0 <= j < len (optional.definitionLevels col) ->
  column_Less (optional.base col) i j = Some (lt i j).

Lemma optionalBufferColumn_Less_cases i j di dj :
  idx (optional.definitionLevels col) i = Some di ->
  idx (optional.definitionLevels col) j = Some dj ->
  optionalBufferColumn_Less column_Less col i j
  = Some (match optional.ordering col with
          | nullsGoFirst =>
              if decide (di <> optional.maxDefinitionLevel col)
              then bool_decide (dj = optional.maxDefinitionLevel col)
              else bool_decide (dj = optional.maxDefinitionLevel col)
                   && lt i j
          | nullsGoLast =>
              if decide (di <> optional.maxDefinitionLevel col) then false
              else bool_decide (dj <> optional.maxDefinitionLevel col)
                   || lt i j
          end).
Proof.
  intros Hi Hj.
  pose proof (idx_inv _ _ _ Hi). pose proof (idx_inv _ _ _ Hj).
  unfold optionalBufferColumn_Less, nullOrdering_call, call_nullsGoFirst,
    call_nullsGoLast, isNull.
  rewrite Hi, Hj, Hless by done. cbn [mbind option_bind].
  destruct (optional.ordering col);
    destruct (decide (di <> optional.maxDefinitionLevel col)) as [Hdi|Hdi];
    destruct (decide (dj <> optional.maxDefinitionLevel col)) as [Hdj|Hdj];
    rewrite ?(bool_decide_eq_true_2 _ Hdi), ?(bool_decide_eq_false_2 _ Hdi),
      ?(bool_decide_eq_true_2 _ Hdj), ?(bool_decide_eq_false_2 _ Hdj);
    cbn [negb];
    try apply dec_stable in Hdj;
    rewrite ?(bool_decide_eq_false_2 (dj = _)) by done;
    rewrite ?(bool_decide_eq_true_2 (dj = _)) by done;
    done.
Qed.
End OptionalOrder.

(** X15: when [Less] of the base is a strict order of its values, that is
    irreflexive and transitive, then so is [Less] of the optional column
    over it, on the rows of the column and with either ordering of the
    nulls; in particular two rows are never each before the other. *)
Theorem optionalBufferColumn_Less_strict {B}
    (column_Less : B -> Z -> Z -> option bool)
    (col : optional.t B) (lt : Z -> Z -> bool) (i j k : Z) :
  (forall i j,
     0 <= i < len (optional.definitionLevels col) ->
     0 <= j < len (optional.definitionLevels col) ->
     column_Less (optional.base col) i j = Some (lt i j)) ->
  (forall i, lt i i = false) ->
  (forall i j k, lt i j = true -> lt j k = true -> lt i k = true) ->
  0 <= i < optionalBufferColumn_Len col ->
  0 <= j < optionalBufferColumn_Len col ->
  0 <= k < optionalBufferColumn_Len col ->
  optionalBufferColumn_Less column_Less col i i = Some false /\
  (optionalBufferColumn_Less column_Less col i j = Some true ->
   optionalBufferColumn_Less column_Less col j k = Some true ->
   optionalBufferColumn_Less column_Less col i k = Some true) /\
  (optionalBufferColumn_Less column_Less col i j = Some true ->
   optionalBufferColumn_Less column_Less col j i = Some false).
Proof.
  unfold optionalBufferColumn_Len. intros Hless Hirr Htrans Hi Hj Hk.
  destruct (idx_Some _ _ Hi) as [di Hdi].
  destruct (idx_Some _ _ Hj) as [dj Hdj].
  destruct (idx_Some _ _ Hk) as [dk Hdk].
  rewrite (optionalBufferColumn_Less_cases _ _ lt Hless i i di di) by done.
  rewrite (optionalBufferColumn_Less_cases _ _ lt Hless i j di dj) by done.
  rewrite (optionalBufferColumn_Less_cases _ _ lt Hless j k dj dk) by done.
  rewrite (optionalBufferColumn_Less_cases _ _ lt Hless i k di dk) by done.
  rewrite (optionalBufferColumn_Less_cases _ _ lt Hless j i dj di) by done.
  assert (lt i j = true -> lt j i = false) as Hasym.
  { intros Hij. destruct (lt j i) eqn:Hji; [|done].
    by rewrite <- (Hirr i), (Htrans i j i Hij Hji). }
  destruct (optional.ordering col);
    repeat case_decide; repeat case_bool_decide; cbn [andb orb];
    rewrite ?Hirr; try done; try congruence;
    (split; [done|]); split; intros [= Hij]; try intros [= Hjk];
    try done; try congruence; f_equal; eauto.
Qed.

Lemma optionalBufferColumn_Less_strict_witness :
  let col := optional.mk [5; 7; 9] 1 [1; 1; 1] nullsGoLast in
  let lt := fun i j => bool_decide (default 0 (idx [5; 7; 9] i)
                                    < default 0 (idx [5; 7; 9] j)) in
  optionalBufferColumn_Less int32BufferColumn_Less col 0 0 = Some false /\
  (optionalBufferColumn_Less int32BufferColumn_Less col 0 1 = Some true ->
   optionalBufferColumn_Less int32BufferColumn_Less col 1 2 = Some true ->
   optionalBufferColumn_Less int32BufferColumn_Less col 0 2 = Some true) /\
  (optionalBufferColumn_Less int32BufferColumn_Less col 0 1 = Some true ->
   optionalBufferColumn_Less int32BufferColumn_Less col 1 0 = Some false).
Proof.
  intros col lt.
  apply (optionalBufferColumn_Less_strict int32BufferColumn_Less col lt 0 1 2).
  - intros i j Hi Hj. unfold int32BufferColumn_Less, lt. simpl.
    destruct (idx_Some [5; 7; 9] i Hi) as [x ->].
    destruct (idx_Some [5; 7; 9] j Hj) as [y ->]. done.
  - intros i. unfold lt. apply bool_decide_eq_false_2. lia.
  - intros i j k. unfold lt. rewrite !bool_decide_eq_true. lia.
  - unfold optionalBufferColumn_Len, len. simpl. lia.
  - unfold optionalBufferColumn_Len, len. simpl. lia.
  - unfold optionalBufferColumn_Len, len. simpl. lia.
Defined.

Lemma uint32_negative z : - 2 ^ 32 <= z < 0 -> uint32 z = z + 2 ^ 32.
Proof.
  intros. unfold uint32. symmetry.
  apply (Z.mod_unique z (2 ^ 32) (-1)); lia.
Qed.

(** X16: the column of unsigned 32-bit integers orders the stored [int32]
    values by their bit patterns: two values of the same sign are ordered
    as the signed column orders them, and a value that is not negative is
    before every negative one. *)
Theorem uint32BufferColumn_Less_signs (col : int32BufferColumn)
    (i j x y : Z) :
  idx col i = Some x -> idx col j = Some y ->
  - 2 ^ 31 <= x < 2 ^ 31 -> - 2 ^ 31 <= y < 2 ^ 31 ->
  uint32BufferColumn_Less col i j
  = Some (if bool_decide ((0 <= x) <-> (0 <= y))
          then bool_decide (x < y)
          else bool_decide (0 <= x)) /\
  (((0 <= x) <-> (0 <= y)) ->
   uint32BufferColumn_Less col i j = int32BufferColumn_Less col i j).
Proof.
  intros Hx Hy Hxr Hyr.
  unfold uint32BufferColumn_Less, int32BufferColumn_Less.
  rewrite Hx, Hy. cbn [mbind option_bind].
  assert (uint32 x = if decide (0 <= x) then x else x + 2 ^ 32) as ->.
  { case_decide; [apply uint32_small|apply uint32_negative]; lia. }
  assert (uint32 y = if decide (0 <= y) then y else y + 2 ^ 32) as ->.
  { case_decide; [apply uint32_small|apply uint32_negative]; lia. }
  split; [|intros Hsame]; f_equal;
    repeat case_decide; repeat case_bool_decide; try done; lia.
Qed.

Lemma uint32BufferColumn_Less_signs_witness :
  uint32BufferColumn_Less [-1; 1] 0 1
  = Some (if bool_decide ((0 <= -1) <-> (0 <= 1))
          then bool_decide (-1 < 1)
          else bool_decide (0 <= -1)) /\
  (((0 <= -1) <-> (0 <= 1)) ->
   uint32BufferColumn_Less [-1; 1] 0 1 = int32BufferColumn_Less [-1; 1] 0 1).
Proof.
  apply (uint32BufferColumn_Less_signs [-1; 1] 0 1 (-1) 1);
    [reflexivity|reflexivity|lia|lia].
Defined.

(** *** [Less] of a repeated column *)

Lemma lessElements_unfold {B} (column_Less : B -> Z -> Z -> option bool)
    fuel (col : repeated.t B) row1 row2 k :
  lessElements column_Less fuel col row1 row2 k
  = if bool_decide (k < region.length row1)
       && bool_decide (k < region.length row2)
    then
      match fuel with
      | O => None
      | S fuel =>
          let x := int (uint32 (region.offset row1 + k)) in
          let y := int (uint32 (region.offset row2 + k)) in
          lt ← nullOrdering_call column_Less (repeated.ordering col)
                 (repeated.base col) x y (repeated.maxDefinitionLevel col)
                 (repeated.definitionLevels col);
          if lt : bool then Some true
          else
            gt ← nullOrdering_call column_Less (repeated.ordering col)
                   (repeated.base col) y x (repeated.maxDefinitionLevel col)
                   (repeated.definitionLevels col);
            if gt : bool then Some false
            else lessElements column_Less fuel col row1 row2 (uint32 (k + 1))
      end
    else Some (bool_decide (region.length row1 < region.length row2)).
Proof. by destruct fuel. Qed.

(** X17: on a repeated column a row without values is before every row
    that has values and no row is before it, whatever the values of the
    other row: the base and the levels are not consulted. *)
Theorem repeatedBufferColumn_Less_empty {B}
    (column_Less : B -> Z -> Z -> option bool)
    (col : repeated.t B) (i j : Z) (row1 row2 : region.t) :
  idx (repeated.rows col) i = Some row1 ->
  idx (repeated.rows col) j = Some row2 ->
  region.length row1 = 0 ->
  repeatedBufferColumn_Less column_Less col i j
  = Some (bool_decide (0 < region.length row2)) /\
  (0 <= region.length row2 ->
   repeatedBufferColumn_Less column_Less col j i = Some false).
Proof.
  intros Hi Hj Hempty. unfold repeatedBufferColumn_Less.
  rewrite Hi, Hj. cbn [mbind option_bind].
  rewrite !lessElements_unfold, Hempty.
  rewrite (bool_decide_eq_false_2 (0 < 0)) by lia.
  rewrite andb_false_r. cbn [andb]. split; [done|].
  intros Hlen. f_equal. apply bool_decide_eq_false_2. lia.
Qed.

Lemma repeatedBufferColumn_Less_empty_witness :
  let col := repeated.mk [10; 20] 1 1 [region.mk 0 0; region.mk 0 2]
               [0; 1] [1; 1] [] None nullsGoFirst in
  repeatedBufferColumn_Less int32BufferColumn_Less col 0 1
  = Some (bool_decide (0 < region.length (region.mk 0 2))) /\
  (0 <= region.length (region.mk 0 2) ->
   repeatedBufferColumn_Less int32BufferColumn_Less col 1 0 = Some false).
Proof.
  intros col.
  apply (repeatedBufferColumn_Less_empty int32BufferColumn_Less col 0 1
           (region.mk 0 0) (region.mk 0 2)); reflexivity.
Defined.

Lemma nullOrdering_call_irreflexive {B}
    (column_Less : B -> Z -> Z -> option bool) ordering (column : B)
    (x max : Z) (dls : list Z) :
  0 <= x < len dls ->
  column_Less column x x = Some false ->
  nullOrdering_call column_Less ordering column x x max dls = Some false.
Proof.
  intros Hx Hless. destruct (idx_Some dls x Hx) as [d Hd].
  unfold nullOrdering_call, call_nullsGoFirst, call_nullsGoLast, isNull.
  rewrite Hd. cbn [mbind option_bind].
  destruct ordering; destruct (bool_decide (d <> max)); cbn [negb]; done.
Qed.

Lemma lessElements_irreflexive {B}
    (column_Less : B -> Z -> Z -> option bool) (col : repeated.t B)
    (row : region.t) :
  0 <= region.offset row -> 0 <= region.length row ->
  region.offset row + region.length row
  <= len (repeated.definitionLevels col) ->
  len (repeated.definitionLevels col) < 2 ^ 32 ->
  (forall x, 0 <= x < len (repeated.definitionLevels col) ->
     column_Less (repeated.base col) x x = Some false) ->
  forall fuel k,
    0 <= k -> region.length row - k <= Z.of_nat fuel ->
    lessElements column_Less fuel col row row k = Some false.
Proof.
  intros Ho Hn Hin Hmax Hless.
  induction fuel as [|fuel IH]; intros k Hk Hfuel;
    rewrite lessElements_unfold;
    destruct (decide (k < region.length row)) as [Hlt|Hge];
    rewrite ?(bool_decide_eq_true_2 _ Hlt), ?(bool_decide_eq_false_2 _ Hge);
    cbn [andb]; try lia;
    try (f_equal; apply bool_decide_eq_false_2; lia).
  cbv zeta. rewrite (uint32_small (_ + k)) by lia.
  rewrite int_small by lia.
  rewrite nullOrdering_call_irreflexive by (try apply Hless; lia).
  cbn [mbind option_bind].
  rewrite (uint32_small (k + 1)) by lia. apply IH; lia.
Qed.

(** X18: on a repeated column whose regions lie within the definition
    levels, no row is before itself when no value of the base is before
    itself: the scan of [Less] runs through the values of the row and
    compares the two lengths. *)
Theorem repeatedBufferColumn_Less_irreflexive {B}
    (column_Less : B -> Z -> Z -> option bool)
    (col : repeated.t B) (i : Z) (row : region.t) :
  idx (repeated.rows col) i = Some row ->
  0 <= region.offset row -> 0 <= region.length row ->
  region.offset row + region.length row
  <= len (repeated.definitionLevels col) ->
  len (repeated.definitionLevels col) < 2 ^ 32 ->
  (forall x, 0 <= x < len (repeated.definitionLevels col) ->
     column_Less (repeated.base col) x x = Some false) ->
  repeatedBufferColumn_Less column_Less col i i = Some false.
Proof.
  intros Hi Ho Hn Hin Hmax Hless. unfold repeatedBufferColumn_Less.
  rewrite Hi. cbn [mbind option_bind].
  apply lessElements_irreflexive; try done; lia.
Qed.

Lemma repeatedBufferColumn_Less_irreflexive_witness :
  let col := repeated.mk [10; 20] 1 1 [region.mk 0 2] [0; 1] [1; 0] [] None
               nullsGoFirst in
  repeatedBufferColumn_Less int32BufferColumn_Less col 0 0 = Some false.
Proof.
  intros col.
  apply (repeatedBufferColumn_Less_irreflexive int32BufferColumn_Less col 0
           (region.mk 0 2)).
  - reflexivity.
  - simpl. lia.
  - simpl. lia.
  - unfold len. simpl. lia.
  - unfold len. simpl. lia.
  - intros x Hx. unfold int32BufferColumn_Less. simpl.
    destruct (idx_Some [10; 20] x Hx) as [v ->]. simpl.
    f_equal. apply bool_decide_eq_false_2. lia.
Defined.

(* ===================================================================== *)
(** * Further properties of shredding and assembly *)
(* ===================================================================== *)

(** *** The column indices of the reconstructor *)

Section ReconstructCompiles.
Variable rec : Z -> Node -> compiled reconstructFunc.

Lemma reconstructFuncOfChildren_compiles (children : list (string * Node)) :
  (forall child ci, child ∈ children ->
     exists f, rec ci child.2 = Compiled (ci + leafCount child.2) f) ->
  forall ci,
    exists funcs,
      reconstructFuncOfChildren rec ci children.*2
      = Compiled (ci + foldr (fun child n => leafCount child.2 + n) 0 children)
          funcs.
Proof.
  induction children as [|child children IH]; intros Hrec ci; csimpl.
  { exists []. by rewrite Z.add_0_r. }
  destruct (Hrec child ci) as [f ->]; [left|].
  destruct (IH (fun c ci' Hin => Hrec c ci' (list_elem_of_further _ _ _ Hin))
              (ci + leafCount child.2)) as [funcs ->].
  exists (f :: funcs). by rewrite Z.add_assoc.
Qed.

Lemma reconstructFuncOfBody_compiles node ci :
  (forall node' ci', (fuelOf node' < fuelOf node)%nat ->
     exists f, rec ci' node' = Compiled (ci' + leafCount node') f) ->
  exists f,
    reconstructFuncOfBody rec ci node = Compiled (ci + leafCount node) f.
Proof.
  intros Hrec. unfold reconstructFuncOfBody.
  destruct (Node_Optional node) eqn:Hopt.
  { destruct (Hrec (Required node) ci) as [f Hf].
    - apply fuelOf_Required. unfold Node_Optional in Hopt.
      destruct (repetitionOf node); congruence.
    - unfold reconstructFuncOfOptional. rewrite Hf.
      unfold Required. rewrite withRepetition_leafCount. by eexists. }
  destruct (Node_Repeated node) eqn:Hrep.
  { destruct (Hrec (Required node) ci) as [f Hf].
    - apply fuelOf_Required. unfold Node_Repeated in Hrep.
      destruct (repetitionOf node); congruence.
    - unfold reconstructFuncOfRepeated. rewrite Hf.
      unfold Required. rewrite withRepetition_leafCount. by eexists. }
  assert (repetitionOf node = IsRequired) as Hreq.
  { unfold Node_Optional, Node_Repeated in *. by destruct (repetitionOf node). }
  destruct node as [rep kind|rep children|rep element|rep key value];
    simpl in Hreq; subst rep; simpl.
  - unfold reconstructFuncOfRequired, reconstructFuncOfLeaf. simpl. by eexists.
  - unfold reconstructFuncOfRequired, reconstructFuncOfGroup. simpl.
    destruct (reconstructFuncOfChildren_compiles children) with (ci := ci)
      as [funcs ->]; [|by eexists].
    intros child ci' Hin. apply Hrec.
    pose proof (fuelOf_child _ _ Hin). unfold fuelOf at 2. simpl. lia.
  - unfold reconstructFuncOfList. simpl.
    destruct (Hrec (Repeated element) ci) as [f Hf].
    + unfold fuelOf, Repeated.
      rewrite withRepetition_fuelRequired, withRepetition_repetitionOf.
      simpl. lia.
    + rewrite Hf. unfold Repeated. rewrite withRepetition_leafCount.
      by eexists.
  - unfold reconstructFuncOfMap.
    destruct (Hrec (Repeated (mapKeyValueOf (MapOf IsRequired key value))) ci)
      as [f Hf].
    + unfold fuelOf. simpl. lia.
    + rewrite Hf. simpl. rewrite Z.add_0_r. by eexists.
Qed.
End ReconstructCompiles.

Lemma reconstructFuncOfFuel_compiles (fuel : nat) :
  forall node ci, (fuelOf node <= fuel)%nat ->
    exists f,
      reconstructFuncOfFuel fuel ci node = Compiled (ci + leafCount node) f.
Proof.
  induction fuel as [|fuel IH]; intros node ci Hfuel.
  { unfold fuelOf in Hfuel. destruct node; simpl in Hfuel; lia. }
  simpl. apply reconstructFuncOfBody_compiles.
  intros node' ci' Hlt. apply IH. lia.
Qed.

(** X19: the reconstructor compiles for every schema and from every column
    index, with no bound on the number of columns, and returns the column
    index that follows the leaves of the schema; the deconstructor, where
    it compiles, returns the same index, so that the two number the columns
    alike. *)
Theorem reconstructFuncOf_compiles (schema : Node) (columnIndex : Z) :
  (exists reconstruct,
     reconstructFuncOf columnIndex schema
     = Compiled (columnIndex + leafCount schema) reconstruct) /\
  (forall nextColumnIndex deconstruct,
     0 <= columnIndex <= 128 ->
     deconstructFuncOf columnIndex schema
     = Compiled nextColumnIndex deconstruct ->
     nextColumnIndex = columnIndex + leafCount schema).
Proof.
  split.
  - by apply reconstructFuncOfFuel_compiles.
  - intros next d Hci Hd.
    destruct (deconstructFuncOfFuel_compiles (fuelOf schema) schema columnIndex)
      as [Hok Hpanic]; [done..|].
    unfold deconstructFuncOf in Hd.
    destruct (decide (columnIndex + leafCount schema <= 128)) as [Hle|Hgt].
    + destruct (Hok Hle) as (d' & Hd' & _). congruence.
    + rewrite Hpanic in Hd by lia. done.
Qed.

(** *** Induction over the closures of the reconstructor

    A property of the closures holds of every closure that
    [reconstructFuncOf] returns when each of the compilers of [row.go]
    carries it from the closures that it calls to the closure that it
    returns. *)
Section ReconstructClosures.
Variable Q : Node -> Z -> Z -> reconstructFunc -> Prop.
Hypothesis Hoptional : forall node ci next r f,
  repetitionOf node = IsOptional ->
  Q (Required node) ci next r ->
  reconstructFuncOfOptional (fun _ _ => Compiled next r) ci node
  = Compiled next f ->
  Q node ci next f.
Hypothesis Hrepeated : forall node ci next r f,
  repetitionOf node = IsRepeated ->
  Q (Required node) ci next r ->
  reconstructFuncOfRepeated (fun _ _ => Compiled next r) ci node
  = Compiled next f ->
  Q node ci next f.
Hypothesis Hlist : forall element ci next f,
  Q (Repeated element) ci next f -> Q (ListOf IsRequired element) ci next f.
Hypothesis Hmap : forall key value ci next r f,
  Q (Repeated (mapKeyValueOf (MapOf IsRequired key value))) ci next r ->
  reconstructFuncOfMap (fun _ _ => Compiled next r) ci
    (MapOf IsRequired key value)
  = Compiled next f ->
  Q (MapOf IsRequired key value) ci next f.
Hypothesis Hleaf : forall kind ci next f,
  reconstructFuncOfLeaf ci (Leaf IsRequired kind) = Compiled next f ->
  Q (Leaf IsRequired kind) ci next f.
Hypothesis Hgroup : forall (children : list (string * Node)) ci next funcs,
  closures Q children.*2 ci funcs next ->
  Q (Group IsRequired children) ci next
    (fun value levels row =>
       reconstructFields funcs children.*1 0 value levels row).

Lemma reconstructFuncOfChildren_closures
    (rec : Z -> Node -> compiled reconstructFunc) :
  (forall node ci next f, rec ci node = Compiled next f -> Q node ci next f) ->
  forall children ci next funcs,
    reconstructFuncOfChildren rec ci children = Compiled next funcs ->
    closures Q children ci funcs next.
Proof.
  intros Hrec. induction children as [|child children IH];
    intros ci next funcs; simpl.
  { intros [= <- <-]. constructor. }
  destruct (rec ci child) as [mid f| |] eqn:Hchild; [|done..].
  destruct (reconstructFuncOfChildren rec mid children)
    as [last funcs'| |] eqn:Hchildren; [|done..].
  intros [= <- <-]. econstructor; [by apply Hrec|by apply IH].
Qed.

Lemma reconstructFuncOfFuel_closure (fuel : nat) :
  forall node ci next f,
    reconstructFuncOfFuel fuel ci node = Compiled next f -> Q node ci next f.
Proof.
  induction fuel as [|fuel IH]; intros node ci next f; [done|].
  simpl. unfold reconstructFuncOfBody.
  destruct (Node_Optional node) eqn:Hopt.
  { unfold reconstructFuncOfOptional.
    destruct (reconstructFuncOfFuel fuel ci (Required node))
      as [next' r| |] eqn:Hr; [|done..].
    intros [= <- <-]. apply (Hoptional node ci next' r).
    - unfold Node_Optional in Hopt. by destruct (repetitionOf node).
    - by apply IH.
    - reflexivity. }
  destruct (Node_Repeated node) eqn:Hrep.
  { unfold reconstructFuncOfRepeated.
    destruct (reconstructFuncOfFuel fuel ci (Required node))
      as [next' r| |] eqn:Hr; [|done..].
    intros [= <- <-]. apply (Hrepeated node ci next' r).
    - unfold Node_Repeated in Hrep. by destruct (repetitionOf node).
    - by apply IH.
    - reflexivity. }
  assert (repetitionOf node = IsRequired) as Hreq.
  { unfold Node_Optional, Node_Repeated in *. by destruct (repetitionOf node). }
  destruct node as [rep kind|rep children|rep element|rep key value];
    simpl in Hreq; subst rep; simpl.
  - unfold reconstructFuncOfRequired. simpl. apply Hleaf.
  - unfold reconstructFuncOfRequired, reconstructFuncOfGroup. simpl.
    destruct (reconstructFuncOfChildren (reconstructFuncOfFuel fuel) ci
                children.*2) as [next' funcs| |] eqn:Hchildren; [|done..].
    intros [= <- <-]. apply Hgroup.
    by apply (reconstructFuncOfChildren_closures (reconstructFuncOfFuel fuel)).
  - unfold reconstructFuncOfList. simpl. intros Hf. apply Hlist. by apply IH.
  - unfold reconstructFuncOfMap.
    destruct (reconstructFuncOfFuel fuel ci
                (Repeated (mapKeyValueOf (MapOf IsRequired key value))))
      as [next' r| |] eqn:Hr; [|done..].
    intros [= <- <-]. apply (Hmap key value ci next' r).
    + by apply IH.
    + unfold reconstructFuncOfMap. reflexivity.
Qed.
End ReconstructClosures.

(** *** What a reconstructor consumes *)

Lemma slice_to_end {A} (row : list A) k row' :
  slice row k (len row) = Some row' ->
  row = take (Z.to_nat k) row ++ row' /\ len row' = len row - k.
Proof.
  unfold slice. case_decide as Hk; [|done]. intros [= <-].
  rewrite (take_ge (drop (Z.to_nat k) row))
    by (rewrite length_drop; unfold len in *; lia).
  split; [by rewrite take_drop|].
  unfold len in *. rewrite length_drop. lia.
Qed.

Lemma suffix_length {A} (row consumed row' : list A) :
  row = consumed ++ row' -> (length row' <= length row)%nat.
Proof. intros ->. rewrite length_app. lia. Qed.

Lemma headAt_same levels levels' row :
  levels.repetitionLevel levels' = levels.repetitionLevel levels ->
  headAt levels row -> headAt levels' row.
Proof. intros Heq. destruct row; simpl; congruence. Qed.

Lemma continues_headAt row ci levels :
  startsWith row ci = true -> headAt levels row ->
  continues row ci levels = true.
Proof.
  destruct row as [|first rest]; [done|]. simpl.
  intros Hci%bool_decide_eq_true Hrep.
  by rewrite !bool_decide_eq_true_2.
Qed.

Lemma continues_inv row ci levels :
  continues row ci levels = true -> headAt levels row.
Proof.
  destruct row as [|first rest]; [done|]. simpl.
  by intros [_ Hrep%bool_decide_eq_true]%andb_true_iff.
Qed.

Section LoopConsumes.
Variable r : reconstructFunc.
Variable ci : Z.
Variable t : gotype.
Hypothesis Hsuffix : returnsSuffix r.

Lemma reconstructElements_suffix (fuel : nat) :
  forall buffer n c levels row value' row' err,
    reconstructElements fuel r ci t buffer n c levels row
    = Some (value', row', err) ->
    (exists consumed, row = consumed ++ row') /\
    (progresses r -> err = None -> continues row ci levels = true ->
     (length row' < length row)%nat).
Proof.
  induction fuel as [|fuel IH];
    intros buffer n c levels row value' row' err;
    rewrite reconstructElements_unfold;
    destruct (continues row ci levels) eqn:Hcont; try done.
  - intros [= <- <- <-]. split; [by exists []|done].
  - destruct (if decide (n = c) then _ else _) as [c' buffer'].
    destruct (idx buffer' n) as [elem|]; [|done]. cbn [mbind option_bind].
    destruct (r elem levels row) as [[[elem' row1] err1]|] eqn:Hr; [|done].
    cbn [mbind option_bind].
    destruct (Hsuffix _ _ _ _ _ _ Hr) as [consumed1 Hrow1].
    destruct err1 as [e|].
    + intros [= <- <- <-]. split; [by exists consumed1|done].
    + intros Hloop. apply IH in Hloop as [[consumed2 Hrow2] _].
      split.
      * exists (consumed1 ++ consumed2). by rewrite <- app_assoc, <- Hrow2.
      * intros Hprogress _ _.
        pose proof (Hprogress _ _ _ _ _ Hr (continues_inv _ _ _ Hcont)).
        pose proof (suffix_length _ _ _ Hrow2). lia.
  - intros [= <- <- <-]. split; [by exists []|done].
Qed.
End LoopConsumes.

Lemma leaf_consumes kind ci next f :
  reconstructFuncOfLeaf ci (Leaf IsRequired kind) = Compiled next f ->
  consumesWithin (Leaf IsRequired kind) ci next f.
Proof.
  unfold reconstructFuncOfLeaf. intros [= <- <-]. split.
  - intros value levels [|first rest] value' row' err.
    + intros [= <- <- <-]. by exists [].
    + case_decide.
      * intros [= <- <- <-]. by exists [].
      * destruct (assignValue value first). intros [= <- <- <-].
        by exists [first].
  - intros _. split; [lia|].
    intros value levels [|first rest] value' row'; [done|].
    case_decide; [done|].
    destruct (assignValue value first). intros [= _ <- _] _.
    cbn [length]. lia.
Qed.

Lemma optional_consumes node ci next r f :
  repetitionOf node = IsOptional ->
  consumesWithin (Required node) ci next r ->
  reconstructFuncOfOptional (fun _ _ => Compiled next r) ci node
  = Compiled next f ->
  consumesWithin node ci next f.
Proof.
  intros Hrep [Hsuffix Hprogress]. unfold reconstructFuncOfOptional.
  intros [= <-].
  unfold Required in Hprogress.
  rewrite withRepetition_groupsNonEmpty in Hprogress.
  assert (forall value levels row value' row' err,
    (if negb (startsWith row ci) then
       Some (value, row, Some (fmt_Errorf
         "row is missing optional column %d" [ci]))
     else if decide (len row < next - ci) then
       Some (value, row, Some (fmt_Errorf
         "expected optional column %d to have at least %d values but got %d"
         [ci; next - ci; len row]))
     else
       let levels :=
         levels.mk (levels.repetitionDepth levels)
           (levels.repetitionLevel levels)
           (int8 (levels.definitionLevel levels + 1)) in
       first ← idx row 0;
       if decide (definitionLevel first < levels.definitionLevel levels) then
         row ← slice row (next - ci) (len row);
         Some (Zero (typeOf value), row, None)
       else
         match value with
         | VPtr t target =>
             '(elem, row, err) ← r (default (Zero t) target) levels row;
             Some (VPtr t (Some elem), row, err)
         | _ => r value levels row
         end) = Some (value', row', err) ->
    (exists consumed, row = consumed ++ row') /\
    (groupsNonEmpty node = true -> err = None -> headAt levels row ->
     (length row' < length row)%nat)) as Hclosure.
  { intros value levels row value' row' err.
    destruct (startsWith row ci) eqn:Hstarts; cbn [negb].
    2:{ intros [= <- <- <-]. split; [by exists []|done]. }
    case_decide as Hlen.
    { intros [= <- <- <-]. split; [by exists []|done]. }
    cbv zeta. destruct (idx row 0) as [first|]; [|done].
    cbn [mbind option_bind]. case_decide as Hnull.
    - destruct (slice row (next - ci) (len row)) as [row1|] eqn:Hslice;
        [|done].
      cbn [mbind option_bind]. intros [= <- <- <-].
      apply slice_to_end in Hslice as [Hrow Hlen1].
      split; [by eexists|].
      intros Hgroups _ _. destruct (Hprogress Hgroups) as [Hci _].
      unfold len in *. lia.
    - assert (forall value0 value1,
        r value0 (levels.mk (levels.repetitionDepth levels)
                    (levels.repetitionLevel levels)
                    (int8 (levels.definitionLevel levels + 1))) row
        = Some (value1, row', err) ->
        (exists consumed, row = consumed ++ row') /\
        (groupsNonEmpty node = true -> err = None -> headAt levels row ->
         (length row' < length row)%nat)) as Hchild.
      { intros value0 value1 Hr. split; [by eapply Hsuffix|].
        intros Hgroups -> Hhead. destruct (Hprogress Hgroups) as [_ Hp].
        eapply Hp; [exact Hr|]. by eapply headAt_same. }
      destruct value as [p|t target|t elems|fields|k t entries];
        try (intros Hr; by eapply Hchild).
      destruct (r (default (Zero t) target) _ row)
        as [[[elem row1] err1]|] eqn:Hr; [|done].
      cbn [mbind option_bind]. intros [= <- <- <-]. by eapply Hchild. }
  split.
  - intros value levels row value' row' err Hf.
    by destruct (Hclosure _ _ _ _ _ _ Hf).
  - intros Hgroups. split; [by destruct (Hprogress Hgroups)|].
    intros value levels row value' row' Hf Hhead.
    destruct (Hclosure _ _ _ _ _ _ Hf) as [_ Hlt]. by apply Hlt.
Qed.
Lemma repeated_consumes node ci next r f :
  repetitionOf node = IsRepeated ->
  consumesWithin (Required node) ci next r ->
  reconstructFuncOfRepeated (fun _ _ => Compiled next r) ci node
  = Compiled next f ->
  consumesWithin node ci next f.
Proof.
  intros Hrep [Hsuffix Hprogress]. unfold reconstructFuncOfRepeated.
  intros [= <-].
  unfold Required in Hprogress.
  rewrite withRepetition_groupsNonEmpty in Hprogress.
  assert (forall value levels row value' row' err,
    (if negb (startsWith row ci) then
       Some (value, row, Some (fmt_Errorf
         "row is missing repeated column %d" [ci]))
     else if decide (len row < next - ci) then
       Some (value, row, Some (fmt_Errorf
         "expected repeated column %d to have at least %d values but got %d"
         [ci; next - ci; len row]))
     else
       match value with
       | VSlice t elems =>
           let levels :=
             levels.mk (int8 (levels.repetitionDepth levels + 1))
               (levels.repetitionLevel levels)
               (int8 (levels.definitionLevel levels + 1)) in
           first ← idx row 0;
           if decide (definitionLevel first < levels.definitionLevel levels)
           then
             row ← slice row (next - ci) (len row);
             Some (VSlice t (Some []), row, None)
           else
             let c := len (default [] elems) in
             let '(c, buffer) :=
               if decide (c > 0) then (c, default [] elems)
               else (10, repeat (Zero t) 10) in
             reconstructElements (S (length row)) r ci t buffer 0 c levels row
       | _ =>
           Some (value, row, Some (fmt_Errorf
             "cannot reconstruct repeated column %d into go value of type %s"
             [ci]))
       end) = Some (value', row', err) ->
    (exists consumed, row = consumed ++ row') /\
    (groupsNonEmpty node = true -> err = None -> headAt levels row ->
     (length row' < length row)%nat)) as Hclosure.
  { intros value levels row value' row' err.
    destruct (startsWith row ci) eqn:Hstarts; cbn [negb].
    2:{ intros [= <- <- <-]. split; [by exists []|done]. }
    case_decide as Hlen.
    { intros [= <- <- <-]. split; [by exists []|done]. }
    destruct value as [p|t target|t elems|fields|k t entries];
      try (intros [= <- <- <-]; split; [by exists []|done]).
    cbv zeta. destruct (idx row 0) as [first|]; [|done].
    cbn [mbind option_bind]. case_decide as Hnull.
    - destruct (slice row (next - ci) (len row)) as [row1|] eqn:Hslice;
        [|done].
      cbn [mbind option_bind]. intros [= <- <- <-].
      apply slice_to_end in Hslice as [Hrow Hlen1].
      split; [by eexists|].
      intros Hgroups _ _. destruct (Hprogress Hgroups) as [Hci _].
      unfold len in *. lia.
    - destruct (if decide (len (default [] elems) > 0) then _ else _)
        as [c buffer].
      intros Hloop.
      destruct (reconstructElements_suffix r ci t Hsuffix _ _ _ _ _ _ _ _ _
                  Hloop) as [Hrow Hlt].
      split; [done|]. intros Hgroups -> Hhead.
      destruct (Hprogress Hgroups) as [_ Hp]. apply Hlt; [done..|].
      apply continues_headAt; [done|]. by eapply headAt_same. }
  split.
  - intros value levels row value' row' err Hf.
    by destruct (Hclosure _ _ _ _ _ _ Hf).
  - intros Hgroups. split; [by destruct (Hprogress Hgroups)|].
    intros value levels row value' row' Hf Hhead.
    destruct (Hclosure _ _ _ _ _ _ Hf) as [_ Hlt]. by apply Hlt.
Qed.

Lemma list_consumes element ci next f :
  consumesWithin (Repeated element) ci next f ->
  consumesWithin (ListOf IsRequired element) ci next f.
Proof.
  unfold consumesWithin, Repeated.
  by rewrite withRepetition_groupsNonEmpty.
Qed.

Lemma map_consumes key value ci next r f :
  consumesWithin (Repeated (mapKeyValueOf (MapOf IsRequired key value)))
    ci next r ->
  reconstructFuncOfMap (fun _ _ => Compiled next r) ci
    (MapOf IsRequired key value)
  = Compiled next f ->
  consumesWithin (MapOf IsRequired key value) ci next f.
Proof.
  intros [Hsuffix Hprogress]. unfold reconstructFuncOfMap.
  intros [= <-].
  assert (groupsNonEmpty (MapOf IsRequired key value) = true ->
          ci < next /\ progresses r) as Hprogress'.
  { intros Hgroups. apply Hprogress. simpl in *.
    by rewrite andb_true_r. }
  assert (forall mapValue levels row value' row' err,
    match mapValue with
    | VMap key elem entries =>
        '(keyValueSlice, row, err) ←
          r (Zero (TSlice (TStruct [key; elem]))) levels row;
        match err with
        | Some e => Some (mapValue, row, Some e)
        | None =>
            match keyValueSlice with
            | VSlice _ None => Some (Zero (typeOf mapValue), row, None)
            | VSlice _ (Some pairs) =>
                entries ← setMapEntries pairs (default [] entries);
                Some (VMap key elem (Some entries), row, None)
            | _ => None
            end
        end
    | _ => None
    end = Some (value', row', err) ->
    exists value1 err1,
      r (Zero (TSlice (TStruct
           match mapValue with
           | VMap key elem _ => [key; elem]
           | _ => []
           end))) levels row = Some (value1, row', err1) /\
      (err = None -> err1 = None)) as Hclosure.
  { intros mapValue levels row value' row' err.
    destruct mapValue as [p|t target|t elems|fields|k t entries]; try done.
    destruct (r _ levels row) as [[[kvs row1] err1]|]; [|done].
    cbn [mbind option_bind].
    destruct err1 as [e|].
    { intros [= <- <- <-]. by eexists _, _. }
    destruct kvs as [p|t' target|t' [pairs|]|fields|k' t' entries']; try done.
    - destruct (setMapEntries pairs _); [|done]. cbn [mbind option_bind].
      intros [= <- <- <-]. by eexists _, _.
    - intros [= <- <- <-]. by eexists _, _. }
  split.
  - intros mapValue levels row value' row' err Hf.
    destruct (Hclosure _ _ _ _ _ _ Hf) as (value1 & err1 & Hr & _).
    by eapply Hsuffix.
  - intros Hgroups. destruct (Hprogress' Hgroups) as [Hci Hp].
    split; [done|].
    intros mapValue levels row value' row' Hf Hhead.
    destruct (Hclosure _ _ _ _ _ _ Hf) as (value1 & err1 & Hr & Herr).
    rewrite Herr in Hr by done. by eapply Hp.
Qed.

Lemma reconstructFields_consumes (names : list string) :
  forall children ci funcs next,
    closures consumesWithin children ci funcs next ->
    (forall i value levels row value' row' err,
       reconstructFields funcs names i value levels row
       = Some (value', row', err) ->
       exists consumed, row = consumed ++ row') /\
    (forallb groupsNonEmpty children = true ->
     ci <= next /\
     (children <> [] ->
      ci < next /\
      forall i value levels row value' row',
        reconstructFields funcs names i value levels row
        = Some (value', row', None) ->
        headAt levels row ->
        (length row' < length row)%nat)).
Proof.
  induction 1 as [ci|child children ci mid next f funcs [Hsuffix Hprogress]
                    Hrest [IHsuffix IHprogress]].
  { split.
    - intros i value levels row value' row' err [= <- <- <-]. by exists [].
    - intros _. split; [lia|done]. }
  assert (forall i value levels row value' row' err,
    reconstructFields (f :: funcs) names i value levels row
    = Some (value', row', err) ->
    exists field field' row1 err1,
      f field levels row = Some (field', row1, err1) /\
      (exists consumed, row1 = consumed ++ row') /\
      (err = None -> err1 = None)) as Hstep.
  { intros i value levels row value' row' err. cbn [reconstructFields].
    destruct (valueByIndex value i) as [field|]; [|done].
    cbn [mbind option_bind].
    destruct (f field levels row) as [[[field' row1] err1]|] eqn:Hf; [|done].
    cbn [mbind option_bind].
    destruct err1 as [e|].
    - destruct (names !! i); [|done]. cbn [mbind option_bind].
      intros [= <- <- <-]. eexists _, _, _, _.
      split; [done|]. split; [by exists []|done].
    - intros Hfields. eexists _, _, _, _. split; [done|].
      split; [by eapply IHsuffix|done]. }
  split.
  - intros i value levels row value' row' err Hfields.
    destruct (Hstep _ _ _ _ _ _ _ Hfields)
      as (field & field' & row1 & err1 & Hf & [consumed2 Hrow2] & _).
    destruct (Hsuffix _ _ _ _ _ _ Hf) as [consumed1 Hrow1].
    exists (consumed1 ++ consumed2). by rewrite <- app_assoc, <- Hrow2.
  - cbn [forallb]. intros [Hchild Hchildren]%andb_true_iff.
    destruct (Hprogress Hchild) as [Hci Hp].
    destruct (IHprogress Hchildren) as [Hmid _].
    split; [lia|]. intros _. split; [lia|].
    intros i value levels row value' row' Hfields Hhead.
    destruct (Hstep _ _ _ _ _ _ _ Hfields)
      as (field & field' & row1 & err1 & Hf & [consumed2 Hrow2] & Herr).
    rewrite Herr in Hf by done.
    pose proof (Hp _ _ _ _ _ Hf Hhead).
    pose proof (suffix_length _ _ _ Hrow2). lia.
Qed.

Lemma group_consumes (children : list (string * Node)) ci next funcs :
  closures consumesWithin children.*2 ci funcs next ->
  consumesWithin (Group IsRequired children) ci next
    (fun value levels row =>
       reconstructFields funcs children.*1 0 value levels row).
Proof.
  intros Hclosures.
  destruct (reconstructFields_consumes children.*1 _ _ _ _ Hclosures)
    as [Hsuffix Hprogress].
  split.
  - intros value levels row value' row' err. apply Hsuffix.
  - cbn [groupsNonEmpty]. intros [Hne Hall]%andb_true_iff.
    destruct Hprogress as [_ Hprogress].
    { clear -Hall. induction children as [|child children IH]; [done|].
      cbn [forallb] in Hall. apply andb_true_iff in Hall as [? ?].
      csimpl. apply andb_true_iff. split; [done|by apply IH]. }
    destruct Hprogress as [Hci Hp]; [by destruct children|].
    split; [done|]. intros value levels row value' row'. apply Hp.
Qed.

Lemma reconstructFuncOfFuel_consumes (fuel : nat) node ci next f :
  reconstructFuncOfFuel fuel ci node = Compiled next f ->
  consumesWithin node ci next f.
Proof.
  apply (reconstructFuncOfFuel_closure consumesWithin).
  - apply optional_consumes.
  - apply repeated_consumes.
  - apply list_consumes.
  - apply map_consumes.
  - apply leaf_consumes.
  - apply group_consumes.
Qed.

(** X20: a reconstructor returns what is left of the row that it was given:
    for every schema and every column index the reconstructor compiles, and
    whenever its closure returns, with or without an error, the row that it
    returns is a suffix of the row that it was given. *)
Theorem reconstructFuncOf_suffix (schema : Node) (columnIndex : Z) :
  exists reconstruct,
    reconstructFuncOf columnIndex schema
    = Compiled (columnIndex + leafCount schema) reconstruct /\
    forall value levels row value' row' err,
      reconstruct value levels row = Some (value', row', err) ->
      exists consumed, row = consumed ++ row'.
Proof.
  destruct (reconstructFuncOfFuel_compiles (fuelOf schema) schema columnIndex)
    as [reconstruct Hcompiled]; [done|].
  exists reconstruct. split; [done|].
  by destruct (reconstructFuncOfFuel_consumes _ _ _ _ _ Hcompiled).
Qed.

(** X21: the reconstructor of a schema all of whose groups have a child
    consumes a value where it succeeds: a call that returns without an
    error, on a row that is empty or whose first value is at the repetition
    level of [levels], returns a row that is strictly shorter.  On the
    empty row no call returns without an error. *)
Theorem reconstructFuncOf_progress (schema : Node) (columnIndex : Z) :
  groupsNonEmpty schema = true ->
  exists reconstruct,
    reconstructFuncOf columnIndex schema
    = Compiled (columnIndex + leafCount schema) reconstruct /\
    (forall value levels row value' row',
       reconstruct value levels row = Some (value', row', None) ->
       headAt levels row ->
       (length row' < length row)%nat) /\
    (forall value levels value' row',
       reconstruct value levels [] <> Some (value', row', None)).
Proof.
  intros Hgroups.
  destruct (reconstructFuncOfFuel_compiles (fuelOf schema) schema columnIndex)
    as [reconstruct Hcompiled]; [done|].
  exists reconstruct. split; [done|].
  destruct (reconstructFuncOfFuel_consumes _ _ _ _ _ Hcompiled)
    as [_ Hprogress].
  destruct (Hprogress Hgroups) as [_ Hp]. split; [done|].
  intros value levels value' row' Hr.
  pose proof (Hp _ _ _ _ _ Hr I) as Hlt. simpl in Hlt. lia.
Qed.

Lemma reconstructFuncOf_progress_witness :
  let schema :=
    Group IsRequired [("a"%string, Leaf IsOptional Int32);
                      ("b"%string, ListOf IsRequired (Leaf IsRequired Int64))] in
  exists reconstruct,
    reconstructFuncOf 0 schema
    = Compiled (0 + leafCount schema) reconstruct /\
    (forall value levels row value' row',
       reconstruct value levels row = Some (value', row', None) ->
       headAt levels row ->
       (length row' < length row)%nat) /\
    (forall value levels value' row',
       reconstruct value levels [] <> Some (value', row', None)).
Proof.
  intros schema. apply (reconstructFuncOf_progress schema 0). reflexivity.
Defined.

(** *** Induction over the closures of the deconstructor *)
Section DeconstructClosures.
Variable Q : Node -> Z -> Z -> deconstructFunc -> Prop.
Hypothesis Hoptional : forall node ci next d f,
  repetitionOf node = IsOptional ->
  Q (Required node) ci next d ->
  deconstructFuncOfOptional (fun _ _ => Compiled next d) ci node
  = Compiled next f ->
  Q node ci next f.
Hypothesis Hrepeated : forall node ci next d f,
  repetitionOf node = IsRepeated ->
  Q (Required node) ci next d ->
  deconstructFuncOfRepeated (fun _ _ => Compiled next d) ci node
  = Compiled next f ->
  Q node ci next f.
Hypothesis Hlist : forall element ci next f,
  Q (Repeated element) ci next f -> Q (ListOf IsRequired element) ci next f.
Hypothesis Hmap : forall key value ci next d f,
  Q (Repeated (mapKeyValueOf (MapOf IsRequired key value))) ci next d ->
  deconstructFuncOfMap (fun _ _ => Compiled next d) ci
    (MapOf IsRequired key value)
  = Compiled next f ->
  Q (MapOf IsRequired key value) ci next f.
Hypothesis Hleaf : forall kind ci next f,
  deconstructFuncOfLeaf ci (Leaf IsRequired kind) = Compiled next f ->
  Q (Leaf IsRequired kind) ci next f.
Hypothesis Hgroup : forall (children : list (string * Node)) ci next funcs,
  closures Q children.*2 ci funcs next ->
  Q (Group IsRequired children) ci next
    (fun row levels value => deconstructFields funcs 0 row levels value).

Lemma deconstructFuncOfChildren_closures
    (rec : Z -> Node -> compiled deconstructFunc) :
  (forall node ci next f, rec ci node = Compiled next f -> Q node ci next f) ->
  forall children ci next funcs,
    deconstructFuncOfChildren rec ci children = Compiled next funcs ->
    closures Q children ci funcs next.
Proof.
  intros Hrec. induction children as [|child children IH];
    intros ci next funcs; simpl.
  { intros [= <- <-]. constructor. }
  destruct (rec ci child) as [mid f| |] eqn:Hchild; [|done..].
  destruct (deconstructFuncOfChildren rec mid children)
    as [last funcs'| |] eqn:Hchildren; [|done..].
  intros [= <- <-]. econstructor; [by apply Hrec|by apply IH].
Qed.

Lemma deconstructFuncOfFuel_closure (fuel : nat) :
  forall node ci next f,
    deconstructFuncOfFuel fuel ci node = Compiled next f -> Q node ci next f.
Proof.
  induction fuel as [|fuel IH]; intros node ci next f; [done|].
  simpl. unfold deconstructFuncOfBody.
  destruct (Node_Optional node) eqn:Hopt.
  { unfold deconstructFuncOfOptional.
    destruct (deconstructFuncOfFuel fuel ci (Required node))
      as [next' d| |] eqn:Hd; [|done..].
    intros [= <- <-]. apply (Hoptional node ci next' d).
    - unfold Node_Optional in Hopt. by destruct (repetitionOf node).
    - by apply IH.
    - reflexivity. }
  destruct (Node_Repeated node) eqn:Hrep.
  { unfold deconstructFuncOfRepeated.
    destruct (deconstructFuncOfFuel fuel ci (Required node))
      as [next' d| |] eqn:Hd; [|done..].
    intros [= <- <-]. apply (Hrepeated node ci next' d).
    - unfold Node_Repeated in Hrep. by destruct (repetitionOf node).
    - by apply IH.
    - reflexivity. }
  assert (repetitionOf node = IsRequired) as Hreq.
  { unfold Node_Optional, Node_Repeated in *. by destruct (repetitionOf node). }
  destruct node as [rep kind|rep children|rep element|rep key value];
    simpl in Hreq; subst rep; simpl.
  - unfold deconstructFuncOfRequired. simpl. apply Hleaf.
  - unfold deconstructFuncOfRequired, deconstructFuncOfGroup. simpl.
    destruct (deconstructFuncOfChildren (deconstructFuncOfFuel fuel) ci
                children.*2) as [next' funcs| |] eqn:Hchildren; [|done..].
    intros [= <- <-]. apply Hgroup.
    by apply (deconstructFuncOfChildren_closures (deconstructFuncOfFuel fuel)).
  - unfold deconstructFuncOfList. simpl. intros Hf. apply Hlist. by apply IH.
  - unfold deconstructFuncOfMap.
    destruct (deconstructFuncOfFuel fuel ci
                (Repeated (mapKeyValueOf (MapOf IsRequired key value))))
      as [next' d| |] eqn:Hd; [|done..].
    intros [= <- <-]. apply (Hmap key value ci next' d).
    + by apply IH.
    + unfold deconstructFuncOfMap. reflexivity.
Qed.
End DeconstructClosures.

(** *** What a deconstructor appends *)

Lemma coversColumns_nil ci : coversColumns ci ci [].
Proof. split; [done|]. intros c Hc. lia. Qed.

Lemma coversColumns_app ci mid next vs ws :
  ci <= mid -> mid <= next ->
  coversColumns ci mid vs -> coversColumns mid next ws ->
  coversColumns ci next (vs ++ ws).
Proof.
  intros Hci Hmid [Hvs Hcs] [Hws Hds]. split.
  - apply Forall_app. split.
    + eapply Forall_impl; [exact Hvs|]. simpl. intros v Hv. lia.
    + eapply Forall_impl; [exact Hws|]. simpl. intros v Hv. lia.
  - intros c Hc. destruct (decide (c < mid)) as [Hlt|Hge].
    + destruct (Hcs c) as (v & Hin & Hv); [lia|].
      exists v. split; [|done]. apply elem_of_app. by left.
    + destruct (Hds c) as (v & Hin & Hv); [lia|].
      exists v. split; [|done]. apply elem_of_app. by right.
Qed.

(** The values of two elements of a repetition cover the columns that each
    of them covers. *)
Lemma coversColumns_more ci next vs ws :
  coversColumns ci next vs ->
  Forall (fun v => ci <= ColumnIndex v < next) ws ->
  coversColumns ci next (vs ++ ws).
Proof.
  intros [Hvs Hcs] Hws. split.
  - apply Forall_app. by split.
  - intros c Hc. destruct (Hcs c Hc) as (v & Hin & Hv).
    exists v. split; [|done]. apply elem_of_app. by left.
Qed.

(** A closure that hands its row to the closure of the node below it, at
    levels and with a value that do not depend on the row, appends what that
    closure appends. *)
Lemma appends_delegate (f d : deconstructFunc) levels value levels1 value1
    ci next :
  (forall row, f row levels value = d row levels1 value1) ->
  (forall row levels value row',
     d row levels value = Some row' ->
     exists vs, appends d levels value vs /\
                (0 <= ci -> coversColumns ci next vs)) ->
  forall row row',
    f row levels value = Some row' ->
    exists vs, appends f levels value vs /\
               (0 <= ci -> coversColumns ci next vs).
Proof.
  intros Hf Hd row row'. rewrite Hf. intros Hrow.
  destruct (Hd _ _ _ _ Hrow) as (vs & Happends & Hcovers).
  exists vs. split; [|done]. intros row2. rewrite Hf. apply Happends.
Qed.

Lemma leaf_appends kind ci next f :
  deconstructFuncOfLeaf ci (Leaf IsRequired kind) = Compiled next f ->
  appendsWithin (Leaf IsRequired kind) ci next f.
Proof.
  unfold deconstructFuncOfLeaf, MaxColumnIndex. case_decide as Hci; [done|].
  simpl. intros [= <- <-]. split; [lia|].
  intros row levels value row'.
  destruct (match value with
            | Some x => makeValue kind x
            | None => Some Value_zero
            end) as [v|] eqn:Hv; [|done].
  cbn [mbind option_bind]. intros _.
  eexists. split.
  - intros row2. rewrite Hv. cbn [mbind option_bind]. reflexivity.
  - intros Hci'. split.
    + constructor; [|done]. rewrite ColumnIndex_stored by lia. lia.
    + intros c Hc. eexists. split; [by left|].
      rewrite ColumnIndex_stored by lia. lia.
Qed.

Lemma optional_appends node ci next d f :
  repetitionOf node = IsOptional ->
  appendsWithin (Required node) ci next d ->
  deconstructFuncOfOptional (fun _ _ => Compiled next d) ci node
  = Compiled next f ->
  appendsWithin node ci next f.
Proof.
  intros _ [Hci Hd]. unfold deconstructFuncOfOptional. intros [= Hf].
  split; [done|]. intros row levels value. revert row.
  destruct value as [v|].
  2:{ apply (appends_delegate f d levels None levels None); [|done].
      intros row. by subst f. }
  destruct (IsZero v) eqn:Hzero.
  { apply (appends_delegate f d levels (Some v) levels None); [|done].
    intros row. subst f. cbv beta. by rewrite Hzero. }
  destruct (if isPtr v then Elem v else Some (Some v)) as [value|] eqn:Hvalue.
  - eapply (appends_delegate f d levels (Some v) _ value); [|done].
    intros row. subst f. cbv beta. rewrite Hzero, Hvalue. reflexivity.
  - intros row row'. subst f. cbv beta. by rewrite Hzero, Hvalue.
Qed.

Lemma deconstructElements_appends (d : deconstructFunc) ci next :
  (forall row levels value row',
     d row levels value = Some row' ->
     exists vs, appends d levels value vs /\
                (0 <= ci -> coversColumns ci next vs)) ->
  forall elems row levels row',
    deconstructElements d elems row levels = Some row' ->
    exists vs,
      (forall row, deconstructElements d elems row levels
                   = Some (row ++ vs)) /\
      (0 <= ci ->
       Forall (fun v => ci <= ColumnIndex v < next) vs /\
       (elems <> [] -> coversColumns ci next vs)).
Proof.
  intros Hd. induction elems as [|elem elems IH]; intros row levels row'.
  { intros _. exists []. split.
    - intros row2. by rewrite app_nil_r.
    - intros _. done. }
  cbn [deconstructElements].
  destruct (d row levels (Some elem)) as [row1|] eqn:Hrow1; [|done].
  cbn [mbind option_bind]. intros Hrest.
  destruct (Hd _ _ _ _ Hrow1) as (vs & Hvs & Hcovers).
  destruct (IH _ _ _ Hrest) as (ws & Hws & Hcolumns).
  exists (vs ++ ws). split.
  - intros row2. rewrite Hvs. cbn [mbind option_bind].
    rewrite Hws. by rewrite app_assoc.
  - intros Hci. destruct (Hcolumns Hci) as [Hall _].
    pose proof (Hcovers Hci) as Hcover.
    pose proof (coversColumns_more _ _ _ _ Hcover Hall) as Hmore.
    split; [by destruct Hmore|done].
Qed.

Lemma repeated_appends node ci next d f :
  repetitionOf node = IsRepeated ->
  appendsWithin (Required node) ci next d ->
  deconstructFuncOfRepeated (fun _ _ => Compiled next d) ci node
  = Compiled next f ->
  appendsWithin node ci next f.
Proof.
  intros _ [Hci Hd]. unfold deconstructFuncOfRepeated. intros [= Hf].
  split; [done|]. intros row levels value. revert row.
  destruct value as [v|].
  2:{ apply (appends_delegate f d levels None levels None); [|done].
      intros row. by subst f. }
  destruct (Len v) as [numValues|] eqn:Hlen.
  2:{ intros row row'. subst f. cbv beta. by rewrite Hlen. }
  destruct (decide (numValues = 0)) as [Hzero|Hmore].
  { eapply (appends_delegate f d levels (Some v) _ None); [|done].
    intros row. subst f. cbv beta. rewrite Hlen. cbn [mbind option_bind].
    by rewrite (decide_True _ _ Hzero). }
  destruct (elements v) as [elems|] eqn:Helems.
  2:{ intros row row'. subst f. cbv beta. rewrite Hlen.
      cbn [mbind option_bind]. rewrite (decide_False _ _ Hmore).
      by rewrite Helems. }
  assert (forall row,
    f row levels (Some v)
    = deconstructElements d elems row
        (levels.mk (int8 (levels.repetitionDepth levels + 1))
           (levels.repetitionLevel levels)
           (if decide (numValues > 0)
            then int8 (levels.definitionLevel levels + 1)
            else levels.definitionLevel levels))) as Hcalls.
  { intros row. subst f. cbv beta. rewrite Hlen. cbn [mbind option_bind].
    rewrite (decide_False _ _ Hmore), Helems. reflexivity. }
  intros row row'. rewrite Hcalls. intros Hrow'.
  destruct (deconstructElements_appends d ci next Hd _ _ _ _ Hrow')
    as (vs & Hvs & Hcolumns).
  exists vs. split.
  - intros row2. rewrite Hcalls. apply Hvs.
  - intros Hci'. apply Hcolumns; [done|].
    destruct v as [p|t target|t elems0|fields|k t entries]; try done.
    simpl in Hlen, Helems. injection Hlen as <-. injection Helems as <-.
    intros Hnil. rewrite Hnil in Hmore. done.
Qed.

Lemma list_appends element ci next f :
  appendsWithin (Repeated element) ci next f ->
  appendsWithin (ListOf IsRequired element) ci next f.
Proof. done. Qed.

Lemma map_appends key value ci next d f :
  appendsWithin (Repeated (mapKeyValueOf (MapOf IsRequired key value)))
    ci next d ->
  deconstructFuncOfMap (fun _ _ => Compiled next d) ci
    (MapOf IsRequired key value)
  = Compiled next f ->
  appendsWithin (MapOf IsRequired key value) ci next f.
Proof.
  intros [Hci Hd]. unfold deconstructFuncOfMap. intros [= Hf].
  split; [done|]. intros row levels mapValue. revert row.
  destruct mapValue as [[p|t target|t elems|fields|k t entries]|];
    try (intros row row'; by subst f).
  - apply (appends_delegate f d levels _ levels
             (Some (keyValueSlice k t (default [] entries)))); [|done].
    intros row. by subst f.
  - apply (appends_delegate f d levels None levels None); [|done].
    intros row. by subst f.
Qed.

Lemma deconstructFields_appends :
  forall children ci funcs next,
    closures appendsWithin children ci funcs next ->
    (0 <= ci -> ci <= next) /\
    forall i row levels value row',
      deconstructFields funcs i row levels value = Some row' ->
      exists vs,
        (forall row, deconstructFields funcs i row levels value
                     = Some (row ++ vs)) /\
        (0 <= ci -> coversColumns ci next vs).
Proof.
  induction 1 as [ci|child children ci mid next f funcs [Hci Hf]
                    Hrest [Hmid IH]].
  { split; [lia|]. intros i row levels value row' _. exists []. split.
    - intros row2. by rewrite app_nil_r.
    - intros _. apply coversColumns_nil. }
  split; [lia|]. intros i row levels value row'. cbn [deconstructFields].
  match goal with
  | |- ?m ≫= _ = _ -> _ => destruct m as [field|] eqn:Hfield
  end; [|done].
  cbn [mbind option_bind].
  destruct (f row levels field) as [row1|] eqn:Hrow1; [|done].
  cbn [mbind option_bind]. intros Hfields.
  destruct (Hf _ _ _ _ Hrow1) as (vs & Hvs & Hcovers).
  destruct (IH _ _ _ _ _ Hfields) as (ws & Hws & Hcovers').
  exists (vs ++ ws). split.
  - intros row2. cbn [mbind option_bind]. rewrite Hvs.
    cbn [mbind option_bind]. rewrite Hws. by rewrite app_assoc.
  - intros Hci'. apply (coversColumns_app ci mid next); [lia|lia|..].
    + by apply Hcovers.
    + apply Hcovers'. lia.
Qed.

Lemma group_appends (children : list (string * Node)) ci next funcs :
  closures appendsWithin children.*2 ci funcs next ->
  appendsWithin (Group IsRequired children) ci next
    (fun row levels value => deconstructFields funcs 0 row levels value).
Proof.
  intros Hclosures.
  destruct (deconstructFields_appends _ _ _ _ Hclosures) as [Hci Hfields].
  split; [done|]. intros row levels value row' Hrow'.
  destruct (Hfields _ _ _ _ _ Hrow') as (vs & Hvs & Hcovers).
  by exists vs.
Qed.

Lemma deconstructFuncOfFuel_appends (fuel : nat) node ci next f :
  deconstructFuncOfFuel fuel ci node = Compiled next f ->
  appendsWithin node ci next f.
Proof.
  apply (deconstructFuncOfFuel_closure appendsWithin).
  - apply optional_appends.
  - apply repeated_appends.
  - apply list_appends.
  - apply map_appends.
  - apply leaf_appends.
  - apply group_appends.
Qed.

Lemma withRepetition_mapFree rep node :
  mapFree (withRepetition rep node) = mapFree node.
Proof. by destruct node. Qed.

Lemma closures_mapFree (children : list (string * Node)) :
  forall ci funcs next,
    closures (fun node ci next d =>
                mapFree node = true -> appendsWithin node ci next d)
      children.*2 ci funcs next ->
    forallb (fun child => mapFree child.2) children = true ->
    closures appendsWithin children.*2 ci funcs next.
Proof.
  induction children as [|child children IH]; intros ci funcs next;
    inversion 1 as [|? ? ? mid ? f funcs' Hf Hrest]; subst.
  { intros _. constructor. }
  cbn [forallb]. intros [Hchild Hchildren]%andb_prop.
  econstructor; [by apply Hf|by apply IH].
Qed.

(** The closures compiled for a schema without maps: none of them is the
    closure of a map, so that what they append is shown without a word on
    the order of the keys. *)
Lemma deconstructFuncOfFuel_appends_mapFree (fuel : nat) node ci next f :
  deconstructFuncOfFuel fuel ci node = Compiled next f ->
  mapFree node = true ->
  appendsWithin node ci next f.
Proof.
  apply (deconstructFuncOfFuel_closure
           (fun node ci next d =>
              mapFree node = true -> appendsWithin node ci next d)).
  - intros node0 ci0 next0 d f0 Hrep Hd Hf Hfree.
    apply (optional_appends node0 ci0 next0 d); [done| |done].
    apply Hd. unfold Required. by rewrite withRepetition_mapFree.
  - intros node0 ci0 next0 d f0 Hrep Hd Hf Hfree.
    apply (repeated_appends node0 ci0 next0 d); [done| |done].
    apply Hd. unfold Required. by rewrite withRepetition_mapFree.
  - intros element ci0 next0 f0 Hf Hfree. apply list_appends. apply Hf.
    unfold Repeated. by rewrite withRepetition_mapFree.
  - intros key value ci0 next0 d f0 _ _ Hfree. discriminate Hfree.
  - intros kind ci0 next0 f0 Hf _. by apply leaf_appends.
  - intros children ci0 next0 funcs Hclosures Hfree. apply group_appends.
    by apply closures_mapFree.
Qed.

(** The closure of a map appends the values of the entries in the order in
    which the keys are enumerated: two enumerations of one map give two
    rows. *)
Lemma deconstructFuncOfMap_order :
  let schema :=
    MapOf IsRequired (Leaf IsRequired Int32) (Leaf IsRequired Int32) in
  let levels := levels.mk 0 0 0 in
  let entry k v := (VPrim (PInt32 k), VPrim (PInt32 v)) in
  exists deconstruct,
    deconstructFuncOf 0 schema = Compiled 2 deconstruct /\
    deconstruct [] levels
      (Some (VMap (TPrim Int32 0) (TPrim Int32 0) (Some [entry 1 10; entry 2 20])))
    <> deconstruct [] levels
         (Some (VMap (TPrim Int32 0) (TPrim Int32 0) (Some [entry 2 20; entry 1 10]))).
Proof.
  eexists. split; [reflexivity|]. vm_compute. discriminate.
Qed.

(** X22: a deconstructor compiled for a schema without maps only appends to
    the row that it is given, and what it appends does not depend on that
    row: where a call at some levels and on some value returns, the row that
    it returns is the row that it was given followed by values [vs], and on
    any other row the call at these levels and on this value returns that
    row followed by [vs].  (The closure of a map visits the keys in the
    order of [MapKeys], which may differ from one call to the next.) *)
Theorem deconstructFuncOf_appends (schema : Node) (columnIndex : Z) :
  0 <= columnIndex -> columnIndex + leafCount schema <= 128 ->
  mapFree schema = true ->
  exists deconstruct,
    deconstructFuncOf columnIndex schema
    = Compiled (columnIndex + leafCount schema) deconstruct /\
    forall row levels value row',
      deconstruct row levels value = Some row' ->
      exists vs,
        row' = row ++ vs /\
        forall row2, deconstruct row2 levels value = Some (row2 ++ vs).
Proof.
  intros Hci Hcount Hfree. pose proof (leafCount_nonneg schema).
  destruct (deconstructFuncOfFuel_compiles (fuelOf schema) schema columnIndex)
    as [Hok _]; [done|lia|].
  destruct (Hok Hcount) as (deconstruct & Hcompiled & _).
  exists deconstruct. split; [done|].
  destruct (deconstructFuncOfFuel_appends_mapFree _ _ _ _ _ Hcompiled Hfree)
    as [_ Hd].
  intros row levels value row' Hrow'.
  destruct (Hd _ _ _ _ Hrow') as (vs & Hvs & _).
  exists vs. split; [|done]. rewrite Hvs in Hrow'. congruence.
Qed.

Lemma deconstructFuncOf_appends_witness :
  let schema :=
    Group IsRequired [("a"%string, Leaf IsOptional Int32);
                      ("b"%string, ListOf IsRequired (Leaf IsRequired Int64))] in
  exists deconstruct,
    deconstructFuncOf 0 schema = Compiled (0 + leafCount schema) deconstruct /\
    forall row levels value row',
      deconstruct row levels value = Some row' ->
      exists vs,
        row' = row ++ vs /\
        forall row2, deconstruct row2 levels value = Some (row2 ++ vs).
Proof.
  intros schema. apply (deconstructFuncOf_appends schema 0); [lia| |reflexivity].
  vm_compute. discriminate.
Defined.

(** X23: the values that a deconstructor compiled from the column index
    [columnIndex] appends in a call that returns are values of the columns
    of its schema, from [columnIndex] up to [columnIndex + leafCount schema],
    and every one of these columns is given at least one value, whatever
    the value deconstructed. *)
Theorem deconstructFuncOf_columns (schema : Node) (columnIndex : Z) :
  0 <= columnIndex -> columnIndex + leafCount schema <= 128 ->
  exists deconstruct,
    deconstructFuncOf columnIndex schema
    = Compiled (columnIndex + leafCount schema) deconstruct /\
    forall row levels value row',
      deconstruct row levels value = Some row' ->
      exists vs,
        row' = row ++ vs /\
        Forall (fun v => columnIndex <= ColumnIndex v
                         < columnIndex + leafCount schema) vs /\
        forall c, columnIndex <= c < columnIndex + leafCount schema ->
          exists v, v ∈ vs /\ ColumnIndex v = c.
Proof.
  intros Hci Hcount. pose proof (leafCount_nonneg schema).
  destruct (deconstructFuncOfFuel_compiles (fuelOf schema) schema columnIndex)
    as [Hok _]; [done|lia|].
  destruct (Hok Hcount) as (deconstruct & Hcompiled & _).
  exists deconstruct. split; [done|].
  destruct (deconstructFuncOfFuel_appends _ _ _ _ _ Hcompiled) as [_ Hd].
  intros row levels value row' Hrow'.
  destruct (Hd _ _ _ _ Hrow') as (vs & Hvs & Hcovers).
  exists vs. split; [rewrite Hvs in Hrow'; congruence|].
  by apply Hcovers.
Qed.

Lemma deconstructFuncOf_columns_witness :
  let schema :=
    Group IsRequired [("a"%string, Leaf IsOptional Int32);
                      ("b"%string, ListOf IsRequired (Leaf IsRequired Int64))] in
  exists deconstruct,
    deconstructFuncOf 0 schema = Compiled (0 + leafCount schema) deconstruct /\
    forall row levels value row',
      deconstruct row levels value = Some row' ->
      exists vs,
        row' = row ++ vs /\
        Forall (fun v => 0 <= ColumnIndex v < 0 + leafCount schema) vs /\
        forall c, 0 <= c < 0 + leafCount schema ->
          exists v, v ∈ vs /\ ColumnIndex v = c.
Proof.
  intros schema. apply (deconstructFuncOf_columns schema 0); [lia|].
  vm_compute. discriminate.
Defined.

(** *** The levels of the values that a deconstructor appends *)

Lemma repetitionsBelow_nonneg : forall node, 0 <= repetitionsBelow node.
Proof.
  fix IH 1. intros [rep kind|rep children|rep element|rep key value]; simpl.
  - lia.
  - induction children as [|child children IHc]; simpl; lia.
  - pose proof (IH element). lia.
  - lia.
Qed.

Lemma withRepetition_repetitionsBelow rep node :
  repetitionsBelow (withRepetition rep node) = repetitionsBelow node.
Proof. by destruct node. Qed.

Lemma maxRepetitions_Required node :
  maxRepetitions (Required node) = repetitionsBelow node.
Proof.
  unfold maxRepetitions, Required.
  by rewrite withRepetition_repetitionOf, withRepetition_repetitionsBelow.
Qed.

Lemma maxRepetitions_child (children : list (string * Node)) child :
  child ∈ children ->
  maxRepetitions child.2
  <= foldr (fun child m =>
              Z.max (repeatedLevelOf (repetitionOf child.2)
                     + repetitionsBelow child.2) m)
       0 children.
Proof.
  induction 1 as [child cs|child c cs _ IH]; simpl;
    unfold maxRepetitions in *; lia.
Qed.

Lemma levelsWithin_le levels levels' d d' r r' v :
  levels.definitionLevel levels <= levels.definitionLevel levels' ->
  levels.definitionLevel levels' + d' <= levels.definitionLevel levels + d ->
  levels.repetitionLevel levels' = levels.repetitionLevel levels \/
  levels.repetitionDepth levels < levels.repetitionLevel levels'
  <= levels.repetitionDepth levels + r ->
  levels.repetitionDepth levels <= levels.repetitionDepth levels' ->
  levels.repetitionDepth levels' + r' <= levels.repetitionDepth levels + r ->
  levelsWithin levels' d' r' v -> levelsWithin levels d r v.
Proof. unfold levelsWithin. lia. Qed.

Lemma closures_impl {F} (Q Q' : Node -> Z -> Z -> F -> Prop) :
  (forall node ci next f, Q node ci next f -> Q' node ci next f) ->
  forall children ci funcs next,
    closures Q children ci funcs next -> closures Q' children ci funcs next.
Proof.
  intros Himpl. induction 1; econstructor; eauto.
Qed.

(** The row that a call returns is the row that it was given followed by
    the values that it appends. *)
Lemma appendsWithin_row node ci next d row levels value row' :
  appendsWithin node ci next d ->
  d row levels value = Some row' ->
  exists vs, row' = row ++ vs.
Proof.
  intros [_ Hd] Hrow'. destruct (Hd _ _ _ _ Hrow') as (vs & Hvs & _).
  exists vs. rewrite Hvs in Hrow'. congruence.
Qed.

Lemma leaf_levels kind ci next f :
  deconstructFuncOfLeaf ci (Leaf IsRequired kind) = Compiled next f ->
  boundsLevels (Leaf IsRequired kind) ci next f.
Proof.
  intros Hf. split; [by apply leaf_appends|]. revert Hf.
  unfold deconstructFuncOfLeaf. case_decide as Hci; [done|].
  simpl. intros [= <- <-]. intros row levels value vs Hfit.
  destruct (match value with
            | Some x => makeValue kind x
            | None => Some Value_zero
            end) as [v|]; [|done].
  cbn [mbind option_bind]. intros [= <-%app_inv_head].
  constructor; [|done]. unfold levelsWithin. simpl.
  unfold maxLevels, maxRepetitions. simpl. lia.
Qed.

Lemma optional_levels node ci next d f :
  repetitionOf node = IsOptional ->
  boundsLevels (Required node) ci next d ->
  deconstructFuncOfOptional (fun _ _ => Compiled next d) ci node
  = Compiled next f ->
  boundsLevels node ci next f.
Proof.
  intros Hrep [Happends Hd] Hf.
  split; [by apply (optional_appends node ci next d)|]. revert Hf.
  unfold deconstructFuncOfOptional. intros [= <-].
  intros row levels value vs Hfit.
  pose proof (levelsBelow_nonneg node) as Hbelow.
  pose proof (repetitionsBelow_nonneg node) as Hrbelow.
  assert (maxLevels node = 1 + levelsBelow node) as Hmax
    by (apply maxLevels_wrapped; congruence).
  assert (maxRepetitions node = repetitionsBelow node) as Hmaxr
    by (unfold maxRepetitions; by rewrite Hrep).
  assert (forall levels1 value1,
    levels.repetitionDepth levels1 = levels.repetitionDepth levels ->
    levels.repetitionLevel levels1 = levels.repetitionLevel levels ->
    levels.definitionLevel levels <= levels.definitionLevel levels1
    <= levels.definitionLevel levels + 1 ->
    d row levels1 value1 = Some (row ++ vs) ->
    Forall (levelsWithin levels (maxLevels node) (maxRepetitions node)) vs)
    as Hcall.
  { intros levels1 value1 Hdepth Hlevel Hdef Hrow.
    eapply Forall_impl; [eapply (Hd row levels1 value1); [|done]|].
    - unfold levelsFit in *. rewrite maxLevels_Required.
      rewrite Hmax in Hfit. lia.
    - intros v. apply levelsWithin_le;
        rewrite ?maxLevels_Required, ?maxRepetitions_Required; lia. }
  destruct value as [v|]; [|apply Hcall; lia].
  destruct (IsZero v); [apply Hcall; lia|].
  destruct (if isPtr v then Elem v else Some (Some v)) as [value|]; [|done].
  cbn [mbind option_bind]. apply Hcall; cbn [levels.repetitionDepth
    levels.repetitionLevel levels.definitionLevel]; try done.
  unfold levelsFit in Hfit. rewrite Hmax in Hfit.
  rewrite int8_small by lia. lia.
Qed.

Lemma deconstructElements_levels node ci next d :
  boundsLevels (Required node) ci next d ->
  forall elems row levels vs,
    levelsFit levels (Required node) ->
    deconstructElements d elems row levels = Some (row ++ vs) ->
    Forall (fun v =>
              (levels.definitionLevel levels <= definitionLevel v
               <= levels.definitionLevel levels + levelsBelow node) /\
              (repetitionLevel v = levels.repetitionLevel levels \/
               levels.repetitionDepth levels <= repetitionLevel v
               <= levels.repetitionDepth levels + repetitionsBelow node)) vs.
Proof.
  intros [Happends Hd]. pose proof (repetitionsBelow_nonneg node) as Hbelow.
  induction elems as [|elem elems IH]; intros row levels vs Hfit.
  { cbn [deconstructElements]. intros [= Hvs].
    rewrite <- (app_nil_r row) in Hvs at 1. apply app_inv_head in Hvs.
    by subst vs. }
  cbn [deconstructElements].
  destruct (d row levels (Some elem)) as [row1|] eqn:Hrow1; [|done].
  cbn [mbind option_bind]. intros Hrest.
  destruct (appendsWithin_row _ _ _ _ _ _ _ _ Happends Hrow1) as [vs1 ->].
  destruct (deconstructElements_appends d ci next (proj2 Happends)
              _ _ _ _ Hrest) as (ws & Hws & _).
  pose proof Hrest as Hrest'. rewrite Hws in Hrest'.
  injection Hrest' as Hvs. rewrite <- app_assoc in Hvs.
  apply app_inv_head in Hvs. subst vs.
  apply Forall_app. split.
  - eapply Forall_impl; [by eapply (Hd row levels (Some elem))|].
    intros v. unfold levelsWithin.
    rewrite maxLevels_Required, maxRepetitions_Required. lia.
  - eapply Forall_impl; [eapply (IH (row ++ vs1)); [|apply Hws]|].
    + unfold levelsFit in *. simpl. lia.
    + cbn beta. cbn [levels.repetitionDepth levels.repetitionLevel
        levels.definitionLevel]. intros v Hv. lia.
Qed.

Lemma repeated_levels node ci next d f :
  repetitionOf node = IsRepeated ->
  boundsLevels (Required node) ci next d ->
  deconstructFuncOfRepeated (fun _ _ => Compiled next d) ci node
  = Compiled next f ->
  boundsLevels node ci next f.
Proof.
  intros Hrep Hbounds Hf. pose proof Hbounds as [Happends Hd].
  split; [by apply (repeated_appends node ci next d)|]. revert Hf.
  unfold deconstructFuncOfRepeated. intros [= <-].
  intros row levels value vs Hfit.
  pose proof (levelsBelow_nonneg node) as Hbelow.
  pose proof (repetitionsBelow_nonneg node) as Hrbelow.
  assert (maxLevels node = 1 + levelsBelow node) as Hmax
    by (apply maxLevels_wrapped; congruence).
  assert (maxRepetitions node = 1 + repetitionsBelow node) as Hmaxr
    by (unfold maxRepetitions; by rewrite Hrep).
  unfold levelsFit in Hfit. rewrite Hmax in Hfit.
  assert (forall levels1 value1,
    levels.repetitionDepth levels <= levels.repetitionDepth levels1
    <= levels.repetitionDepth levels + 1 ->
    levels.repetitionLevel levels1 = levels.repetitionLevel levels ->
    levels.definitionLevel levels1 = levels.definitionLevel levels ->
    d row levels1 value1 = Some (row ++ vs) ->
    Forall (levelsWithin levels (maxLevels node) (maxRepetitions node)) vs)
    as Hcall.
  { intros levels1 value1 Hdepth Hlevel Hdef Hrow.
    eapply Forall_impl; [eapply (Hd row levels1 value1); [|done]|].
    - unfold levelsFit. rewrite maxLevels_Required. lia.
    - intros v. apply levelsWithin_le;
        rewrite ?maxLevels_Required, ?maxRepetitions_Required; lia. }
  destruct value as [v|]; [|apply Hcall; lia].
  destruct (Len v) as [numValues|] eqn:Hlen; [|done].
  cbn [mbind option_bind]. cbv zeta.
  assert (0 <= numValues) as Hnum.
  { destruct v; simpl in Hlen; try done; injection Hlen as <-;
      apply len_nonneg. }
  case_decide as Hzero.
  { subst numValues. rewrite decide_False by lia.
    apply Hcall; cbn [levels.repetitionDepth levels.repetitionLevel
      levels.definitionLevel]; try done.
    rewrite int8_small by lia. lia. }
  rewrite decide_True by lia.
  destruct (elements v) as [elems|]; [|done].
  cbn [mbind option_bind]. intros Helems.
  eapply Forall_impl;
    [eapply (deconstructElements_levels node ci next d Hbounds);
       [|exact Helems]|].
  - unfold levelsFit. rewrite maxLevels_Required.
    cbn [levels.repetitionDepth levels.repetitionLevel
      levels.definitionLevel].
    rewrite !int8_small by lia. lia.
  - cbn [levels.repetitionDepth levels.repetitionLevel
      levels.definitionLevel].
    rewrite !int8_small by lia.
    intros x. unfold levelsWithin. rewrite Hmax, Hmaxr. lia.
Qed.

Lemma list_levels element ci next f :
  boundsLevels (Repeated element) ci next f ->
  boundsLevels (ListOf IsRequired element) ci next f.
Proof.
  intros [Happends Hf]. split; [done|].
  intros row levels value vs Hfit Hrow.
  assert (maxLevels (ListOf IsRequired element)
          = maxLevels (Repeated element)) as Hmax.
  { unfold maxLevels, Repeated.
    rewrite withRepetition_repetitionOf, withRepetition_levelsBelow.
    simpl. lia. }
  assert (maxRepetitions (ListOf IsRequired element)
          = maxRepetitions (Repeated element)) as Hmaxr.
  { unfold maxRepetitions, Repeated.
    rewrite withRepetition_repetitionOf, withRepetition_repetitionsBelow.
    simpl. lia. }
  rewrite Hmax, Hmaxr. apply (Hf row levels value vs); [|done].
  unfold levelsFit in *. by rewrite <- Hmax.
Qed.

Lemma map_levels key value ci next d f :
  boundsLevels (Repeated (mapKeyValueOf (MapOf IsRequired key value)))
    ci next d ->
  deconstructFuncOfMap (fun _ _ => Compiled next d) ci
    (MapOf IsRequired key value)
  = Compiled next f ->
  boundsLevels (MapOf IsRequired key value) ci next f.
Proof.
  intros [Happends Hd] Hf.
  split; [by apply (map_appends key value ci next d)|]. revert Hf.
  unfold deconstructFuncOfMap. intros [= <-].
  intros row levels mapValue vs Hfit.
  assert (forall value1,
    d row levels value1 = Some (row ++ vs) ->
    Forall (levelsWithin levels (maxLevels (MapOf IsRequired key value))
              (maxRepetitions (MapOf IsRequired key value))) vs) as Hcall.
  { intros value1 Hrow. by apply (Hd row levels value1 vs). }
  destruct mapValue as [[p|t target|t elems|fields|k t entries]|]; try done;
    apply Hcall.
Qed.

Lemma deconstructFields_levels :
  forall children ci funcs next,
    closures boundsLevels children ci funcs next ->
    forall (maxDefinition maxRepetition : Z),
      Forall (fun child => maxLevels child <= maxDefinition /\
                           maxRepetitions child <= maxRepetition) children ->
      forall i row levels value vs,
        0 <= levels.repetitionDepth levels ->
        levels.repetitionDepth levels + maxDefinition <= 127 ->
        0 <= levels.definitionLevel levels ->
        levels.definitionLevel levels + maxDefinition <= 127 ->
        deconstructFields funcs i row levels value = Some (row ++ vs) ->
        Forall (levelsWithin levels maxDefinition maxRepetition) vs.
Proof.
  induction 1 as [ci|child children ci mid next f funcs [Happends Hf]
                    Hrest IH];
    intros maxDefinition maxRepetition Hmax i row levels value vs
      Hdepth Hdepth' Hdef Hdef'.
  { cbn [deconstructFields]. intros [= Hvs].
    rewrite <- (app_nil_r row) in Hvs at 1. apply app_inv_head in Hvs.
    by subst vs. }
  apply Forall_cons in Hmax as [[Hchild Hchildr] Hmax].
  cbn [deconstructFields].
  match goal with
  | |- ?m ≫= _ = _ -> _ => destruct m as [field|]
  end; [|done].
  cbn [mbind option_bind].
  destruct (f row levels field) as [row1|] eqn:Hrow1; [|done].
  cbn [mbind option_bind]. intros Hfields.
  destruct (appendsWithin_row _ _ _ _ _ _ _ _ Happends Hrow1) as [vs1 ->].
  pose proof (closures_impl boundsLevels appendsWithin
                (fun _ _ _ _ H => proj1 H) _ _ _ _ Hrest) as Hrest'.
  destruct (deconstructFields_appends _ _ _ _ Hrest') as [_ Happ].
  destruct (Happ _ _ _ _ _ Hfields) as (ws & Hws & _).
  pose proof Hfields as Hfields'. rewrite Hws in Hfields'.
  injection Hfields' as Hvs. rewrite <- app_assoc in Hvs.
  apply app_inv_head in Hvs. subst vs.
  apply Forall_app. split.
  - eapply Forall_impl; [eapply (Hf row levels field); [|done]|].
    + unfold levelsFit. lia.
    + intros v. unfold levelsWithin. lia.
  - eapply (IH _ _ Hmax (S i) (row ++ vs1)); [done..|apply Hws].
Qed.

Lemma group_levels (children : list (string * Node)) ci next funcs :
  closures boundsLevels children.*2 ci funcs next ->
  boundsLevels (Group IsRequired children) ci next
    (fun row levels value => deconstructFields funcs 0 row levels value).
Proof.
  intros Hclosures. split.
  { apply group_appends.
    by apply (closures_impl boundsLevels appendsWithin
                (fun _ _ _ _ H => proj1 H)). }
  intros row levels value vs Hfit.
  apply (deconstructFields_levels _ _ _ _ Hclosures); try apply Hfit.
  apply Forall_fmap, Forall_forall. intros child Hin. simpl. split.
  - by apply maxLevels_child.
  - by apply maxRepetitions_child.
Qed.

Lemma deconstructFuncOfFuel_levels (fuel : nat) node ci next f :
  deconstructFuncOfFuel fuel ci node = Compiled next f ->
  boundsLevels node ci next f.
Proof.
  apply (deconstructFuncOfFuel_closure boundsLevels).
  - apply optional_levels.
  - apply repeated_levels.
  - apply list_levels.
  - apply map_levels.
  - apply leaf_levels.
  - apply group_levels.
Qed.

(** X24: the levels of the values that a deconstructor appends stay within
    the levels of its schema.  At levels that leave room for those of the
    schema below the bound of [int8], every value appended has a definition
    level between that of [levels] and that level plus the number of
    optional and repeated levels of the schema, and a repetition level that
    is that of [levels] or lies above the repetition depth of [levels] by at
    most the number of repeated levels of the schema. *)
Theorem deconstructFuncOf_levels (schema : Node) (columnIndex : Z) :
  0 <= columnIndex -> columnIndex + leafCount schema <= 128 ->
  exists deconstruct,
    deconstructFuncOf columnIndex schema
    = Compiled (columnIndex + leafCount schema) deconstruct /\
    forall row levels value vs,
      levelsFit levels schema ->
      deconstruct row levels value = Some (row ++ vs) ->
      Forall (fun v =>
                (levels.definitionLevel levels <= definitionLevel v
                 <= levels.definitionLevel levels + maxLevels schema) /\
                (repetitionLevel v = levels.repetitionLevel levels \/
                 levels.repetitionDepth levels < repetitionLevel v
                 <= levels.repetitionDepth levels + maxRepetitions schema))
        vs.
Proof.
  intros Hci Hcount. pose proof (leafCount_nonneg schema).
  destruct (deconstructFuncOfFuel_compiles (fuelOf schema) schema columnIndex)
    as [Hok _]; [done|lia|].
  destruct (Hok Hcount) as (deconstruct & Hcompiled & _).
  exists deconstruct. split; [done|].
  destruct (deconstructFuncOfFuel_levels _ _ _ _ _ Hcompiled) as [_ Hd].
  exact Hd.
Qed.

Lemma deconstructFuncOf_levels_witness :
  let schema :=
    Group IsRequired [("a"%string, Leaf IsOptional Int32);
                      ("b"%string, ListOf IsRequired (Leaf IsRequired Int64))] in
  exists deconstruct,
    deconstructFuncOf 0 schema = Compiled (0 + leafCount schema) deconstruct /\
    forall row levels value vs,
      levelsFit levels schema ->
      deconstruct row levels value = Some (row ++ vs) ->
      Forall (fun v =>
                (levels.definitionLevel levels <= definitionLevel v
                 <= levels.definitionLevel levels + maxLevels schema) /\
                (repetitionLevel v = levels.repetitionLevel levels \/
                 levels.repetitionDepth levels < repetitionLevel v
                 <= levels.repetitionDepth levels + maxRepetitions schema))
        vs.
Proof.
  intros schema. apply (deconstructFuncOf_levels schema 0); [lia|].
  vm_compute. discriminate.
Defined.

